(** * MySQL collation data for Vitess: the table generator and the weight engine

    The first part embeds [go/mysql/collations/tools/makemysqldata/makemysqldata.go],
    the offline generator that turns the metadata dumped from a MySQL server
    into the static registration data of package [collations].  The second part
    models the run-time weight engine, whose Go code lives in other packages,
    from its written specification. *)

From Stdlib Require Import ZArith List Ascii String Lia Bool.
From stdpp Require Import gmap strings list fin_maps sorting.

Set Warnings "-register-all".
Local Open Scope string_scope.
Local Open Scope list_scope.
Local Open Scope Z_scope.

(** ** Fallible code: panics and fatal errors *)

Inductive failure :=
| InvalidUCAVersion            (* panic("invalid UCAVersion") *)
| UnexpectedUCAVersion         (* panic("unexpected UCA version for UCA900 collation") *)
| UnknownLevelsForCompare (name : string)
| SliceBoundsOutOfRange        (* the run-time panic of key[2:] on a short key *)
| ParseIntError                (* panic(err) after strconv.ParseInt *)
| NilDereference.              (* a field read through a nil pointer *)

Inductive result (A : Type) : Type :=
| Ok (a : A)
| Panic (why : failure).
Arguments Ok {A} a.
Arguments Panic {A} why.

Definition rbind {A B} (m : result A) (k : A → result B) : result B :=
  match m with
  | Ok a => k a
  | Panic why => Panic why
  end.

Notation "'do' x <- m ; k" := (rbind m (fun x => k))
  (at level 10, x name, m at level 100, k at level 200).
Notation "'do' ' p <- m ; k" := (rbind m (fun x => match x with p => k end))
  (at level 10, p pattern, m at level 100, k at level 200).

Fixpoint rmapM {A B} (f : A → result B) (l : list A) : result (list B) :=
  match l with
  | [] => Ok []
  | x :: l' => do y <- f x; do ys <- rmapM f l'; Ok (y :: ys)
  end.

(** ** Go strings

    A Go string is a sequence of bytes; [string] (a list of [ascii]) has the
    same shape.  [HasSuffix] is [strings.HasSuffix]:
    [len(s) >= len(suffix) && s[len(s)-len(suffix):] == suffix]. *)

Definition bytesOf (s : string) : list ascii := list_ascii_of_string s.

Definition HasSuffix (s suffix : string) : bool :=
  let ls := bytesOf s in
  let lx := bytesOf suffix in
  (length lx <=? length ls)%nat
  && bool_decide (drop (length ls - length lx) ls = lx).

(** [s[n:]], which panics when [n] is beyond the length of [s]. *)
Definition sliceFrom (n : nat) (s : string) : option string :=
  if (n <=? String.length s)%nat
  then Some (string_of_list_ascii (drop n (bytesOf s)))
  else None.

(** *** [strconv.ParseInt(s, 16, 32)]

    An optional sign, then at least one hexadecimal digit (either case, no
    underscores since the base is given), and the value must fit an [int32]. *)

Definition hexDigit (c : ascii) : option Z :=
  let n := Z.of_N (N_of_ascii c) in
  if (48 <=? n) && (n <=? 57) then Some (n - 48)
  else if (97 <=? n) && (n <=? 102) then Some (n - 97 + 10)
  else if (65 <=? n) && (n <=? 70) then Some (n - 65 + 10)
  else None.

Fixpoint parseHexFrom (acc : Z) (ds : list ascii) : option Z :=
  match ds with
  | [] => Some acc
  | c :: ds' =>
      match hexDigit c with
      | Some d => parseHexFrom (acc * 16 + d) ds'
      | None => None
      end
  end.

(** [strconv.ParseUint(s, 16, 32)] before the range check. *)
Definition parseHex (ds : list ascii) : option Z :=
  match ds with
  | [] => None
  | _ => parseHexFrom 0 ds
  end.

Definition ParseInt16_32 (s : string) : option Z :=
  match bytesOf s with
  | [] => None
  | c :: rest =>
      let cutoff := 2 ^ 31 in
      if Ascii.eqb c "+"%char then
        match parseHex rest with
        | Some un => if un <? cutoff then Some un else None
        | None => None
        end
      else if Ascii.eqb c "-"%char then
        match parseHex rest with
        | Some un => if un <=? cutoff then Some (- un) else None
        | None => None
        end
      else
        match parseHex (c :: rest) with
        | Some un => if un <? cutoff then Some un else None
        | None => None
        end
  end.

(** ** The metadata of one collation, as decoded from the JSON dump *)

(** [uca.WeightPatch] and [uca.Contraction], as far as the generator uses
    their fields. *)
Module uca.
Record WeightPatch := { Codepoint : Z; Patch : list Z }.
Record Contraction := { Path : list Z; Weights : list Z; Contextual : bool }.
End uca.

(** The fields of [charset.UnicodeMapping] that the generator prints. *)
Module charset.
Record UnicodeMapping := { From : Z; To : Z; Range : list Z }.
End charset.

(** [type tailoringWeights map[string][]uint16]; keys are written ["U+0041"]. *)
Abbreviation tailoringWeights := (gmap string (list Z)).

Record metaFlags := { Binary : bool; ASCII : bool; Default : bool }.

Record collationMetadata := {
  Name : string;
  Charset : string;
  Flags : metaFlags;
  CollationImpl : string;
  Number : Z;
  CType : option (list Z);
  ToLower : option (list Z);
  ToUpper : option (list Z);
  SortOrder : option (list Z);
  TabToUni : option (list Z);
  TabFromUni : option (list charset.UnicodeMapping);
  UCAVersion : Z;
  Weights : tailoringWeights;
  Contractions : list uca.Contraction;
  Reorder : list (Z * Z * Z * Z);
  UpperCaseFirst : bool
}.

(** ** [diffMaps] *)

(** The inner loop [for i, arr := range val], entered only when both vectors
    have the same length. *)
Fixpoint differsAt (orgVal val : list Z) : bool :=
  match val, orgVal with
  | arr :: val', o :: orgVal' =>
      if negb (o =? arr) then true else differsAt orgVal' val'
  | _, _ => false
  end.

(** The test that puts [key] into [diffMap]. *)
Definition differs (orgWeights : tailoringWeights) (key : string) (val : list Z) : bool :=
  match orgWeights !! key with
  | None => true
  | Some orgVal =>
      if negb (length orgVal =? length val)%nat then true
      else differsAt orgVal val
  end.

(** The codepoint that [strconv.ParseInt(key[2:], 16, 32)] reads from [key],
    if there is one: there is none when the key is shorter than two bytes and
    none when [ParseInt] returns an error. *)
Definition parseKey (key : string) : option Z :=
  match sliceFrom 2 key with
  | Some digits => ParseInt16_32 digits
  | None => None
  end.

Definition byCodepoint (a b : uca.WeightPatch) : Prop :=
  uca.Codepoint a ≤ uca.Codepoint b.

#[global] Instance byCodepoint_dec a b : Decision (byCodepoint a b).
Proof. unfold byCodepoint. apply _. Defined.

(** The body of the loop [for key, val := range diffMap].  The slice
    expression [key[2:]] is evaluated first and panics by itself on a key
    shorter than two bytes; [panic(err)] is reached only with a key that has
    the two bytes. *)
Definition toPatch (kv : string * list Z) : result uca.WeightPatch :=
  match sliceFrom 2 kv.1 with
  | None => Panic SliceBoundsOutOfRange
  | Some digits =>
      match ParseInt16_32 digits with
      | Some cp => Ok {| uca.Codepoint := cp; uca.Patch := kv.2 |}
      | None => Panic ParseIntError
      end
  end.

(** The first loop fills [diffMap] with the entries of [modWeights] that pass
    [differs]; the second turns each of them into a patch, in the map's
    iteration order; [sort.Slice] then orders the patches by codepoint. *)
Definition diffMaps (orgWeights modWeights : tailoringWeights)
  : result (list uca.WeightPatch) :=
  if (size modWeights =? 0)%nat then Ok []
  else
    let diffMap : tailoringWeights :=
      filter (λ kv, differs orgWeights kv.1 kv.2 = true) modWeights in
    do diff <- rmapM toPatch (map_to_list diffMap);
    Ok (merge_sort byCodepoint diff).

(** ** What the generator writes

    The generator prints Go source text into two buffers: [tables], the
    declarations of the static tables, and [init], one [register(...)] call
    per collation.  The embedding keeps the structure of what is printed: a
    table declaration is a variable name with its contents, a registration is
    the name of the implementing struct with its field initialisers in the
    order they are printed. *)

Inductive tableValue :=
| PatchTable (l : list uca.WeightPatch)
| ContractionTable (l : list uca.Contraction)
| ReorderTable (l : list (Z * Z * Z * Z))
| NilBytes                     (* the nil [[]byte], [[]byte(nil)] under [%#v] *)
| ByteTable (l : list Z)
| Uint16Table (l : list Z)
| MappingTable (l : list charset.UnicodeMapping).

Record tableDecl := { varName : string; contents : tableValue }.

Inductive goValue :=
| GoString (s : string)                  (* printed with %q *)
| GoInt (n : Z)                          (* printed with %d or as a literal *)
| GoBool (b : bool)
| GoIdent (s : string)                   (* printed with %s *)
| GoIdentD (prefix : string) (n : Z)     (* prefix followed by %d *)
| GoStruct (ty : string) (fields : list (string * goValue)).

Record registration := {
  impl : string;
  fields : list (string * goValue);
  isDefault : bool
}.

(** The first initialiser printed for field [k]. *)
Fixpoint field (k : string) (fs : list (string * goValue)) : option goValue :=
  match fs with
  | [] => None
  | (k', v) :: fs' => if String.eqb k' k then Some v else field k fs'
  end.

(** The two buffers and the deduplication map that every [write*] method
    receives. *)
Record genState := {
  tables : list tableDecl;
  init : list registration;
  seenTables : gmap string string
}.

Definition printTable (d : tableDecl) (st : genState) : genState :=
  {| tables := tables st ++ [d]; init := init st; seenTables := seenTables st |}.

Definition printRegister (r : registration) (st : genState) : genState :=
  {| tables := tables st; init := init st ++ [r]; seenTables := seenTables st |}.

Definition setSeen (seen : gmap string string) (st : genState) : genState :=
  {| tables := tables st; init := init st; seenTables := seen |}.

(** What the generator takes from outside this file: the [%#v] formatting of
    package [fmt], the two predicates of package [charset], and the command
    line flags. *)
Record environment := {
  gosyntax : tableValue → string;
  IsMultibyteByName : string → bool;
  IsUnicodeByName : string → bool;
  Print8BitData : bool;
  CleanupGlobalAllocations : bool
}.

(** The package variables [baseWeightsUca400], [baseWeightsUca520] and
    [baseWeightsUca900], set once by [main]. *)
Record baseWeights := {
  baseWeightsUca400 : tailoringWeights;
  baseWeightsUca520 : tailoringWeights;
  baseWeightsUca900 : tailoringWeights
}.

(** ** [dedupTable] *)

Definition dedupTable (env : environment) (name coll : string) (val : tableValue)
    (dedup : gmap string string) : string * bool * gmap string string :=
  let raw := gosyntax env val in
  match dedup !! raw with
  | Some existing => (existing, true, dedup)
  | None =>
      let varname := name +:+ "_" +:+ coll in
      (varname, false, <[raw := varname]> dedup)
  end.

(** A field initialiser that is printed only [if table != ""]. *)
Definition optionalField (k table : string) : list (string * goValue) :=
  if String.eqb table "" then [] else [(k, GoIdent table)].

(** ** [writeWeightPatches], [writeContractions], [writeReorders] *)

Definition writeWeightPatches (env : environment) (bw : baseWeights)
    (meta : collationMetadata) (st : genState) : result (string * genState) :=
  do base <-
    (if UCAVersion meta =? 400 then Ok (baseWeightsUca400 bw)
     else if UCAVersion meta =? 520 then Ok (baseWeightsUca520 bw)
     else if UCAVersion meta =? 900 then Ok (baseWeightsUca900 bw)
     else Panic InvalidUCAVersion);
  do diff <- diffMaps base (Weights meta);
  if (0 <? length diff)%nat then
    let '(tableWeightPatches, dedup, seen) :=
      dedupTable env "weightTailoring" (Name meta) (PatchTable diff) (seenTables st) in
    let st := setSeen seen st in
    if dedup then Ok (tableWeightPatches, st)
    else Ok (tableWeightPatches,
             printTable {| varName := tableWeightPatches; contents := PatchTable diff |} st)
  else Ok ("", st).

(** The loop [for i := 0; i < len(ctr.Weights)-3; i += 3] that cuts the
    weights of a contraction at the first all-zero triple that is not the last
    one. *)
Fixpoint trimWeights (w : list Z) : list Z :=
  match w with
  | a :: b :: c :: ((_ :: _) as rest) =>
      if (a =? 0) && (b =? 0) && (c =? 0) then []
      else a :: b :: c :: trimWeights rest
  | _ => w
  end.

Definition trimContraction (ctr : uca.Contraction) : uca.Contraction :=
  {| uca.Path := uca.Path ctr;
     uca.Weights := trimWeights (uca.Weights ctr);
     uca.Contextual := uca.Contextual ctr |}.

Definition writeContractions (env : environment) (meta : collationMetadata)
    (st : genState) : string * genState :=
  if (0 <? length (Contractions meta))%nat then
    let '(tableContractions, dedup, seen) :=
      dedupTable env "contractions" (Name meta)
        (ContractionTable (Contractions meta)) (seenTables st) in
    let st := setSeen seen st in
    if dedup then (tableContractions, st)
    else (tableContractions,
          printTable {| varName := tableContractions;
                        contents := ContractionTable
                                      (map trimContraction (Contractions meta)) |} st)
  else ("", st).

Definition writeReorders (env : environment) (meta : collationMetadata)
    (st : genState) : string * genState :=
  if (0 <? length (Reorder meta))%nat then
    let '(tableReorder, dedup, seen) :=
      dedupTable env "reorder" (Name meta) (ReorderTable (Reorder meta)) (seenTables st) in
    let st := setSeen seen st in
    if dedup then (tableReorder, st)
    else (tableReorder,
          printTable {| varName := tableReorder;
                        contents := ReorderTable (Reorder meta) |} st)
  else ("", st).

(** ** [writeUcaLegacy] *)

Definition writeUcaLegacy (env : environment) (bw : baseWeights)
    (meta : collationMetadata) (st : genState) : result genState :=
  do '(tableWeightPatches, st) <- writeWeightPatches env bw meta st;
  let '(tableContractions, st) := writeContractions env meta st in
  do maxCodepoint <-
    (if UCAVersion meta =? 400 then Ok 0xFFFF
     else if UCAVersion meta =? 520 then Ok 0x10FFFF
     else Panic InvalidUCAVersion);
  Ok (printRegister
        {| impl := "Collation_uca_legacy";
           fields :=
             [("name", GoString (Name meta));
              ("id", GoInt (Number meta));
              ("charset", GoStruct ("charset.Charset_" +:+ Charset meta) []);
              ("weights", GoIdentD "uca.WeightTable_uca" (UCAVersion meta))]
             ++ optionalField "tailoring" tableWeightPatches
             ++ optionalField "contractions" tableContractions
             ++ [("maxCodepoint", GoInt maxCodepoint)];
           isDefault := Default (Flags meta) |} st).

(** ** [writeUca900] *)

(** The [switch] on [meta.Name] at the head of [writeUca900]: the table of
    weights to name in the registration, and the metadata after the
    assignments [meta.Weights = nil] and [meta.Reorder = nil]. *)
Definition selectUca900Table (meta : collationMetadata) : string * collationMetadata :=
  let withoutWeights (m : collationMetadata) : collationMetadata :=
    {| Name := Name m; Charset := Charset m; Flags := Flags m;
       CollationImpl := CollationImpl m; Number := Number m; CType := CType m;
       ToLower := ToLower m; ToUpper := ToUpper m; SortOrder := SortOrder m;
       TabToUni := TabToUni m; TabFromUni := TabFromUni m;
       UCAVersion := UCAVersion m; Weights := ∅;
       Contractions := Contractions m; Reorder := Reorder m;
       UpperCaseFirst := UpperCaseFirst m |} in
  let withoutReorder (m : collationMetadata) : collationMetadata :=
    {| Name := Name m; Charset := Charset m; Flags := Flags m;
       CollationImpl := CollationImpl m; Number := Number m; CType := CType m;
       ToLower := ToLower m; ToUpper := ToUpper m; SortOrder := SortOrder m;
       TabToUni := TabToUni m; TabFromUni := TabFromUni m;
       UCAVersion := UCAVersion m; Weights := Weights m;
       Contractions := Contractions m; Reorder := [];
       UpperCaseFirst := UpperCaseFirst m |} in
  if String.eqb (Name meta) "utf8mb4_zh_0900_as_cs" then
    ("uca.WeightTable_uca900_zh", withoutReorder (withoutWeights meta))
  else if String.eqb (Name meta) "utf8mb4_ja_0900_as_cs"
          || String.eqb (Name meta) "utf8mb4_ja_0900_as_cs_ks" then
    ("uca.WeightTable_uca900_ja", withoutWeights meta)
  else ("uca.WeightTable_uca900", meta).

(** The [switch] that sets [levels] from the suffix of the name. *)
Definition levelsForCompare (name : string) : result Z :=
  if HasSuffix name "_ai_ci" then Ok 1
  else if HasSuffix name "_as_ci" then Ok 2
  else if HasSuffix name "_as_cs" then Ok 3
  else if HasSuffix name "_as_cs_ks" then Ok 4
  else Panic (UnknownLevelsForCompare name).

Definition writeUca900 (env : environment) (bw : baseWeights)
    (meta : collationMetadata) (st : genState) : result genState :=
  if negb (UCAVersion meta =? 900) then Panic UnexpectedUCAVersion
  else
    let '(tableWeights, meta) := selectUca900Table meta in
    do '(tableWeightPatches, st) <- writeWeightPatches env bw meta st;
    let '(tableContractions, st) := writeContractions env meta st in
    let '(tableReorder, st) := writeReorders env meta st in
    do levels <- levelsForCompare (Name meta);
    Ok (printRegister
          {| impl := "Collation_utf8mb4_uca_0900";
             fields :=
               [("name", GoString (Name meta));
                ("id", GoInt (Number meta));
                ("levelsForCompare", GoInt levels);
                ("weights", GoIdent tableWeights)]
               ++ optionalField "tailoring" tableWeightPatches
               ++ optionalField "contractions" tableContractions
               ++ optionalField "reorder" tableReorder
               ++ (if UpperCaseFirst meta then [("upperCaseFirst", GoBool true)] else []);
             isDefault := Default (Flags meta) |} st).

(** ** The printers of plain tables *)

(** What the three printers share: [val] is handed to [dedupTable], and
    [printed] is declared under the name obtained unless [val] was seen. *)
Definition printDeduplicated (env : environment) (name coll : string)
    (val printed : tableValue) (st : genState) : string * genState :=
  let '(tableName, dedup, seen) := dedupTable env name coll val (seenTables st) in
  let st := setSeen seen st in
  if dedup then (tableName, st)
  else (tableName, printTable {| varName := tableName; contents := printed |} st).

(** The [[]byte] handed to [dedupTable]: [%#v] tells the nil slice from the
    empty one. *)
Definition byteSlice (a : option (list Z)) : tableValue :=
  match a with
  | Some l => ByteTable l
  | None => NilBytes
  end.

(** [a] may be nil: [write8bit] passes [meta.CType], [meta.ToLower] and
    [meta.ToUpper] as they were decoded.  The loop [for idx, val := range a]
    prints no row for a nil slice, so that the declaration is the one of the
    empty table. *)
Definition printByteSlice (env : environment) (name coll : string)
    (a : option (list Z)) (st : genState) : string * genState :=
  printDeduplicated env name coll (byteSlice a) (ByteTable (default [] a)) st.

Definition printUnsignedSlice (env : environment) (name coll : string) (a : list Z)
    (st : genState) : string * genState :=
  printDeduplicated env name coll (Uint16Table a) (Uint16Table a) st.

Definition printUnicodeMappings (env : environment) (name coll : string)
    (mappings : list charset.UnicodeMapping) (st : genState) : string * genState :=
  printDeduplicated env name coll (MappingTable mappings) (MappingTable mappings) st.

(** ** [write8bit], [writeUnicode], [writeMultibyte] *)

Definition write8bit (env : environment) (meta : collationMetadata)
    (st : genState) : genState :=
  let '(tableCtype, tableToLower, tableToUpper, st) :=
    if Print8BitData env then
      let '(c, st) := printByteSlice env "ctype" (Name meta) (CType meta) st in
      let '(l, st) := printByteSlice env "tolower" (Name meta) (ToLower meta) st in
      let '(u, st) := printByteSlice env "toupper" (Name meta) (ToUpper meta) st in
      (c, l, u, st)
    else ("", "", "", st) in
  let '(tableSortOrder, st) :=
    match SortOrder meta with
    | Some so => printByteSlice env "sortorder" (Name meta) (Some so) st
    | None => ("", st)
    end in
  let '(tableToUnicode, tableFromUnicode, st) :=
    if negb (String.eqb (Charset meta) "latin1") then
      let '(t, st) :=
        match TabToUni meta with
        | Some tab => printUnsignedSlice env "tounicode" (Name meta) tab st
        | None => ("", st)
        end in
      let '(f, st) :=
        match TabFromUni meta with
        | Some tab => printUnicodeMappings env "fromunicode" (Name meta) tab st
        | None => ("", st)
        end in
      (t, f, st)
    else ("", "", st) in
  let collation :=
    if Binary (Flags meta) then "Collation_8bit_bin" else "Collation_8bit_simple_ci" in
  let simpletables : list (string * goValue) :=
    ((if Print8BitData env then
        [("ctype", GoIdent tableCtype);
         ("tolower", GoIdent tableToLower);
         ("toupper", GoIdent tableToUpper)]
      else [])
     ++ optionalField "sort" tableSortOrder)%list in
  let charsetField :=
    if String.eqb (Charset meta) "latin1" then GoStruct "charset.Charset_latin1" []
    else GoStruct "&charset.Charset_8bit"
           ([("Name_", GoString (Charset meta))]
            ++ optionalField "ToUnicode" tableToUnicode
            ++ optionalField "FromUnicode" tableFromUnicode)%list in
  printRegister
    {| impl := collation;
       fields :=
         [("id", GoInt (Number meta));
          ("name", GoString (Name meta));
          ("simpletables", GoStruct "simpletables" simpletables);
          ("charset", charsetField)];
       isDefault := Default (Flags meta) |} st.

Definition writeUnicode (meta : collationMetadata) (st : genState) : genState :=
  let collation :=
    if Binary (Flags meta) then "Collation_unicode_bin"
    else "Collation_unicode_general_ci" in
  printRegister
    {| impl := collation;
       fields :=
         [("id", GoInt (Number meta));
          ("name", GoString (Name meta))]
         ++ (if negb (Binary (Flags meta))
             then [("unicase", GoIdent "unicaseInfo_default")] else [])
         ++ [("charset", GoStruct ("charset.Charset_" +:+ Charset meta) [])];
       isDefault := Default (Flags meta) |} st.

Definition writeMultibyte (env : environment) (meta : collationMetadata)
    (st : genState) : genState :=
  let '(tableSortOrder, st) :=
    match SortOrder meta with
    | Some so => printByteSlice env "sortorder" (Name meta) (Some so) st
    | None => ("", st)
    end in
  printRegister
    {| impl := "Collation_multibyte";
       fields :=
         [("id", GoInt (Number meta));
          ("name", GoString (Name meta))]
         ++ optionalField "sort" tableSortOrder
         ++ [("charset", GoStruct ("charset.Charset_" +:+ Charset meta) [])];
       isDefault := Default (Flags meta) |} st.

(** ** [findCollation] and [main] *)

Definition findCollation (all : list collationMetadata) (name : string)
  : option collationMetadata :=
  List.find (λ meta, String.eqb (Name meta) name) all.

(** What [main] accumulates over the metadata: the buffers, the slice
    [unsupported] and the map [unsupportedByCharset]. *)
Record mainState := {
  gen : genState;
  unsupported : list collationMetadata;
  unsupportedByCharset : gmap string (list string)
}.

Definition withGen (ms : mainState) (st : genState) : mainState :=
  {| gen := st; unsupported := unsupported ms;
     unsupportedByCharset := unsupportedByCharset ms |}.

(** The body of the loop [for _, meta := range allMetadata]: the first case
    of the [switch] that holds is taken, and there is no fall through. *)
Definition routeCollation (env : environment) (bw : baseWeights)
    (meta : collationMetadata) (ms : mainState) : result mainState :=
  let name := Name meta in
  let impl := CollationImpl meta in
  if String.eqb name "utf8mb4_0900_bin" || String.eqb name "binary" then
    (* hardcoded collations; nothing to export here *)
    Ok ms
  else if String.eqb name "tis620_bin" then
    (* explicitly unsupported for now because of not accurate results *)
    Ok ms
  else if String.eqb impl "any_uca" || String.eqb impl "utf16_uca"
          || String.eqb impl "utf32_uca" || String.eqb impl "ucs2_uca" then
    do st <- writeUcaLegacy env bw meta (gen ms); Ok (withGen ms st)
  else if String.eqb impl "uca_900" then
    do st <- writeUca900 env bw meta (gen ms); Ok (withGen ms st)
  else if String.eqb impl "8bit_bin" || String.eqb impl "8bit_simple_ci" then
    Ok (withGen ms (write8bit env meta (gen ms)))
  else if String.eqb name "gb18030_unicode_520_ci" then
    do st <- writeUcaLegacy env bw meta (gen ms); Ok (withGen ms st)
  else if IsMultibyteByName env (Charset meta) then
    Ok (withGen ms (writeMultibyte env meta (gen ms)))
  else if HasSuffix name "_bin" && IsUnicodeByName env (Charset meta) then
    Ok (withGen ms (writeUnicode meta (gen ms)))
  else if HasSuffix name "_general_ci" then
    Ok (withGen ms (writeUnicode meta (gen ms)))
  else
    Ok {| gen := gen ms;
          unsupported := unsupported ms ++ [meta];
          unsupportedByCharset :=
            <[Charset meta :=
                (default [] (unsupportedByCharset ms !! Charset meta)
                 ++ [Name meta])%list]>
              (unsupportedByCharset ms) |}.

Fixpoint routeAll (env : environment) (bw : baseWeights)
    (all : list collationMetadata) (ms : mainState) : result mainState :=
  match all with
  | [] => Ok ms
  | meta :: rest => do ms <- routeCollation env bw meta ms; routeAll env bw rest ms
  end.

(** The generated file: the tables, the entries of the map literal
    [collationsUnsupportedByName], the body of [func init()] and, with
    [-cleanup-allocs], the tables set to nil at its end. *)
Record generatedFile := {
  fileTables : list tableDecl;
  collationsUnsupportedByName : list (string * Z);
  fileInit : list registration;
  fileCleanup : list string
}.

(** The order of [sort.Strings]: bytewise comparison. *)
Definition stringLe (a b : string) : Prop := String.leb a b = true.

#[global] Instance stringLe_dec a b : Decision (stringLe a b).
Proof. unfold stringLe. apply _. Defined.

Definition weightsOf (all : list collationMetadata) (name : string)
  : result tailoringWeights :=
  match findCollation all name with
  | Some meta => Ok (Weights meta)
  | None => Panic NilDereference
  end.

(** [main], from the metadata that [loadMysqlMetadata] returns to the text
    handed to [format.Source]. *)
Definition main (env : environment) (allMetadata : list collationMetadata)
  : result generatedFile :=
  do w400 <- weightsOf allMetadata "utf8mb4_unicode_ci";
  do w520 <- weightsOf allMetadata "utf8mb4_unicode_520_ci";
  do w900 <- weightsOf allMetadata "utf8mb4_0900_ai_ci";
  let bw := {| baseWeightsUca400 := w400; baseWeightsUca520 := w520;
               baseWeightsUca900 := w900 |} in
  do ms <- routeAll env bw allMetadata
             {| gen := {| tables := []; init := []; seenTables := ∅ |};
                unsupported := []; unsupportedByCharset := ∅ |};
  Ok {| fileTables := tables (gen ms);
        collationsUnsupportedByName :=
          map (λ meta, (Name meta, Number meta)) (unsupported ms);
        fileInit := init (gen ms);
        fileCleanup :=
          if CleanupGlobalAllocations env
          then merge_sort stringLe (map snd (map_to_list (seenTables (gen ms))))
          else [] |}.

(** ** The vocabulary of the statements about the generator *)

(** A tailored vector that differs from the base: the key
    is absent from the base map, or its base vector has another length, or the
    two vectors differ at some index. *)
Definition tailoredAway (orgWeights : tailoringWeights) (key : string)
    (val : list Z) : Prop :=
  orgWeights !! key = None
  ∨ ∃ orgVal, orgWeights !! key = Some orgVal
      ∧ (length orgVal ≠ length val
         ∨ ∃ (i : nat) o v, orgVal !! i = Some o ∧ val !! i = Some v ∧ o ≠ v).

(** *** The codepoint that a key names

    The keys of a tailoring are written as in ["U+0041"] or ["U+1F600"]: two
    bytes that are not looked at, then a number in hexadecimal notation.
    [codepointOf] reads the notation by its meaning, with the value of a
    digit being its place among the sixteen digits and its weight that of
    its position, the most significant digit first; it is what [parseKey],
    the reading of the code, is compared with. *)

Fixpoint placeOf (c : ascii) (digits : list ascii) : option Z :=
  match digits with
  | [] => None
  | d :: digits' =>
      if Ascii.eqb c d then Some 0
      else match placeOf c digits' with
           | Some i => Some (i + 1)
           | None => None
           end
  end.

Definition digitValue (c : ascii) : option Z :=
  match placeOf c (bytesOf "0123456789abcdef") with
  | Some d => Some d
  | None => placeOf c (bytesOf "0123456789ABCDEF")
  end.

(** The digit [d] in front of [n] further digits counts [d * 16 ^ n]. *)
Fixpoint numeralValue (ds : list ascii) : option Z :=
  match ds with
  | [] => Some 0
  | c :: ds' =>
      match digitValue c, numeralValue ds' with
      | Some d, Some v => Some (d * 16 ^ Z.of_nat (length ds') + v)
      | _, _ => None
      end
  end.

(** A number that a [rune] holds: an optional sign, at least one digit, and a
    value within the range of [int32]. *)
Definition signedValue (s : list ascii) : option Z :=
  let '(negative, ds) :=
    match s with
    | "-"%char :: ds => (true, ds)
    | "+"%char :: ds => (false, ds)
    | _ => (false, s)
    end in
  match ds, numeralValue ds with
  | _ :: _, Some v =>
      let n := if negative : bool then - v else v in
      if (- 2 ^ 31 <=? n) && (n <? 2 ^ 31) then Some n else None
  | _, _ => None
  end.

Definition codepointOf (key : string) : option Z :=
  match bytesOf key with
  | _ :: _ :: s => signedValue s
  | _ => None
  end.

Definition legacyRegistration (meta : collationMetadata) (r : registration) : Prop :=
  impl r = "Collation_uca_legacy"
  ∧ field "name" (fields r) = Some (GoString (Name meta))
  ∧ field "weights" (fields r)
      = Some (GoIdentD "uca.WeightTable_uca" (UCAVersion meta))
  ∧ ((UCAVersion meta = 400 ∧ field "maxCodepoint" (fields r) = Some (GoInt 0xFFFF))
     ∨ (UCAVersion meta = 520
        ∧ field "maxCodepoint" (fields r) = Some (GoInt 0x10FFFF))).

Definition uca900Registration (meta : collationMetadata) (r : registration) : Prop :=
  impl r = "Collation_utf8mb4_uca_0900"
  ∧ field "name" (fields r) = Some (GoString (Name meta))
  ∧ ∃ levels, field "levelsForCompare" (fields r) = Some (GoInt levels)
      ∧ levelsForCompare (Name meta) = Ok levels.

(** What a registration printed for [meta] looks like, whichever writer
    printed it. *)
Definition registers (meta : collationMetadata) (r : registration) : Prop :=
  field "name" (fields r) = Some (GoString (Name meta))
  ∧ (impl r = "Collation_uca_legacy" → legacyRegistration meta r)
  ∧ (impl r = "Collation_utf8mb4_uca_0900" → uca900Registration meta r).

(** The collations that reach the [default] case of the [switch]. *)
Definition reachesDefault (env : environment) (meta : collationMetadata) : bool :=
  let name := Name meta in
  let impl := CollationImpl meta in
  negb (String.eqb name "utf8mb4_0900_bin" || String.eqb name "binary")
  && negb (String.eqb name "tis620_bin")
  && negb (String.eqb impl "any_uca" || String.eqb impl "utf16_uca"
           || String.eqb impl "utf32_uca" || String.eqb impl "ucs2_uca")
  && negb (String.eqb impl "uca_900")
  && negb (String.eqb impl "8bit_bin" || String.eqb impl "8bit_simple_ci")
  && negb (String.eqb name "gb18030_unicode_520_ci")
  && negb (IsMultibyteByName env (Charset meta))
  && negb (HasSuffix name "_bin" && IsUnicodeByName env (Charset meta))
  && negb (HasSuffix name "_general_ci").

(** What [levelsMatchSuffix] says of a name and a level count: the count is
    between 1 and 4 and is the one of the suffix of the name. *)
Definition levelsMatchSuffix (name : string) (levels : Z) : Prop :=
  1 ≤ levels ≤ 4
  ∧ (levels = 1 ↔ HasSuffix name "_ai_ci" = true)
  ∧ (levels = 2 ↔ HasSuffix name "_as_ci" = true)
  ∧ (levels = 3 ↔ HasSuffix name "_as_cs" = true)
  ∧ (levels = 4 ↔ HasSuffix name "_as_cs_ks" = true).

Definition noLevelSuffix (name : string) : Prop :=
  HasSuffix name "_ai_ci" = false ∧ HasSuffix name "_as_ci" = false
  ∧ HasSuffix name "_as_cs" = false ∧ HasSuffix name "_as_cs_ks" = false.

(** ** A small dump, to run the generator on *)

Definition sampleEnv : environment :=
  {| gosyntax := λ val,
       match val with
       | PatchTable _ => "[]uca.WeightPatch{...}"
       | ContractionTable _ => "[]uca.Contraction{...}"
       | ReorderTable _ => "[][4]uint16{...}"
       | NilBytes => "[]byte(nil)"
       | ByteTable _ => "[]byte{...}"
       | Uint16Table _ => "[]uint16{...}"
       | MappingTable _ => "[]charset.UnicodeMapping{...}"
       end;
     IsMultibyteByName := λ cs, bool_decide (cs ∈ ["euckr"; "gb2312"; "sjis"; "ujis"]);
     IsUnicodeByName := λ cs, bool_decide (cs ∈ ["utf8"; "utf8mb4"; "utf16"; "ucs2"; "utf32"]);
     Print8BitData := false;
     CleanupGlobalAllocations := false |}.

Definition sampleMeta (name cs impl : string) (number version : Z) (binary : bool)
  : collationMetadata :=
  {| Name := name; Charset := cs;
     Flags := {| Binary := binary; ASCII := false; Default := false |};
     CollationImpl := impl; Number := number;
     CType := None; ToLower := None; ToUpper := None; SortOrder := None;
     TabToUni := None; TabFromUni := None;
     UCAVersion := version; Weights := ∅; Contractions := []; Reorder := [];
     UpperCaseFirst := false |}.

Definition sampleDump : list collationMetadata :=
  [ sampleMeta "cp1250_czech_cs" "cp1250" "win1250ch" 34 0 false;
    sampleMeta "tis620_bin" "tis620" "8bit_bin" 89 0 true;
    sampleMeta "utf8mb4_unicode_ci" "utf8mb4" "any_uca" 224 400 false;
    sampleMeta "utf8mb4_unicode_520_ci" "utf8mb4" "any_uca" 246 520 false;
    sampleMeta "utf8mb4_0900_ai_ci" "utf8mb4" "uca_900" 255 900 false ].

Definition sampleBase : baseWeights :=
  {| baseWeightsUca400 := ∅; baseWeightsUca520 := ∅;
     baseWeightsUca900 := list_to_map [("U+0041", [0x1C47; 0x20; 0x2])] |}.

Definition emptyState : genState :=
  {| tables := []; init := []; seenTables := ∅ |}.

(** The Chinese collation with the weights and the reorder range of a dump. *)
Definition sampleZh : collationMetadata :=
  {| Name := "utf8mb4_zh_0900_as_cs"; Charset := "utf8mb4";
     Flags := {| Binary := false; ASCII := false; Default := false |};
     CollationImpl := "uca_900"; Number := 308;
     CType := None; ToLower := None; ToUpper := None; SortOrder := None;
     TabToUni := None; TabFromUni := None;
     UCAVersion := 900;
     Weights := list_to_map [("U+4E00", [0x1C48; 0x20; 0x2])];
     Contractions := [];
     Reorder := [(0x1C47, 0x54A3, 0xBDC4, 0xF620)];
     UpperCaseFirst := false |}.

Definition sampleOrg : tailoringWeights :=
  list_to_map [("U+0041", [1; 2]); ("U+0042", [3]); ("U+0044", [9])].

Definition sampleMod : tailoringWeights :=
  list_to_map [("U+0041", [1; 5]); ("U+0042", [3]); ("U+0043", [7]); ("U+0044", [9; 9])].

(** A tailoring whose keys have letters among their digits, in either case. *)
Definition sampleLetters : tailoringWeights :=
  list_to_map [("U+0041", [1; 2]); ("U+00E9", [0x1C47; 0x20]); ("U+00c5", [0x1C48]);
               ("U+1F600", [0xFBC3; 0xF600]); ("U+abCD", [0xFB41])].

(** * The weight engine

    The generator feeds the run-time packages [collations],
    [collations/internal/uca] and [collations/internal/charset], and the
    golden test calls them.  Their behaviour is written down here from the
    specification of the engine, section by section. *)

Module Engine.

(** Modelled from the spec: the error taxonomy of section 7; the engine code
    that raises these errors is missing. *)
Inductive error :=
| UnknownCollation
| InvalidEncoding
| UnsupportedCollation (id : Z).

(** Modelled from the spec: a result or one of the typed errors of section 7,
    "returned to the caller"; the engine's own result types are missing. *)
Inductive outcome (A : Type) : Type :=
| Done (a : A)
| Failed (e : error).
Arguments Done {A} a.
Arguments Failed {A} e.

(** Modelled from the spec: the Charset of section 3 with the codec contract
    of section 4.1 ([Decode] fails with [InvalidEncoding], here [None], on a
    byte sequence that is not well formed); package [charset] is missing. *)
Record Charset := {
  csName : string;
  Decode : list Z → option (list Z);
  Encode : list Z → list Z;
  maxCodepoint : Z
}.

(** Modelled from the spec: the WeightTable of sections 3 and 4.2, a versioned
    map from codepoints to weight vectors (one weight per level) with the
    implicit-weight formula as its fallback; the tables of package [uca] are
    missing, and the formula, which the spec does not spell out, is a field. *)
Record WeightTable := {
  version : Z;
  explicitWeights : gmap Z (list Z);
  implicitWeights : Z → list Z
}.

(** Modelled from the spec: the Contraction of section 3, an ordered codepoint
    path, the resulting weight vector, and the contextual flag, present as
    the codepoint that must follow the path for the rule to apply. *)
Record Contraction := {
  path : list Z;
  weights : list Z;
  context : option Z
}.

(** Modelled from the spec: the Reorder tuple of section 3. *)
Record Reorder := { fromMin : Z; fromMax : Z; toMin : Z; toMax : Z }.

(** Modelled from the spec: the building blocks that a UCA collation combines
    (sections 2 and 4.5): the shared table, the tailoring patches, the
    contractions, the reorder ranges, the number of comparison levels and the
    PAD SPACE attribute. *)
Record UcaData := {
  table : WeightTable;
  patches : gmap Z (list Z);
  contractions : list Contraction;
  reorders : list Reorder;
  levels : nat;
  padSpace : bool
}.

(** Modelled from the spec: the closed set of tagged variants of section 9;
    the simplified families carry their sort table (section 4.6). *)
Inductive Variant :=
| EightBitSimple (sortTable : Z → Z)
| EightBitBinary
| UnicodeGeneral (sortTable : Z → Z)
| UnicodeBinary
| Multibyte (sortTable : Z → Z)
| UcaLegacy (u : UcaData)
| Uca900 (u : UcaData).

(** Modelled from the spec: the Collation of section 3. *)
Record Collation := {
  collId : Z;
  collName : string;
  collCharset : Charset;
  isDefaultForCharset : bool;
  variant : Variant
}.

(** Modelled from the spec: section 4.2, "a patch, if present for the
    collation, is consulted first; on miss, falls back to the shared table; on
    miss there, an implicit weight is computed". *)
Definition lookupVector (u : UcaData) (cp : Z) : list Z :=
  match patches u !! cp with
  | Some v => v
  | None =>
      match explicitWeights (table u) !! cp with
      | Some v => v
      | None => implicitWeights (table u) cp
      end
  end.

(** Modelled from the spec: [Lookup(codepoint, level) -> weight]. *)
Definition Lookup (u : UcaData) (cp : Z) (level : nat) : Z :=
  nth level (lookupVector u cp) 0.

(** Modelled from the spec: section 4.3, a contraction applies at a scan
    position when its path is read there and, for a contextual one, the
    lookahead codepoint after the path is the one its context asks for. *)
Definition applies (ctr : Contraction) (cps : list Z) : bool :=
  negb (bool_decide (path ctr = []))
  && bool_decide (take (length (path ctr)) cps = path ctr)
  && match context ctr with
     | None => true
     | Some c => bool_decide (drop (length (path ctr)) cps !! 0%nat = Some c)
     end.

(** Modelled from the spec: section 4.3, "attempts to match the longest
    registered contraction path starting there; among candidates, longer
    paths always win": a candidate replaces the best one seen so far only
    when its path is longer. *)
Definition longer (best : option Contraction) (ctr : Contraction) : bool :=
  match best with
  | None => true
  | Some b => (length (path b) <? length (path ctr))%nat
  end.

(** Modelled from the spec: the pass of section 4.3 over the registered
    contractions, from the best candidate found so far; the matcher of
    package [uca] is missing. *)
Fixpoint matchFrom (best : option Contraction) (ctrs : list Contraction)
    (cps : list Z) : option Contraction :=
  match ctrs with
  | [] => best
  | ctr :: ctrs' =>
      if applies ctr cps && longer best ctr
      then matchFrom (Some ctr) ctrs' cps
      else matchFrom best ctrs' cps
  end.

(** Modelled from the spec: the contraction matcher of section 4.3 at one
    scan position; the matcher of package [uca] is missing. *)
Definition matchContraction (ctrs : list Contraction) (cps : list Z)
  : option Contraction :=
  matchFrom None ctrs cps.

(** Modelled from the spec: section 4.5, "walks the decoded codepoint sequence
    left to right; at each position: attempt contraction match
    (longest-first); else resolve a single-codepoint weight vector".  [skip]
    counts the codepoints still covered by the contraction matched last. *)
Fixpoint scan (u : UcaData) (skip : nat) (cps : list Z) : list (list Z) :=
  match cps with
  | [] => []
  | cp :: rest =>
      match skip with
      | S k => scan u k rest
      | O =>
          match matchContraction (contractions u) cps with
          | Some ctr => weights ctr :: scan u (length (path ctr) - 1) rest
          | None => lookupVector u cp :: scan u 0 rest
          end
      end
  end.

(** Modelled from the spec: section 4.4, the primary weight is remapped if it
    falls inside a configured range; the spec gives the ranges and not the
    arithmetic, taken here as the shift that sends [fromMin] to [toMin]. *)
Fixpoint reorderPrimary (rs : list Reorder) (w : Z) : Z :=
  match rs with
  | [] => w
  | r :: rs' =>
      if (fromMin r <=? w) && (w <=? fromMax r) then toMin r + (w - fromMin r)
      else reorderPrimary rs' w
  end.

(** Modelled from the spec: section 4.5, "weights are accumulated level by
    level across the whole string", reorder being applied to the primary
    component. *)
Definition levelWeights (u : UcaData) (units : list (list Z)) (level : nat)
  : list Z :=
  map (λ v, let w := nth level v 0 in
            match level with
            | O => reorderPrimary (reorders u) w
            | _ => w
            end) units.

(** Modelled from the spec: section 4.5, all primary weights first, then all
    secondary, and so on for the number of levels the collation declares. *)
Definition allLevels (u : UcaData) (units : list (list Z)) : list Z :=
  concat (map (levelWeights u units) (seq 0 (levels u))).

(** Modelled from the spec: section 4.5, PAD SPACE, "two strings differing
    only by trailing spaces produce equal sort keys": the trailing space
    codepoints of the input (U+0020) are left out of the scan. *)
Fixpoint dropLeadingSpaces (cps : list Z) : list Z :=
  match cps with
  | cp :: rest => if cp =? 32 then dropLeadingSpaces rest else cps
  | [] => []
  end.

(** Modelled from the spec: the input of a PAD-SPACE collation without its
    trailing space codepoints (section 4.5). *)
Definition stripTrailingSpaces (cps : list Z) : list Z :=
  rev (dropLeadingSpaces (rev cps)).

(** Modelled from the spec: the UCA weight-string algorithm of section 4.5 on
    decoded codepoints; the iterator of package [uca] is missing. *)
Definition ucaWeights (u : UcaData) (cps : list Z) : list Z :=
  let cps := if padSpace u then stripTrailingSpaces cps else cps in
  allLevels u (scan u 0 cps).

(** Modelled from the spec: a PAD-SPACE collation of sections 4.5 and 8; the
    attribute belongs to the collations that run the weight-string
    algorithm. *)
Definition isPadSpace (c : Collation) : bool :=
  match variant c with
  | UcaLegacy u | Uca900 u => padSpace u
  | _ => false
  end.

(** Modelled from the spec: a 16-bit weight is written as two bytes, the high
    one first, so that comparing keys bytewise compares weights. *)
Definition weightBytes (w : Z) : list Z :=
  [Z.land (Z.shiftr w 8) 255; Z.land w 255].

(** Modelled from the spec: section 4.5, truncation, "the output is cut at that
    many weight bytes": a byte is appended to the output buffer only while
    the buffer is shorter than the maximum length. *)
Definition appendBounded (maxLen : option nat) (dst : list Z) (b : Z) : list Z :=
  match maxLen with
  | Some n => if (length dst <? n)%nat then dst ++ [b] else dst
  | None => dst ++ [b]
  end.

(** Modelled from the spec: the output buffer of a call, filled from empty
    with the bytes of the key (sections 4.5 and 5). *)
Definition emit (maxLen : option nat) (bs : list Z) : list Z :=
  fold_left (appendBounded maxLen) bs [].

(** Modelled from the spec: the bytes of the untruncated key of each variant
    (sections 4.5 and 4.6): binary variants work on the raw bytes, the
    8-bit simple variant maps each byte through its sort table, the
    unicode-general and multibyte variants map each decoded codepoint, the
    UCA variants run the weight-string algorithm. *)
Definition keyBytes (c : Collation) (src : list Z) : outcome (list Z) :=
  match variant c with
  | EightBitBinary | UnicodeBinary => Done src
  | EightBitSimple sortTable => Done (map sortTable src)
  | UnicodeGeneral sortTable | Multibyte sortTable =>
      match Decode (collCharset c) src with
      | Some cps => Done (concat (map (λ cp, weightBytes (sortTable cp)) cps))
      | None => Failed InvalidEncoding
      end
  | UcaLegacy u | Uca900 u =>
      match Decode (collCharset c) src with
      | Some cps => Done (concat (map weightBytes (ucaWeights u cps)))
      | None => Failed InvalidEncoding
      end
  end.

(** Modelled from the spec: [Collation.WeightString(src, maxLen) -> bytes] of
    section 6; decode failures are returned to the caller (section 7). *)
Definition WeightString (c : Collation) (src : list Z) (maxLen : option nat)
  : outcome (list Z) :=
  match keyBytes c src with
  | Done bs => Done (emit maxLen bs)
  | Failed e => Failed e
  end.

End Engine.

(** ** A small collation, to run the engine on *)

Module EngineSample.
Import Engine.

(** A seven-bit charset: every byte below 128 is its own codepoint. *)
Definition asciiCharset : Charset :=
  {| csName := "ascii";
     Decode := λ bs, if forallb (λ b, (0 <=? b) && (b <? 128)) bs
                     then Some bs else None;
     Encode := λ cps, cps;
     maxCodepoint := 127 |}.

Definition sampleTable : WeightTable :=
  {| version := 900;
     explicitWeights :=
       list_to_map [ (32, [0x0209; 0x20; 0x02]);
                     (97, [0x1C47; 0x20; 0x02]);
                     (98, [0x1C60; 0x20; 0x02]);
                     (99, [0x1C7A; 0x20; 0x02]);
                     (104, [0x1D18; 0x20; 0x02]) ];
     implicitWeights := λ cp, [0xFBC0 + Z.shiftr cp 15; 0x20; 0x02] |}.

(** The rules of a tailoring that sorts "ch" as a letter of its own, after
    "h", next to a rule for "c" alone. *)
Definition ruleC : Contraction :=
  {| path := [99]; weights := [0x1C7A; 0x20; 0x02]; context := None |}.

Definition ruleCH : Contraction :=
  {| path := [99; 104]; weights := [0x1D19; 0x20; 0x02]; context := None |}.

Definition sampleUca : UcaData :=
  {| table := sampleTable;
     patches := ∅;
     contractions := [ruleC; ruleCH];
     reorders := [];
     levels := 3;
     padSpace := true |}.

Definition sampleCollation : Collation :=
  {| collId := 255;
     collName := "sample_as_cs";
     collCharset := asciiCharset;
     isDefaultForCharset := true;
     variant := Uca900 sampleUca |}.

End EngineSample.

(** ** Further vocabulary for the generator *)


(** The entries of a tailoring that [diffMaps] keeps in [diffMap]. *)
Definition differing (orgWeights modWeights : tailoringWeights) : tailoringWeights :=
  filter (λ kv, differs orgWeights kv.1 kv.2 = true) modWeights.

(** The two panics that a key of a tailoring can raise in [diffMaps]. *)
Definition keyPanic (why : failure) : Prop :=
  why = SliceBoundsOutOfRange ∨ why = ParseIntError.

(** Two keys that name one codepoint; a key whose tail is no number; a key
    shorter than two bytes. *)
Definition aliasedMod : tailoringWeights :=
  list_to_map [("U+41", [1]); ("U+041", [2]); ("U+0042", [3])].

Definition brokenMod : tailoringWeights :=
  list_to_map [("U+0041", [1]); ("U+00G1", [2])].

Definition shortMod : tailoringWeights :=
  list_to_map [("U+0041", [1]); ("U", [2])].

(** The names of the tables declared so far. *)
Definition declaredNames (st : genState) : list string := varName <$> tables st.

(** The deduplication map names only declared tables, and none by the empty
    name (which the writers read as "no table"). *)
Definition seenDeclared (st : genState) : Prop :=
  ∀ raw name, seenTables st !! raw = Some name →
    name ≠ "" ∧ name ∈ declaredNames st.

(** The identifiers that a printed value mentions. *)
Fixpoint identsOf (v : goValue) : list string :=
  match v with
  | GoIdent s => [s]
  | GoStruct _ fs =>
      (fix inFields (fs : list (string * goValue)) : list string :=
         match fs with
         | [] => []
         | (_, v') :: fs' => identsOf v' ++ inFields fs'
         end) fs
  | _ => []
  end.

(** The tables of the generated file that a registration refers to: every
    identifier among its initialisers, but for the fields [weights] and
    [unicase], which name tables of the packages [uca] and [collations]. *)
Fixpoint tableRefsOf (fs : list (string * goValue)) : list string :=
  match fs with
  | [] => []
  | (k, v) :: fs' =>
      (if String.eqb k "weights" || String.eqb k "unicase" then []
       else identsOf v) ++ tableRefsOf fs'
  end.

Definition tableRefs (r : registration) : list string := tableRefsOf (fields r).

(** The case of the [switch] in [main] that a collation takes. *)
Inductive route :=
| RouteSkip | RouteLegacy | RouteUca900 | Route8bit
| RouteMultibyte | RouteUnicode | RouteDefault.

Definition routeOf (env : environment) (meta : collationMetadata) : route :=
  let name := Name meta in
  let impl := CollationImpl meta in
  if String.eqb name "utf8mb4_0900_bin" || String.eqb name "binary" then RouteSkip
  else if String.eqb name "tis620_bin" then RouteSkip
  else if String.eqb impl "any_uca" || String.eqb impl "utf16_uca"
          || String.eqb impl "utf32_uca" || String.eqb impl "ucs2_uca" then RouteLegacy
  else if String.eqb impl "uca_900" then RouteUca900
  else if String.eqb impl "8bit_bin" || String.eqb impl "8bit_simple_ci" then Route8bit
  else if String.eqb name "gb18030_unicode_520_ci" then RouteLegacy
  else if IsMultibyteByName env (Charset meta) then RouteMultibyte
  else if HasSuffix name "_bin" && IsUnicodeByName env (Charset meta) then RouteUnicode
  else if HasSuffix name "_general_ci" then RouteUnicode
  else RouteDefault.

(** The collations for which [main] prints a registration. *)
Definition isRegistered (env : environment) (meta : collationMetadata) : bool :=
  match routeOf env meta with
  | RouteSkip | RouteDefault => false
  | _ => true
  end.

Definition isUnsupported (env : environment) (meta : collationMetadata) : bool :=
  match routeOf env meta with
  | RouteDefault => true
  | _ => false
  end.

(** The name under which a registration is printed. *)
Definition nameOf (r : registration) : option goValue := field "name" (fields r).

Definition initialMainState : mainState :=
  {| gen := {| tables := []; init := []; seenTables := ∅ |};
     unsupported := []; unsupportedByCharset := ∅ |}.

(** A step of a writer that may declare tables: the registrations are left
    alone, the declared names are kept, and so is [seenDeclared]. *)
Definition extends (st st' : genState) : Prop :=
  init st' = init st
  ∧ (∀ x, x ∈ declaredNames st → x ∈ declaredNames st')
  ∧ (seenDeclared st → seenDeclared st').

(** What [main] keeps true of the two buffers: the deduplication map names
    declared tables, and so does every registration printed so far. *)
Definition wellReferenced (st : genState) : Prop :=
  seenDeclared st
  ∧ ∀ r, r ∈ init st → Forall (λ t, t ∈ declaredNames st) (tableRefs r).

Definition isSkipped (env : environment) (meta : collationMetadata) : bool :=
  match routeOf env meta with
  | RouteSkip => true
  | _ => false
  end.

(** The base table that [writeWeightPatches] picks for a UCA version. *)
Definition baseFor (bw : baseWeights) (version : Z) : option tailoringWeights :=
  if version =? 400 then Some (baseWeightsUca400 bw)
  else if version =? 520 then Some (baseWeightsUca520 bw)
  else if version =? 900 then Some (baseWeightsUca900 bw)
  else None.

(** The three collations whose weights [main] takes as base tables. *)
Definition baseCollations : list string :=
  ["utf8mb4_unicode_ci"; "utf8mb4_unicode_520_ci"; "utf8mb4_0900_ai_ci"].

(** The names of the unsupported collations of one charset, in the order of
    the dump. *)
Definition unsupportedOf (env : environment) (all : list collationMetadata)
    (cs : string) : list string :=
  Name <$> List.filter (λ m, isUnsupported env m && String.eqb (Charset m) cs) all.

(** The first halves of the names that the writers give to tables. *)
Definition tableKinds : list string :=
  ["weightTailoring"; "contractions"; "reorder"; "ctype"; "tolower"; "toupper";
   "sortorder"; "tounicode"; "fromunicode"].

(** The declared names are pairwise distinct, and each is built from a kind
    and a collation of [used]. *)
Definition namedApart (used : list (string * string)) (st : genState) : Prop :=
  NoDup (declaredNames st)
  ∧ ∀ x, x ∈ declaredNames st →
      ∃ kind coll, (kind, coll) ∈ used ∧ x = kind +:+ "_" +:+ coll.

(** The pairs of [used] are made of the kinds of the generator and of
    collations among [colls]. *)
Definition usedWithin (colls : list string) (used : list (string * string)) : Prop :=
  ∀ kind coll, (kind, coll) ∈ used → kind ∈ tableKinds ∧ coll ∈ colls.

(** The pairs of the kinds [kinds] with the collation [coll], and all the
    pairs that the collations [colls] can use. *)
Definition kindsOf (coll : string) (kinds : list string) : list (string * string) :=
  (λ kind, (kind, coll)) <$> kinds.

Definition usedBy (colls : list string) : list (string * string) :=
  flat_map (λ coll, kindsOf coll tableKinds) colls.

(** ** A dump with tables *)

(** A Czech collation with a contraction, a tailored weight and a reorder
    range, and an 8-bit collation with a sort order. *)
Definition sampleCs : collationMetadata :=
  {| Name := "utf8mb4_cs_0900_ai_ci"; Charset := "utf8mb4";
     Flags := {| Binary := false; ASCII := false; Default := false |};
     CollationImpl := "uca_900"; Number := 266;
     CType := None; ToLower := None; ToUpper := None; SortOrder := None;
     TabToUni := None; TabFromUni := None;
     UCAVersion := 900;
     Weights := list_to_map [("U+010D", [0x1C7B; 0x20; 0x2])];
     Contractions :=
       [ {| uca.Path := [99; 104];
            uca.Weights := [0x1D19; 0x20; 0x2; 0; 0; 0; 0; 0; 0];
            uca.Contextual := false |} ];
     Reorder := [(0x1C47, 0x1FB5, 0x1C47, 0x1FB5)];
     UpperCaseFirst := false |}.

Definition sampleLatin1 : collationMetadata :=
  {| Name := "latin1_swedish_ci"; Charset := "latin1";
     Flags := {| Binary := false; ASCII := false; Default := true |};
     CollationImpl := "8bit_simple_ci"; Number := 8;
     CType := None; ToLower := None; ToUpper := None;
     SortOrder := Some [0; 1; 2; 3];
     TabToUni := None; TabFromUni := None;
     UCAVersion := 0; Weights := ∅; Contractions := []; Reorder := [];
     UpperCaseFirst := false |}.

Definition tableDump : list collationMetadata :=
  sampleLatin1 :: sampleDump ++ [sampleCs].

(** The base collation of UCA 9.0.0 under the base weights of [sampleBase]. *)
Definition sampleBaseMeta : collationMetadata :=
  {| Name := "utf8mb4_0900_ai_ci"; Charset := "utf8mb4";
     Flags := {| Binary := false; ASCII := false; Default := true |};
     CollationImpl := "uca_900"; Number := 255;
     CType := None; ToLower := None; ToUpper := None; SortOrder := None;
     TabToUni := None; TabFromUni := None;
     UCAVersion := 900;
     Weights := baseWeightsUca900 sampleBase;
     Contractions := []; Reorder := [];
     UpperCaseFirst := false |}.

(** A legacy collation with a contraction and no tailoring. *)
Definition sampleLegacy : collationMetadata :=
  {| Name := "utf8mb4_czech_ci"; Charset := "utf8mb4";
     Flags := {| Binary := false; ASCII := false; Default := false |};
     CollationImpl := "any_uca"; Number := 234;
     CType := None; ToLower := None; ToUpper := None; SortOrder := None;
     TabToUni := None; TabFromUni := None;
     UCAVersion := 400; Weights := ∅;
     Contractions :=
       [ {| uca.Path := [99; 104]; uca.Weights := [0x0EE2]; uca.Contextual := false |} ];
     Reorder := [];
     UpperCaseFirst := false |}.

(** * Properties of the generator *)

Lemma rbind_Ok {A B} (m : result A) (k : A → result B) (b : B) :
  rbind m k = Ok b ↔ ∃ a, m = Ok a ∧ k a = Ok b.
Proof.
  destruct m as [a|msg]; simpl; split.
  - intros H. by exists a.
  - by intros (a' & [= <-] & H).
  - discriminate.
  - by intros (a' & [=] & _).
Qed.

Lemma rbind_Panic {A B} (m : result A) (k : A → result B) (why : failure) :
  rbind m k = Panic why ↔ m = Panic why ∨ ∃ a, m = Ok a ∧ k a = Panic why.
Proof.
  destruct m as [a|why']; simpl; split.
  - intros H. right. by exists a.
  - by intros [? | (a' & [= <-] & H)].
  - intros [= ->]. by left.
  - by intros [[= ->] | (a' & [=] & _)].
Qed.

Lemma rmapM_Ok_Forall2 {A B} (f : A → result B) l ys :
  rmapM f l = Ok ys ↔ Forall2 (λ x y, f x = Ok y) l ys.
Proof.
  revert ys. induction l as [|x l IH]; intros ys; simpl.
  - split; [intros [= <-]; constructor | by inversion 1].
  - split.
    + intros H. apply rbind_Ok in H as (y & Hy & H).
      apply rbind_Ok in H as (ys' & Hys & [= <-]).
      constructor; [done | by apply IH].
    + inversion 1 as [|? y ? ys' Hy Hys]; subst.
      rewrite Hy. simpl. apply IH in Hys. by rewrite Hys.
Qed.

Lemma rmapM_total {A B} (f : A → result B) l :
  Forall (λ x, ∃ y, f x = Ok y) l → ∃ ys, rmapM f l = Ok ys.
Proof.
  induction 1 as [|x l [y Hy] _ [ys Hys]]; simpl.
  - by exists [].
  - rewrite Hy. simpl. rewrite Hys. simpl. by eexists.
Qed.

(** ** [diffMaps] is the sorted difference from the base table *)

Lemma differsAt_true (orgVal val : list Z) :
  differsAt orgVal val = true
  ↔ ∃ (i : nat) o v, orgVal !! i = Some o ∧ val !! i = Some v ∧ o ≠ v.
Proof.
  revert orgVal. induction val as [|arr val IH]; intros [|o orgVal]; simpl.
  - split; [discriminate | by intros (i & ? & ? & ? & ? & _)].
  - split; [discriminate | by intros (i & ? & ? & _ & ? & _)].
  - split; [discriminate | by intros (i & ? & ? & ? & _)].
  - destruct (Z.eqb_spec o arr) as [->|Hne]; simpl.
    + rewrite IH. split.
      * intros (i & a & b & Ha & Hb & Hab). by exists (S i), a, b.
      * intros ([|i] & a & b & Ha & Hb & Hab); simpl in *.
        -- congruence.
        -- by exists i, a, b.
    + split; [intros _ | done]. by exists 0%nat, o, arr.
Qed.

Lemma differs_true orgWeights key val :
  differs orgWeights key val = true ↔ tailoredAway orgWeights key val.
Proof.
  unfold differs, tailoredAway.
  destruct (orgWeights !! key) as [orgVal|] eqn:Hk.
  - destruct (Nat.eqb_spec (length orgVal) (length val)) as [Hlen|Hlen]; simpl.
    + rewrite differsAt_true. split.
      * intros H. right. exists orgVal. split; [done | by right].
      * intros [? | (orgVal' & [= <-] & [? | H])]; done.
    + split; [intros _ | done]. right. exists orgVal. split; [done | by left].
  - split; [intros _; by left | done].
Qed.

#[global] Instance byCodepoint_trans : Transitive byCodepoint.
Proof. unfold byCodepoint. intros a b c. lia. Qed.

#[global] Instance byCodepoint_total : Total byCodepoint.
Proof. unfold byCodepoint. intros a b. lia. Qed.

Lemma toPatch_Ok kv p :
  toPatch kv = Ok p
  ↔ parseKey kv.1 = Some (uca.Codepoint p) ∧ uca.Patch p = kv.2.
Proof.
  unfold toPatch, parseKey.
  destruct (sliceFrom 2 kv.1) as [digits|];
    [destruct (ParseInt16_32 digits) as [cp|]|]; destruct p as [cp' patch]; simpl.
  - split; [by intros [= -> ->] | by intros [[= ->] ->]].
  - split; [done | by intros [? _]].
  - split; [done | by intros [? _]].
Qed.

Lemma toPatch_Some kv cp :
  parseKey kv.1 = Some cp → toPatch kv = Ok {| uca.Codepoint := cp; uca.Patch := kv.2 |}.
Proof. intros H. by apply toPatch_Ok. Qed.

(** The two ways in which a key gives no patch. *)
Lemma toPatch_Panic kv why :
  toPatch kv = Panic why
  ↔ (why = SliceBoundsOutOfRange ∧ (String.length kv.1 < 2)%nat)
    ∨ (why = ParseIntError ∧ (2 ≤ String.length kv.1)%nat ∧ parseKey kv.1 = None).
Proof.
  unfold toPatch, parseKey, sliceFrom.
  destruct (Nat.leb_spec 2 (String.length kv.1)) as [Hlen|Hlen].
  - destruct (ParseInt16_32 _) as [cp|].
    + split; [done | by intros [[_ ?] | (_ & _ & ?)]; [lia|]].
    + split; [intros [= <-]; by right | intros [[_ ?] | [-> _]]; [lia | done]].
  - split; [intros [= <-]; by left | intros [[-> _] | (_ & ? & _)]; [done | lia]].
Qed.

(** Patches made from pairwise distinct keys that name distinct codepoints
    have pairwise distinct codepoints. *)
Lemma patches_NoDup (kvs : list (string * list Z)) (diff : list uca.WeightPatch) :
  Forall2 (λ kv p, toPatch kv = Ok p) kvs diff →
  NoDup kvs.*1 →
  (∀ kv1 kv2, kv1 ∈ kvs → kv2 ∈ kvs → parseKey kv1.1 = parseKey kv2.1 → kv1.1 = kv2.1) →
  NoDup (uca.Codepoint <$> diff).
Proof.
  induction 1 as [|kv p kvs diff Hp HF IH]; simpl; intros Hnd Hinj.
  - constructor.
  - apply NoDup_cons in Hnd as [Hnotin Hnd]. apply NoDup_cons. split.
    + intros Hin. apply list_elem_of_fmap in Hin as (q & Hcp & Hq).
      apply list_elem_of_lookup in Hq as [i Hi].
      destruct (Forall2_lookup_r _ _ _ _ _ HF Hi) as (kv' & Hkv' & Hq').
      apply toPatch_Ok in Hp as [Hp _]. apply toPatch_Ok in Hq' as [Hq' _].
      assert (kv.1 = kv'.1) as Heq.
      { apply Hinj; [left | right; by eapply list_elem_of_lookup_2 | congruence]. }
      apply Hnotin. rewrite Heq. apply list_elem_of_fmap. exists kv'.
      split; [done | by eapply list_elem_of_lookup_2].
    + apply IH; [done |]. intros kv1 kv2 H1 H2. apply Hinj; by right.
Qed.

Lemma StronglySorted_strict (l : list uca.WeightPatch) :
  StronglySorted byCodepoint l →
  NoDup (uca.Codepoint <$> l) →
  StronglySorted (λ a b, uca.Codepoint a < uca.Codepoint b) l.
Proof.
  induction 1 as [|a l Hs IH Hall]; simpl; intros Hnd; constructor.
  - apply IH. by apply NoDup_cons in Hnd as [_ ?].
  - apply NoDup_cons in Hnd as [Hnotin _].
    rewrite Forall_forall in Hall |- *. intros b Hb.
    specialize (Hall b Hb). unfold byCodepoint in Hall.
    destruct (decide (uca.Codepoint a = uca.Codepoint b)) as [Heq|Hne]; [|lia].
    exfalso. apply Hnotin. rewrite Heq. apply list_elem_of_fmap.
    by exists b.
Qed.

(** [diffMaps] under two conditions on the keys, with the codepoint of a key
    as the code reads it. *)
Lemma diffMaps_sorted_parsed (orgWeights modWeights : tailoringWeights) :
  (∀ key val, modWeights !! key = Some val →
     tailoredAway orgWeights key val → is_Some (parseKey key)) →
  (∀ k1 k2 v1 v2, modWeights !! k1 = Some v1 → modWeights !! k2 = Some v2 →
     tailoredAway orgWeights k1 v1 → tailoredAway orgWeights k2 v2 →
     parseKey k1 = parseKey k2 → k1 = k2) →
  ∃ diff, diffMaps orgWeights modWeights = Ok diff
    ∧ (∀ cp patch,
         {| uca.Codepoint := cp; uca.Patch := patch |} ∈ diff
         ↔ ∃ key, parseKey key = Some cp ∧ modWeights !! key = Some patch
             ∧ tailoredAway orgWeights key patch)
    ∧ StronglySorted (λ a b, uca.Codepoint a < uca.Codepoint b) diff
    ∧ (modWeights = ∅ → diff = []).
Proof.
  intros Hparse Hinj. unfold diffMaps.
  destruct (Nat.eqb_spec (size modWeights) 0) as [Hsz|Hsz].
  { apply map_size_empty_iff in Hsz. subst modWeights.
    exists []. split; [done|]. split; [|split; [constructor | done]].
    intros cp patch. split; [by intros ?%elem_of_nil |].
    intros (key & _ & Hk & _). by rewrite lookup_empty in Hk. }
  set (diffMap := filter _ modWeights).
  assert (Hlook : ∀ key val, (key, val) ∈ map_to_list diffMap
            ↔ modWeights !! key = Some val ∧ tailoredAway orgWeights key val).
  { intros key val. rewrite elem_of_map_to_list. unfold diffMap.
    rewrite map_lookup_filter_Some. simpl. by rewrite differs_true. }
  destruct (rmapM_total toPatch (map_to_list diffMap)) as [diff Hdiff].
  { apply Forall_forall. intros [key val] Hin%Hlook. destruct Hin as [Hk Ht].
    destruct (Hparse key val Hk Ht) as [cp Hcp].
    eexists. by apply toPatch_Some. }
  rewrite Hdiff. simpl. eexists. split; [done|].
  apply rmapM_Ok_Forall2 in Hdiff.
  split; [|split].
  - intros cp patch. rewrite merge_sort_Permutation. split.
    + intros Hin. apply list_elem_of_lookup in Hin as [i Hi].
      destruct (Forall2_lookup_r _ _ _ _ _ Hdiff Hi) as ([key val] & Hkv & Hp).
      apply toPatch_Ok in Hp as [Hcp Hpatch]. simpl in *. subst val.
      apply list_elem_of_lookup_2, Hlook in Hkv as [Hk Ht].
      by exists key.
    + intros (key & Hcp & Hk & Ht).
      assert ((key, patch) ∈ map_to_list diffMap) as Hin by by apply Hlook.
      apply list_elem_of_lookup in Hin as [i Hi].
      destruct (Forall2_lookup_l _ _ _ _ _ Hdiff Hi) as (p & Hp & Hto).
      apply toPatch_Ok in Hto as [Hcp' Hpatch]. simpl in *.
      assert (p = {| uca.Codepoint := cp; uca.Patch := patch |}) as <-.
      { destruct p as [cp' patch']. simpl in *. congruence. }
      by eapply list_elem_of_lookup_2.
  - apply StronglySorted_strict.
    + apply (StronglySorted_merge_sort byCodepoint).
    + rewrite merge_sort_Permutation.
      apply (patches_NoDup (map_to_list diffMap)); [done | apply NoDup_fst_map_to_list |].
      intros [k1 v1] [k2 v2] [H1 T1]%Hlook [H2 T2]%Hlook. simpl. eauto.
  - intros ->. by rewrite map_size_empty in Hsz.
Qed.

(** *** The code reads a key as the notation means it *)

Lemma hexDigit_digitValue (c : ascii) : hexDigit c = digitValue c.
Proof.
  destruct c as [b0 b1 b2 b3 b4 b5 b6 b7].
  destruct b0, b1, b2, b3, b4, b5, b6, b7; reflexivity.
Qed.

Lemma digitValue_range (c : ascii) (d : Z) : digitValue c = Some d → 0 ≤ d < 16.
Proof.
  rewrite <- hexDigit_digitValue. unfold hexDigit.
  repeat match goal with
  | |- context [if ?b then _ else _] => destruct b eqn:?
  end; intros [= <-]; lia.
Qed.

Lemma numeralValue_nonneg (ds : list ascii) (v : Z) : numeralValue ds = Some v → 0 ≤ v.
Proof.
  revert v. induction ds as [|c ds IH]; simpl; intros v.
  - intros [= <-]. lia.
  - destruct (digitValue c) as [d|] eqn:Hd; [|done].
    destruct (numeralValue ds) as [v'|]; [|done].
    intros [= <-]. apply digitValue_range in Hd. specialize (IH v' eq_refl).
    assert (0 < 16 ^ Z.of_nat (length ds)) by (apply Z.pow_pos_nonneg; lia). nia.
Qed.

(** The loop of [ParseUint], which multiplies what it has read by the base
    before it adds a digit, gives each digit the weight of its position. *)
Lemma parseHexFrom_numeralValue (acc : Z) (ds : list ascii) :
  parseHexFrom acc ds
  = match numeralValue ds with
    | Some v => Some (acc * 16 ^ Z.of_nat (length ds) + v)
    | None => None
    end.
Proof.
  revert acc. induction ds as [|c ds IH]; intros acc.
  - simpl. f_equal. lia.
  - change (parseHexFrom acc (c :: ds))
      with (match hexDigit c with
            | Some d => parseHexFrom (acc * 16 + d) ds
            | None => None
            end).
    change (numeralValue (c :: ds))
      with (match digitValue c, numeralValue ds with
            | Some d, Some v => Some (d * 16 ^ Z.of_nat (length ds) + v)
            | _, _ => None
            end).
    rewrite hexDigit_digitValue. destruct (digitValue c) as [d|]; [|done].
    rewrite IH. destruct (numeralValue ds) as [v|]; [|done].
    f_equal. change (length (c :: ds)) with (S (length ds)).
    rewrite Nat2Z.inj_succ, Z.pow_succ_r by lia. ring.
Qed.

Lemma parseHex_numeralValue (c : ascii) (ds : list ascii) :
  parseHex (c :: ds) = numeralValue (c :: ds).
Proof.
  change (parseHex (c :: ds)) with (parseHexFrom 0 (c :: ds)).
  rewrite parseHexFrom_numeralValue. by destruct (numeralValue (c :: ds)).
Qed.

Lemma ParseInt16_32_signedValue (ds : list ascii) :
  ParseInt16_32 (string_of_list_ascii ds) = signedValue ds.
Proof.
  unfold ParseInt16_32, bytesOf. rewrite list_ascii_of_string_of_list_ascii.
  assert (Hplain : ∀ c rest,
            match parseHex (c :: rest) with
            | Some un => if un <? 2 ^ 31 then Some un else None
            | None => None
            end
            = match numeralValue (c :: rest) with
              | Some v => if (- 2 ^ 31 <=? v) && (v <? 2 ^ 31) then Some v else None
              | None => None
              end).
  { intros c rest. rewrite parseHex_numeralValue.
    destruct (numeralValue (c :: rest)) as [v|] eqn:Hv; [|done].
    apply numeralValue_nonneg in Hv.
    destruct (Z.leb_spec (- 2 ^ 31) v); [done | lia]. }
  destruct ds as [|c rest]; [done|]. cbv beta iota zeta.
  destruct (Ascii.eqb_spec c "+") as [->|Hplus].
  - unfold signedValue. destruct rest as [|c' rest']; [done|]. apply Hplain.
  - destruct (Ascii.eqb_spec c "-") as [->|Hminus].
    + unfold signedValue. destruct rest as [|c' rest']; [done|].
      rewrite parseHex_numeralValue.
      destruct (numeralValue (c' :: rest')) as [v|] eqn:Hv; [|done].
      apply numeralValue_nonneg in Hv.
      destruct (Z.leb_spec v (2 ^ 31)), (Z.leb_spec (- 2 ^ 31) (- v)),
        (Z.ltb_spec (- v) (2 ^ 31)); simpl; try done; lia.
    + rewrite Hplain. unfold signedValue.
      assert (match c :: rest with
              | "-"%char :: ds => (true, ds)
              | "+"%char :: ds => (false, ds)
              | _ => (false, c :: rest)
              end = (false, c :: rest)) as ->; [|done].
      destruct c as [b0 b1 b2 b3 b4 b5 b6 b7].
      destruct b0, b1, b2, b3, b4, b5, b6, b7; done.
Qed.

Lemma parseKey_codepointOf (key : string) : parseKey key = codepointOf key.
Proof.
  unfold parseKey, codepointOf, sliceFrom.
  destruct key as [|a [|b s]]; [done | done |].
  change (bytesOf (String a (String b s))) with (a :: b :: bytesOf s).
  change (2 <=? String.length (String a (String b s)))%nat with true.
  cbv beta iota. change (drop 2 (a :: b :: bytesOf s)) with (bytesOf s).
  apply ParseInt16_32_signedValue.
Qed.

(** C9, as amended: for a tailoring in which every key whose vector differs
    from the base names a codepoint, and no two such keys name the same one,
    [diffMaps] returns the patches of exactly the codepoints whose tailored
    vector is absent from the base map, or has another length, or differs at
    some index; each patch is the whole tailored vector; the list is strictly
    ascending by codepoint; and an empty tailoring gives no patch. *)
Theorem diffMaps_sorted_difference (orgWeights modWeights : tailoringWeights) :
  (∀ key val, modWeights !! key = Some val →
     tailoredAway orgWeights key val → is_Some (codepointOf key)) →
  (∀ k1 k2 v1 v2, modWeights !! k1 = Some v1 → modWeights !! k2 = Some v2 →
     tailoredAway orgWeights k1 v1 → tailoredAway orgWeights k2 v2 →
     codepointOf k1 = codepointOf k2 → k1 = k2) →
  ∃ diff, diffMaps orgWeights modWeights = Ok diff
    ∧ (∀ cp patch,
         {| uca.Codepoint := cp; uca.Patch := patch |} ∈ diff
         ↔ ∃ key, codepointOf key = Some cp ∧ modWeights !! key = Some patch
             ∧ tailoredAway orgWeights key patch)
    ∧ StronglySorted (λ a b, uca.Codepoint a < uca.Codepoint b) diff
    ∧ (modWeights = ∅ → diff = []).
Proof.
  intros Hnames Hinj.
  destruct (diffMaps_sorted_parsed orgWeights modWeights)
    as (diff & Hdiff & Hmem & Hsorted & Hempty).
  - intros key val Hk Ht. rewrite parseKey_codepointOf. by eapply Hnames.
  - intros k1 k2 v1 v2 H1 H2 T1 T2. rewrite !parseKey_codepointOf.
    by eapply Hinj.
  - exists diff. split; [done|]. split; [|done].
    intros cp patch. rewrite Hmem.
    split; intros (key & Hcp & Hrest); exists key;
      (split; [|done]); by rewrite ?parseKey_codepointOf in *.
Qed.

(** ** Suffixes of names *)

Lemma HasSuffix_suffix (s x : string) :
  HasSuffix s x = true ↔ bytesOf x `suffix_of` bytesOf s.
Proof.
  unfold HasSuffix. rewrite andb_true_iff, Nat.leb_le, bool_decide_eq_true.
  split.
  - intros [_ Hdrop]. exists (take (length (bytesOf s) - length (bytesOf x)) (bytesOf s)).
    rewrite <- Hdrop at 2. by rewrite take_drop.
  - intros [k Hk]. rewrite Hk, length_app. split; [lia|].
    replace (length k + length (bytesOf x) - length (bytesOf x))%nat
      with (length k) by lia.
    by rewrite drop_app_length.
Qed.

(** Two suffixes of one name: the shorter is a suffix of the longer. *)
Lemma HasSuffix_nested (s a b : string) :
  HasSuffix s a = true → HasSuffix s b = true →
  (length (bytesOf a) ≤ length (bytesOf b))%nat →
  HasSuffix b a = true.
Proof.
  rewrite !HasSuffix_suffix. intros Ha Hb Hlen.
  destruct (suffix_weak_total _ _ _ Ha Hb) as [H|H]; [done|].
  assert (bytesOf b = bytesOf a) as ->; [|done].
  apply suffix_length_eq; [done | lia].
Qed.

Lemma HasSuffix_exclusive (s a b : string) :
  (length (bytesOf a) ≤ length (bytesOf b))%nat →
  HasSuffix b a = false →
  HasSuffix s a = true → HasSuffix s b = true → False.
Proof.
  intros Hlen Hno Ha Hb. by rewrite (HasSuffix_nested s a b Ha Hb Hlen) in Hno.
Qed.

Ltac suffix_clash :=
  match goal with
  | Ha : HasSuffix ?s ?a = true, Hb : HasSuffix ?s ?b = true |- _ =>
      exfalso;
      first [ exact (HasSuffix_exclusive s a b ltac:(vm_compute; lia) eq_refl Ha Hb)
            | exact (HasSuffix_exclusive s b a ltac:(vm_compute; lia) eq_refl Hb Ha) ]
  end.

(** The level count is a function of the suffix, and the four suffixes
    exclude one another. *)
Lemma levelsForCompare_Ok (name : string) (levels : Z) :
  levelsForCompare name = Ok levels →
  1 ≤ levels ≤ 4
  ∧ (levels = 1 ↔ HasSuffix name "_ai_ci" = true)
  ∧ (levels = 2 ↔ HasSuffix name "_as_ci" = true)
  ∧ (levels = 3 ↔ HasSuffix name "_as_cs" = true)
  ∧ (levels = 4 ↔ HasSuffix name "_as_cs_ks" = true).
Proof.
  unfold levelsForCompare.
  destruct (HasSuffix name "_ai_ci") eqn:H1;
    [|destruct (HasSuffix name "_as_ci") eqn:H2;
      [|destruct (HasSuffix name "_as_cs") eqn:H3;
        [|destruct (HasSuffix name "_as_cs_ks") eqn:H4]]];
    intros [= <-]; (split; [lia|]);
    repeat split; intros; try done; try lia; suffix_clash.
Qed.

Lemma levelsForCompare_Panic (name : string) :
  (∃ why, levelsForCompare name = Panic why)
  ↔ HasSuffix name "_ai_ci" = false ∧ HasSuffix name "_as_ci" = false
    ∧ HasSuffix name "_as_cs" = false ∧ HasSuffix name "_as_cs_ks" = false.
Proof.
  unfold levelsForCompare.
  destruct (HasSuffix name "_ai_ci"), (HasSuffix name "_as_ci"),
    (HasSuffix name "_as_cs"), (HasSuffix name "_as_cs_ks");
    split; try (intros [? [=]]); try (intros (? & ? & ? & ?); discriminate);
    try done; intros _; by eexists.
Qed.

(** ** What the writers leave in the two buffers *)

Lemma field_app (k : string) (fs1 fs2 : list (string * goValue)) :
  field k (fs1 ++ fs2) = match field k fs1 with
                         | Some v => Some v
                         | None => field k fs2
                         end.
Proof.
  induction fs1 as [|[k' v] fs1 IH]; simpl; [done|].
  by destruct (String.eqb k' k).
Qed.

Lemma field_optionalField_ne (k k' table : string) :
  String.eqb k' k = false → field k (optionalField k' table) = None.
Proof.
  intros Hne. unfold optionalField.
  destruct (String.eqb table ""); simpl; [done|]. by rewrite Hne.
Qed.

Lemma field_optionalField_empty (k k' : string) :
  field k (optionalField k' "") = None.
Proof. done. Qed.

Lemma printDeduplicated_init env name coll val printed st :
  init (printDeduplicated env name coll val printed st).2 = init st.
Proof.
  unfold printDeduplicated, dedupTable.
  destruct (seenTables st !! gosyntax env val); done.
Qed.

Lemma writeWeightPatches_Ok env bw meta st table st' :
  writeWeightPatches env bw meta st = Ok (table, st') →
  init st' = init st
  ∧ (UCAVersion meta = 400 ∨ UCAVersion meta = 520 ∨ UCAVersion meta = 900)
  ∧ ∃ base diff, diffMaps base (Weights meta) = Ok diff
      ∧ (diff = [] → table = "" ∧ st' = st)
      ∧ ∀ d, d ∈ tables st' → d ∈ tables st ∨ contents d = PatchTable diff.
Proof.
  unfold writeWeightPatches. intros H.
  apply rbind_Ok in H as (base & Hbase & H).
  apply rbind_Ok in H as (diff & Hdiff & H).
  assert (UCAVersion meta = 400 ∨ UCAVersion meta = 520 ∨ UCAVersion meta = 900) as Hv.
  { destruct (Z.eqb_spec (UCAVersion meta) 400); [by left|].
    destruct (Z.eqb_spec (UCAVersion meta) 520); [by right; left|].
    destruct (Z.eqb_spec (UCAVersion meta) 900); [by right; right | done]. }
  destruct diff as [|p diff]; simpl in H.
  - injection H as <- <-. split; [done|]. split; [done|].
    exists base, []. repeat split; auto.
  - unfold dedupTable in H.
    destruct (seenTables st !! gosyntax env (PatchTable (p :: diff)));
      injection H as <- <-; (split; [done|]); (split; [done|]);
      exists base, (p :: diff); (split; [done|]); (split; [done|]);
      simpl; intros d Hd; auto.
    apply elem_of_app in Hd as [Hd|Hd]; [by left|].
    apply list_elem_of_singleton in Hd as ->. by right.
Qed.

Lemma writeWeightPatches_total env bw meta st :
  (UCAVersion meta = 400 ∨ UCAVersion meta = 520 ∨ UCAVersion meta = 900) →
  (∀ base, ∃ diff, diffMaps base (Weights meta) = Ok diff) →
  ∃ table st', writeWeightPatches env bw meta st = Ok (table, st').
Proof.
  intros Hv Hdiff. unfold writeWeightPatches.
  assert (∃ base,
    (if UCAVersion meta =? 400 then Ok (baseWeightsUca400 bw)
     else if UCAVersion meta =? 520 then Ok (baseWeightsUca520 bw)
     else if UCAVersion meta =? 900 then Ok (baseWeightsUca900 bw)
     else Panic InvalidUCAVersion) = Ok base) as [base ->].
  { destruct Hv as [-> | [-> | ->]]; simpl; by eexists. }
  simpl. destruct (Hdiff base) as [diff ->]. simpl.
  destruct (0 <? length diff)%nat; [|by eexists _, _].
  destruct (dedupTable _ _ _ _ _) as [[t []] seen]; by eexists _, _.
Qed.

Lemma writeContractions_init env meta st :
  init (writeContractions env meta st).2 = init st.
Proof.
  unfold writeContractions, dedupTable.
  destruct (0 <? length (Contractions meta))%nat; [|done].
  destruct (seenTables st !! _); done.
Qed.

Lemma writeContractions_tables env meta st d :
  d ∈ tables (writeContractions env meta st).2 →
  d ∈ tables st ∨ ∃ l, contents d = ContractionTable l.
Proof.
  unfold writeContractions, dedupTable.
  destruct (0 <? length (Contractions meta))%nat; [|by left].
  destruct (seenTables st !! _); simpl; [by left|].
  intros [Hd|Hd]%elem_of_app; [by left|].
  apply list_elem_of_singleton in Hd as ->. right. by eexists.
Qed.

Lemma writeReorders_init env meta st :
  init (writeReorders env meta st).2 = init st.
Proof.
  unfold writeReorders, dedupTable.
  destruct (0 <? length (Reorder meta))%nat; [|done].
  destruct (seenTables st !! _); done.
Qed.

Lemma writeReorders_nil env meta st :
  Reorder meta = [] → writeReorders env meta st = ("", st).
Proof. intros H. unfold writeReorders. by rewrite H. Qed.

(** *** [writeUcaLegacy] *)

Lemma writeUcaLegacy_Ok env bw meta st st' :
  writeUcaLegacy env bw meta st = Ok st' →
  ∃ r, init st' = init st ++ [r] ∧ legacyRegistration meta r.
Proof.
  unfold writeUcaLegacy. intros H.
  apply rbind_Ok in H as ([twp st1] & Hwp & H).
  destruct (writeContractions env meta st1) as [tc st2] eqn:Hc.
  apply rbind_Ok in H as (maxcp & Hmax & [= <-]).
  apply writeWeightPatches_Ok in Hwp as (Hinit1 & _ & _).
  pose proof (writeContractions_init env meta st1) as Hinit2.
  rewrite Hc in Hinit2. simpl in Hinit2.
  eexists. split; [simpl; by rewrite Hinit2, Hinit1|].
  unfold legacyRegistration. simpl. repeat split.
  rewrite !field_app.
  rewrite !field_optionalField_ne by done. simpl.
  destruct (Z.eqb_spec (UCAVersion meta) 400) as [->|];
    [injection Hmax as <-; by left|].
  destruct (Z.eqb_spec (UCAVersion meta) 520) as [->|];
    [injection Hmax as <-; by right | done].
Qed.

Lemma writeUcaLegacy_Panic env bw meta st :
  UCAVersion meta ≠ 400 → UCAVersion meta ≠ 520 →
  ∃ why, writeUcaLegacy env bw meta st = Panic why.
Proof.
  intros H4 H5. unfold writeUcaLegacy.
  destruct (writeWeightPatches env bw meta st) as [[twp st1]|why]; simpl;
    [|by eexists].
  destruct (writeContractions env meta st1) as [tc st2].
  destruct (Z.eqb_spec (UCAVersion meta) 400); [done|].
  destruct (Z.eqb_spec (UCAVersion meta) 520); [done|].
  by eexists.
Qed.

Lemma writeUcaLegacy_total env bw meta st :
  (UCAVersion meta = 400 ∨ UCAVersion meta = 520) →
  (∀ base, ∃ diff, diffMaps base (Weights meta) = Ok diff) →
  ∃ st', writeUcaLegacy env bw meta st = Ok st'.
Proof.
  intros Hv Hdiff. unfold writeUcaLegacy.
  destruct (writeWeightPatches_total env bw meta st) as (twp & st1 & ->);
    [destruct Hv; auto | done |].
  simpl. destruct (writeContractions env meta st1) as [tc st2].
  destruct Hv as [-> | ->]; simpl; by eexists.
Qed.

(** *** [writeUca900] *)

Lemma selectUca900Table_same (meta : collationMetadata) :
  let meta' := (selectUca900Table meta).2 in
  Name meta' = Name meta ∧ UCAVersion meta' = UCAVersion meta
  ∧ Number meta' = Number meta ∧ Contractions meta' = Contractions meta
  ∧ Flags meta' = Flags meta ∧ UpperCaseFirst meta' = UpperCaseFirst meta.
Proof.
  unfold selectUca900Table.
  destruct (String.eqb (Name meta) "utf8mb4_zh_0900_as_cs"); [done|].
  destruct (_ || _); done.
Qed.

(** The steps of a call of [writeUca900] that returns. *)
Lemma writeUca900_Ok env bw meta st st' :
  writeUca900 env bw meta st = Ok st' →
  UCAVersion meta = 900
  ∧ ∃ tableWeightPatches st1 levels,
      let tableWeights := (selectUca900Table meta).1 in
      let meta' := (selectUca900Table meta).2 in
      let cs := writeContractions env meta' st1 in
      let rs := writeReorders env meta' cs.2 in
      writeWeightPatches env bw meta' st = Ok (tableWeightPatches, st1)
      ∧ levelsForCompare (Name meta) = Ok levels
      ∧ st' = printRegister
                {| impl := "Collation_utf8mb4_uca_0900";
                   fields :=
                     [("name", GoString (Name meta));
                      ("id", GoInt (Number meta));
                      ("levelsForCompare", GoInt levels);
                      ("weights", GoIdent tableWeights)]
                     ++ optionalField "tailoring" tableWeightPatches
                     ++ optionalField "contractions" cs.1
                     ++ optionalField "reorder" rs.1
                     ++ (if UpperCaseFirst meta
                         then [("upperCaseFirst", GoBool true)] else []);
                   isDefault := Default (Flags meta) |} rs.2.
Proof.
  unfold writeUca900. intros H.
  destruct (Z.eqb_spec (UCAVersion meta) 900) as [Hv|]; [|done].
  split; [done|]. simpl in H.
  pose proof (selectUca900Table_same meta) as (Hn & _ & Hnum & _ & Hfl & Hup).
  destruct (selectUca900Table meta) as [tw meta']. simpl in *.
  apply rbind_Ok in H as ([twp st1] & Hwp & H).
  destruct (writeContractions env meta' st1) as [tc st2] eqn:Hc.
  destruct (writeReorders env meta' st2) as [tr st3] eqn:Hr.
  apply rbind_Ok in H as (levels & Hlev & [= <-]).
  exists twp, st1, levels. simpl.
  rewrite <- Hn, <- Hnum, <- Hfl, <- Hup, Hc. simpl. by rewrite Hr.
Qed.

Lemma writeUca900_registers env bw meta st st' :
  writeUca900 env bw meta st = Ok st' →
  ∃ r, init st' = init st ++ [r] ∧ uca900Registration meta r.
Proof.
  intros H. apply writeUca900_Ok in H as (_ & twp & st1 & levels & Hwp & Hlev & ->).
  apply writeWeightPatches_Ok in Hwp as (Hinit1 & _).
  eexists. split.
  - simpl. by rewrite writeReorders_init, writeContractions_init, Hinit1.
  - unfold uca900Registration. simpl. repeat split. by exists levels.
Qed.

Lemma writeUca900_total env bw meta st :
  UCAVersion meta = 900 →
  (∀ base, ∃ diff, diffMaps base (Weights (selectUca900Table meta).2) = Ok diff) →
  (∃ levels, levelsForCompare (Name meta) = Ok levels) →
  ∃ st', writeUca900 env bw meta st = Ok st'.
Proof.
  intros Hv Hdiff [levels Hlev]. unfold writeUca900. rewrite Hv. simpl.
  pose proof (selectUca900Table_same meta) as (Hn & Hv' & _).
  destruct (selectUca900Table meta) as [tw meta']. simpl in *.
  destruct (writeWeightPatches_total env bw meta' st) as (twp & st1 & ->);
    [right; right; congruence | done |].
  simpl. destruct (writeContractions env meta' st1) as [tc st2].
  destruct (writeReorders env meta' st2) as [tr st3].
  rewrite Hn, Hlev. simpl. by eexists.
Qed.

Lemma writeUca900_Panic_levels env bw meta st :
  (∃ why, levelsForCompare (Name meta) = Panic why) →
  ∃ why, writeUca900 env bw meta st = Panic why.
Proof.
  intros [why Hlev]. unfold writeUca900.
  destruct (negb _); [by eexists|].
  pose proof (selectUca900Table_same meta) as (Hn & _).
  destruct (selectUca900Table meta) as [tw meta']. simpl in *.
  destruct (writeWeightPatches env bw meta' st) as [[twp st1]|]; simpl; [|by eexists].
  destruct (writeContractions env meta' st1) as [tc st2].
  destruct (writeReorders env meta' st2) as [tr st3].
  rewrite Hn, Hlev. simpl. by eexists.
Qed.

Lemma diffMaps_empty (base : tailoringWeights) : diffMaps base ∅ = Ok [].
Proof. unfold diffMaps. by rewrite map_size_empty. Qed.

(** ** The routing of [main] *)

Ltac split_print :=
  repeat match goal with
  | |- context [printByteSlice ?e ?n ?c ?a ?s] =>
      let H := fresh "Hinit" in
      pose proof (printDeduplicated_init e n c (byteSlice a) (ByteTable (default [] a)) s) as H;
      change (printDeduplicated e n c (byteSlice a) (ByteTable (default [] a)) s)
        with (printByteSlice e n c a s) in H;
      destruct (printByteSlice e n c a s) as [? ?]; simpl in H
  | |- context [printUnsignedSlice ?e ?n ?c ?a ?s] =>
      let H := fresh "Hinit" in
      pose proof (printDeduplicated_init e n c (Uint16Table a) (Uint16Table a) s) as H;
      change (printDeduplicated e n c (Uint16Table a) (Uint16Table a) s)
        with (printUnsignedSlice e n c a s) in H;
      destruct (printUnsignedSlice e n c a s) as [? ?]; simpl in H
  | |- context [printUnicodeMappings ?e ?n ?c ?a ?s] =>
      let H := fresh "Hinit" in
      pose proof (printDeduplicated_init e n c (MappingTable a) (MappingTable a) s) as H;
      change (printDeduplicated e n c (MappingTable a) (MappingTable a) s)
        with (printUnicodeMappings e n c a s) in H;
      destruct (printUnicodeMappings e n c a s) as [? ?]; simpl in H
  end.

Ltac chain_init :=
  simpl;
  repeat match goal with
  | H : init ?a = _ |- context [init ?a] => rewrite H
  end;
  reflexivity.

Lemma write8bit_registers env meta st :
  ∃ r, init (write8bit env meta st) = init st ++ [r] ∧ registers meta r.
Proof.
  unfold write8bit.
  destruct (Print8BitData env); split_print;
    destruct (SortOrder meta); split_print;
    destruct (String.eqb (Charset meta) "latin1"); simpl;
    try (destruct (TabToUni meta); split_print;
         destruct (TabFromUni meta); split_print);
    (eexists; split; [chain_init|]);
    (split; [done|]); simpl; destruct (Binary (Flags meta)); done.
Qed.

Lemma writeUnicode_registers meta st :
  ∃ r, init (writeUnicode meta st) = init st ++ [r] ∧ registers meta r.
Proof.
  unfold writeUnicode. eexists. split; [done|].
  split; [done|]. simpl. destruct (Binary (Flags meta)); done.
Qed.

Lemma writeMultibyte_registers env meta st :
  ∃ r, init (writeMultibyte env meta st) = init st ++ [r] ∧ registers meta r.
Proof.
  unfold writeMultibyte. destruct (SortOrder meta); split_print;
    (eexists; split; [chain_init|]); done.
Qed.

Lemma writeUcaLegacy_registers env bw meta st st' :
  writeUcaLegacy env bw meta st = Ok st' →
  ∃ r, init st' = init st ++ [r] ∧ registers meta r.
Proof.
  intros (r & Hinit & Hr)%writeUcaLegacy_Ok. exists r. split; [done|].
  pose proof Hr as (Himpl & Hname & _).
  split; [done|]. split; [done|]. by rewrite Himpl.
Qed.

Lemma writeUca900_registers' env bw meta st st' :
  writeUca900 env bw meta st = Ok st' →
  ∃ r, init st' = init st ++ [r] ∧ registers meta r.
Proof.
  intros (r & Hinit & Hr)%writeUca900_registers. exists r. split; [done|].
  pose proof Hr as (Himpl & Hname & _).
  split; [done|]. split; [by rewrite Himpl | done].
Qed.

(** One turn of the loop either skips the collation, or prints one
    registration for it, or appends it to [unsupported]; the last happens
    exactly for the collations that reach the [default] case. *)
Lemma routeCollation_Ok env bw meta ms ms' :
  routeCollation env bw meta ms = Ok ms' →
  unsupported ms' = unsupported ms ++ (if reachesDefault env meta then [meta] else [])
  ∧ (init (gen ms') = init (gen ms)
     ∨ Name meta ≠ "tis620_bin"
       ∧ ∃ r, init (gen ms') = init (gen ms) ++ [r] ∧ registers meta r).
Proof.
  unfold routeCollation, reachesDefault.
  destruct (String.eqb (Name meta) "utf8mb4_0900_bin" || String.eqb (Name meta) "binary");
    simpl; [intros [= <-]; by rewrite app_nil_r; auto|].
  destruct (String.eqb_spec (Name meta) "tis620_bin") as [|Hne];
    simpl; [intros [= <-]; by rewrite app_nil_r; auto|].
  destruct (String.eqb (CollationImpl meta) "any_uca" || _ || _ || _); simpl.
  { intros (st' & Hw & [= <-])%rbind_Ok. simpl. rewrite app_nil_r. split; [done|].
    right. split; [done|]. by eapply writeUcaLegacy_registers. }
  destruct (String.eqb (CollationImpl meta) "uca_900"); simpl.
  { intros (st' & Hw & [= <-])%rbind_Ok. simpl. rewrite app_nil_r. split; [done|].
    right. split; [done|]. by eapply writeUca900_registers'. }
  destruct (String.eqb (CollationImpl meta) "8bit_bin" || _); simpl.
  { intros [= <-]. simpl. rewrite app_nil_r. split; [done|].
    right. split; [done|]. apply write8bit_registers. }
  destruct (String.eqb (Name meta) "gb18030_unicode_520_ci"); simpl.
  { intros (st' & Hw & [= <-])%rbind_Ok. simpl. rewrite app_nil_r. split; [done|].
    right. split; [done|]. by eapply writeUcaLegacy_registers. }
  destruct (IsMultibyteByName env (Charset meta)); simpl.
  { intros [= <-]. simpl. rewrite app_nil_r. split; [done|].
    right. split; [done|]. apply writeMultibyte_registers. }
  destruct (HasSuffix (Name meta) "_bin" && _); simpl.
  { intros [= <-]. simpl. rewrite app_nil_r. split; [done|].
    right. split; [done|]. apply writeUnicode_registers. }
  destruct (HasSuffix (Name meta) "_general_ci"); simpl.
  { intros [= <-]. simpl. rewrite app_nil_r. split; [done|].
    right. split; [done|]. apply writeUnicode_registers. }
  intros [= <-]. simpl. auto.
Qed.

Lemma routeAll_Ok env bw all ms ms' :
  routeAll env bw all ms = Ok ms' →
  unsupported ms' = unsupported ms ++ List.filter (reachesDefault env) all
  ∧ ∃ regs, init (gen ms') = init (gen ms) ++ regs
      ∧ Forall (λ r, ∃ meta, meta ∈ all ∧ Name meta ≠ "tis620_bin"
                              ∧ registers meta r) regs.
Proof.
  revert ms. induction all as [|meta all IH]; simpl; intros ms.
  - intros [= <-]. rewrite app_nil_r. split; [done|]. exists []. by rewrite app_nil_r.
  - intros (ms1 & Hstep & Hrest)%rbind_Ok.
    apply routeCollation_Ok in Hstep as [Huns Hinit].
    apply IH in Hrest as (Huns' & regs & Hinit' & Hregs).
    split.
    { rewrite Huns', Huns, <- app_assoc. by destruct (reachesDefault env meta). }
    assert (Forall (λ r, ∃ meta0, meta0 ∈ meta :: all ∧ Name meta0 ≠ "tis620_bin"
                                  ∧ registers meta0 r) regs) as Hregs'.
    { eapply Forall_impl; [done|]. intros r (m & Hm & ?). exists m.
      split; [by right | done]. }
    destruct Hinit as [Hinit | (Hne & r & Hinit & Hr)].
    + exists regs. by rewrite Hinit', Hinit.
    + exists (r :: regs). rewrite Hinit', Hinit, <- app_assoc. split; [done|].
      constructor; [|done]. exists meta. split; [by left | done].
Qed.

Lemma main_Ok env all file :
  main env all = Ok file →
  collationsUnsupportedByName file
    = map (λ meta, (Name meta, Number meta)) (List.filter (reachesDefault env) all)
  ∧ Forall (λ r, ∃ meta, meta ∈ all ∧ Name meta ≠ "tis620_bin" ∧ registers meta r)
      (fileInit file).
Proof.
  unfold main.
  intros (w4 & _ & (w5 & _ & (w9 & _ & (ms & Hroute & [= <-])%rbind_Ok)%rbind_Ok)%rbind_Ok)%rbind_Ok.
  apply routeAll_Ok in Hroute as (Huns & regs & Hinit & Hregs). simpl in *.
  rewrite Huns, Hinit. done.
Qed.

Lemma writeReorders_tables env meta st d :
  d ∈ tables (writeReorders env meta st).2 →
  d ∈ tables st ∨ contents d = ReorderTable (Reorder meta).
Proof.
  unfold writeReorders, dedupTable.
  destruct (0 <? length (Reorder meta))%nat; [|by left].
  destruct (seenTables st !! _); simpl; [by left|].
  intros [Hd|Hd]%elem_of_app; [by left|].
  apply list_elem_of_singleton in Hd as ->. by right.
Qed.

Lemma writeWeightPatches_no_weights env bw meta st :
  UCAVersion meta = 900 → Weights meta = ∅ →
  writeWeightPatches env bw meta st = Ok ("", st).
Proof.
  intros Hv Hw. unfold writeWeightPatches. rewrite Hv, Hw. simpl.
  by rewrite diffMaps_empty.
Qed.

(** C7: a call of [writeUca900] that returns has printed one registration
    whose [levelsForCompare] is between 1 and 4 and is fixed by the suffix of
    the name alone ([_ai_ci] 1, [_as_ci] 2, [_as_cs] 3, [_as_cs_ks] 4); the
    call does return for a version 900 collation with one of these suffixes
    whose tailoring keys parse; a name with none of the suffixes makes the
    call panic; and every UCA900 registration of a generated file obeys the
    same rule. *)
Theorem uca900_levels_from_suffix (env : environment) (bw : baseWeights)
    (meta : collationMetadata) (st : genState) :
  (∀ st', writeUca900 env bw meta st = Ok st' →
     ∃ r levels, init st' = init st ++ [r]
       ∧ field "name" (fields r) = Some (GoString (Name meta))
       ∧ field "levelsForCompare" (fields r) = Some (GoInt levels)
       ∧ levelsMatchSuffix (Name meta) levels)
  ∧ (UCAVersion meta = 900 →
     (∀ base, ∃ diff, diffMaps base (Weights (selectUca900Table meta).2) = Ok diff) →
     ¬ noLevelSuffix (Name meta) →
     ∃ st', writeUca900 env bw meta st = Ok st')
  ∧ (noLevelSuffix (Name meta) → ∃ why, writeUca900 env bw meta st = Panic why)
  ∧ (∀ all file r, main env all = Ok file → r ∈ fileInit file →
       impl r = "Collation_utf8mb4_uca_0900" →
       ∃ name levels, field "name" (fields r) = Some (GoString name)
         ∧ field "levelsForCompare" (fields r) = Some (GoInt levels)
         ∧ levelsMatchSuffix name levels).
Proof.
  repeat split.
  - intros st' (r & Hinit & _ & Hname & levels & Hfield & Hlev)%writeUca900_registers.
    exists r, levels. do 3 (split; [done|]). by apply levelsForCompare_Ok.
  - intros Hv Hdiff Hsuf. apply writeUca900_total; [done | done |].
    destruct (levelsForCompare (Name meta)) as [levels|why] eqn:Hlev; [by eexists|].
    exfalso. apply Hsuf. apply levelsForCompare_Panic. by eexists.
  - intros Hno. apply writeUca900_Panic_levels. by apply levelsForCompare_Panic.
  - intros all file r [_ Hregs]%main_Ok Hr Himpl.
    rewrite Forall_forall in Hregs.
    destruct (Hregs r Hr) as (m & _ & _ & _ & _ & Hu).
    destruct (Hu Himpl) as (_ & Hname & levels & Hfield & Hlev).
    exists (Name m), levels. do 2 (split; [done|]). by apply levelsForCompare_Ok.
Qed.

(** C8: a call of [writeUcaLegacy] that returns has printed one registration
    whose weight table is named after the UCA version alone, with the maximum
    codepoint 0xFFFF for version 400 and 0x10FFFF for version 520; the call
    does return for these two versions when the tailoring keys parse; any
    other version makes the call panic; and every legacy registration of a
    generated file has version 400 or 520. *)
Theorem legacy_table_from_version (env : environment) (bw : baseWeights)
    (meta : collationMetadata) (st : genState) :
  (∀ st', writeUcaLegacy env bw meta st = Ok st' →
     ∃ r, init st' = init st ++ [r] ∧ legacyRegistration meta r)
  ∧ (UCAVersion meta = 400 ∨ UCAVersion meta = 520 →
     (∀ base, ∃ diff, diffMaps base (Weights meta) = Ok diff) →
     ∃ st', writeUcaLegacy env bw meta st = Ok st')
  ∧ (UCAVersion meta ≠ 400 → UCAVersion meta ≠ 520 →
     ∃ why, writeUcaLegacy env bw meta st = Panic why)
  ∧ (∀ all file r, main env all = Ok file → r ∈ fileInit file →
       impl r = "Collation_uca_legacy" →
       ∃ m, m ∈ all ∧ legacyRegistration m r
         ∧ (UCAVersion m = 400 ∨ UCAVersion m = 520)).
Proof.
  repeat split.
  - intros st'. apply writeUcaLegacy_Ok.
  - apply writeUcaLegacy_total.
  - apply writeUcaLegacy_Panic.
  - intros all file r [_ Hregs]%main_Ok Hr Himpl.
    rewrite Forall_forall in Hregs.
    destruct (Hregs r Hr) as (m & Hm & _ & _ & Hl & _).
    specialize (Hl Himpl). exists m. split; [done|]. split; [done|].
    destruct Hl as (_ & _ & _ & [[? _] | [? _]]); auto.
Qed.

(** C10: for [utf8mb4_zh_0900_as_cs], [utf8mb4_ja_0900_as_cs] and
    [utf8mb4_ja_0900_as_cs_ks] of UCA version 900, [writeUca900] returns, the
    registration it prints has no [tailoring] field and no table of weight
    patches is written, whatever weights the metadata holds; the weights
    come from [uca.WeightTable_uca900_zh] and [uca.WeightTable_uca900_ja];
    and for the Chinese collation the registration has no [reorder] field
    and no reorder table is written, whatever ranges the metadata holds. *)
Theorem zh_ja_drop_tailoring (env : environment) (bw : baseWeights)
    (meta : collationMetadata) (st : genState) :
  UCAVersion meta = 900 →
  Name meta = "utf8mb4_zh_0900_as_cs" ∨ Name meta = "utf8mb4_ja_0900_as_cs"
    ∨ Name meta = "utf8mb4_ja_0900_as_cs_ks" →
  ∃ st' r, writeUca900 env bw meta st = Ok st'
    ∧ init st' = init st ++ [r]
    ∧ field "name" (fields r) = Some (GoString (Name meta))
    ∧ field "tailoring" (fields r) = None
    ∧ (∀ d l, d ∈ tables st' → contents d = PatchTable l → d ∈ tables st)
    ∧ (Name meta = "utf8mb4_zh_0900_as_cs" →
         field "weights" (fields r) = Some (GoIdent "uca.WeightTable_uca900_zh")
         ∧ field "reorder" (fields r) = None
         ∧ ∀ d l, d ∈ tables st' → contents d = ReorderTable l → d ∈ tables st)
    ∧ (Name meta ≠ "utf8mb4_zh_0900_as_cs" →
         field "weights" (fields r) = Some (GoIdent "uca.WeightTable_uca900_ja")).
Proof.
  intros Hv Hname.
  destruct (writeUca900_total env bw meta st) as [st' Hrun]; [done | | |].
  { intros base. unfold selectUca900Table.
    destruct Hname as [-> | [-> | ->]]; simpl; exists []; apply diffMaps_empty. }
  { destruct Hname as [-> | [-> | ->]]; by eexists. }
  pose proof Hrun as (_ & twp & st1 & levels & Hwp & Hlev & Hst')%writeUca900_Ok.
  simpl in Hwp, Hst'.
  assert (Weights (selectUca900Table meta).2 = ∅) as Hw.
  { unfold selectUca900Table. by destruct Hname as [-> | [-> | ->]]. }
  pose proof (selectUca900Table_same meta) as (_ & Hv' & _).
  rewrite writeWeightPatches_no_weights in Hwp by congruence.
  injection Hwp as <- <-.
  eexists st', _. split; [done|]. subst st'. split.
  { simpl. by rewrite writeReorders_init, writeContractions_init. }
  split; [done|]. split.
  { simpl. rewrite !field_app, !field_optionalField_ne by done.
    by destruct (UpperCaseFirst meta). }
  split.
  { simpl. intros d l [Hd|Hd]%writeReorders_tables Hc; [|congruence].
    apply writeContractions_tables in Hd as [Hd|[l' Hd]]; [done | congruence]. }
  split.
  - intros Hzh. unfold selectUca900Table. rewrite Hzh. simpl.
    split; [done|]. rewrite ?writeReorders_nil by done. split.
    + simpl. rewrite !field_app, !field_optionalField_ne by done.
      by destruct (UpperCaseFirst meta).
    + simpl. intros d l Hd Hc.
      apply writeContractions_tables in Hd as [Hd|[l' Hd]]; [done | congruence].
  - intros Hnzh. unfold selectUca900Table.
    destruct Hname as [? | [-> | ->]]; done.
Qed.

(** C6, as the generator has it: a collation named [tis620_bin] is skipped.
    It is not in [collationsUnsupportedByName], which lists exactly the
    collations that reach the [default] case of the routing, and no
    registration is printed under its name. *)
Theorem tis620_bin_skipped (env : environment) (all : list collationMetadata)
    (file : generatedFile) :
  main env all = Ok file →
  ("tis620_bin" ∉ (collationsUnsupportedByName file).*1)
  ∧ (∀ r, r ∈ fileInit file →
       field "name" (fields r) ≠ Some (GoString "tis620_bin"))
  ∧ collationsUnsupportedByName file
      = map (λ meta, (Name meta, Number meta)) (List.filter (reachesDefault env) all).
Proof.
  intros [Huns Hregs]%main_Ok. split; [|split; [|done]].
  - rewrite Huns. intros Hin.
    apply list_elem_of_fmap in Hin as ([name num] & Hname & Hin). simpl in Hname.
    apply list_elem_of_In, in_map_iff in Hin as (m & [= Hm _] & Hf).
    apply filter_In in Hf as [_ Hd]. unfold reachesDefault in Hd.
    rewrite Hm, <- Hname in Hd. simpl in Hd. done.
  - intros r Hr. rewrite Forall_forall in Hregs.
    destruct (Hregs r Hr) as (m & _ & Hne & Hname & _).
    rewrite Hname. congruence.
Qed.

(** ** The theorems at the sample dump *)

Lemma NoDup_fmap_inj_on {A B} (f : A → B) (l : list A) (x y : A) :
  NoDup (f <$> l) → x ∈ l → y ∈ l → f x = f y → x = y.
Proof.
  induction l as [|a l IH]; simpl; intros Hnd Hx Hy Hf.
  - by apply elem_of_nil in Hx.
  - apply NoDup_cons in Hnd as [Hnotin Hnd].
    apply elem_of_cons in Hx as [->|Hx], Hy as [->|Hy]; auto.
    + exfalso. apply Hnotin. rewrite Hf. by apply list_elem_of_fmap_2.
    + exfalso. apply Hnotin. rewrite <- Hf. by apply list_elem_of_fmap_2.
Qed.

(** The two conditions on the keys of a tailoring, checked on the list of
    its entries. *)
Lemma keys_parse (orgWeights modWeights : tailoringWeights) :
  Forall (λ kv, is_Some (codepointOf kv.1)) (map_to_list modWeights) →
  ∀ key val, modWeights !! key = Some val →
    tailoredAway orgWeights key val → is_Some (codepointOf key).
Proof.
  intros Hall key val Hk _. rewrite Forall_forall in Hall.
  by apply (Hall (key, val)), elem_of_map_to_list.
Qed.

Lemma keys_distinct (orgWeights modWeights : tailoringWeights) :
  NoDup (codepointOf <$> (map_to_list modWeights).*1) →
  ∀ k1 k2 v1 v2, modWeights !! k1 = Some v1 → modWeights !! k2 = Some v2 →
    tailoredAway orgWeights k1 v1 → tailoredAway orgWeights k2 v2 →
    codepointOf k1 = codepointOf k2 → k1 = k2.
Proof.
  intros Hnd k1 k2 v1 v2 H1 H2 _ _ Hp.
  apply (NoDup_fmap_inj_on codepointOf (map_to_list modWeights).*1); [done | | | done].
  - apply list_elem_of_fmap. exists (k1, v1). by rewrite elem_of_map_to_list.
  - apply list_elem_of_fmap. exists (k2, v2). by rewrite elem_of_map_to_list.
Qed.

Lemma diffMaps_sorted_difference_witness :
  ∃ diff, diffMaps sampleOrg sampleLetters = Ok diff
    ∧ diff = [ {| uca.Codepoint := 0xC5; uca.Patch := [0x1C48] |};
               {| uca.Codepoint := 0xE9; uca.Patch := [0x1C47; 0x20] |};
               {| uca.Codepoint := 0xABCD; uca.Patch := [0xFB41] |};
               {| uca.Codepoint := 0x1F600; uca.Patch := [0xFBC3; 0xF600] |} ]
    ∧ (∀ cp patch,
         {| uca.Codepoint := cp; uca.Patch := patch |} ∈ diff
         ↔ ∃ key, codepointOf key = Some cp ∧ sampleLetters !! key = Some patch
             ∧ tailoredAway sampleOrg key patch)
    ∧ StronglySorted (λ a b, uca.Codepoint a < uca.Codepoint b) diff.
Proof.
  destruct (diffMaps_sorted_difference sampleOrg sampleLetters)
    as (diff & Hdiff & Hmem & Hsorted & _).
  - apply keys_parse. apply (bool_decide_unpack _). vm_compute. exact I.
  - apply keys_distinct. apply (bool_decide_unpack _). vm_compute. exact I.
  - exists diff. split; [exact Hdiff|]. split; [|split; [exact Hmem | exact Hsorted]].
    vm_compute in Hdiff. injection Hdiff as <-. reflexivity.
Defined.

(** C9, as stated for every tailoring, fails where two keys name one
    codepoint: both are listed, so that the list is not strictly ascending
    and the codepoint has two patches. *)
Lemma diffMaps_aliased_keys_not_strict :
  ∃ diff, diffMaps ∅ aliasedMod = Ok diff
    ∧ uca.Codepoint <$> diff = [0x41; 0x41; 0x42]
    ∧ {| uca.Codepoint := 0x41; uca.Patch := [1] |} ∈ diff
    ∧ {| uca.Codepoint := 0x41; uca.Patch := [2] |} ∈ diff
    ∧ ¬ StronglySorted (λ a b, uca.Codepoint a < uca.Codepoint b) diff.
Proof.
  destruct (diffMaps ∅ aliasedMod) as [diff|why] eqn:Hdiff;
    vm_compute in Hdiff; [|discriminate Hdiff].
  injection Hdiff as <-. eexists. split; [reflexivity|]. split; [reflexivity|].
  split; [set_solver|]. split; [set_solver|].
  intros Hs. inversion Hs as [|p l _ Hall]; subst.
  inversion Hall as [|q l' Hlt _]; subst. simpl in Hlt. lia.
Qed.

Example diffMaps_sample :
  diffMaps sampleOrg sampleMod
  = Ok [ {| uca.Codepoint := 0x41; uca.Patch := [1; 5] |};
         {| uca.Codepoint := 0x43; uca.Patch := [7] |};
         {| uca.Codepoint := 0x44; uca.Patch := [9; 9] |} ].
Proof. vm_compute. reflexivity. Qed.

Lemma uca900_levels_from_suffix_witness :
  ∃ st' r, writeUca900 sampleEnv sampleBase
             (sampleMeta "utf8mb4_0900_as_cs" "utf8mb4" "uca_900" 278 900 false)
             emptyState = Ok st'
    ∧ init st' = [r]
    ∧ field "levelsForCompare" (fields r) = Some (GoInt 3).
Proof.
  destruct (uca900_levels_from_suffix sampleEnv sampleBase
              (sampleMeta "utf8mb4_0900_as_cs" "utf8mb4" "uca_900" 278 900 false)
              emptyState) as (Hok & Hruns & _).
  destruct Hruns as [st' Hst'].
  - reflexivity.
  - intros base. exists []. apply diffMaps_empty.
  - intros (_ & _ & H & _). vm_compute in H. discriminate.
  - destruct (Hok st' Hst') as (r & levels & Hinit & _ & Hfield & _ & _ & _ & H3 & _).
    exists st', r. split; [done|]. split; [done|].
    rewrite Hfield. f_equal. f_equal. apply H3. vm_compute. reflexivity.
Defined.

Lemma legacy_table_from_version_witness :
  ∃ st' r, writeUcaLegacy sampleEnv sampleBase
             (sampleMeta "utf8mb4_unicode_520_ci" "utf8mb4" "any_uca" 246 520 false)
             emptyState = Ok st'
    ∧ init st' = [r]
    ∧ field "weights" (fields r) = Some (GoIdentD "uca.WeightTable_uca" 520)
    ∧ field "maxCodepoint" (fields r) = Some (GoInt 0x10FFFF).
Proof.
  destruct (legacy_table_from_version sampleEnv sampleBase
              (sampleMeta "utf8mb4_unicode_520_ci" "utf8mb4" "any_uca" 246 520 false)
              emptyState) as (Hok & Hruns & _).
  destruct Hruns as [st' Hst'].
  - right. reflexivity.
  - intros base. exists []. apply diffMaps_empty.
  - destruct (Hok st' Hst') as (r & Hinit & _ & _ & Hw & [[Hv _] | [_ Hmax]]).
    + vm_compute in Hv. discriminate.
    + by exists st', r.
Defined.

Lemma zh_ja_drop_tailoring_witness :
  ∃ st' r, writeUca900 sampleEnv sampleBase sampleZh emptyState = Ok st'
    ∧ init st' = [r]
    ∧ field "weights" (fields r) = Some (GoIdent "uca.WeightTable_uca900_zh")
    ∧ field "tailoring" (fields r) = None
    ∧ field "reorder" (fields r) = None
    ∧ tables st' = [].
Proof.
  destruct (zh_ja_drop_tailoring sampleEnv sampleBase sampleZh emptyState)
    as (st' & r & Hrun & Hinit & _ & Htail & _ & Hzh & _).
  - reflexivity.
  - left. reflexivity.
  - destruct (Hzh eq_refl) as (Hw & Hre & _).
    exists st', r. do 5 (split; [done|]).
    vm_compute in Hrun. by injection Hrun as <-.
Defined.

Lemma tis620_bin_skipped_witness :
  ∃ file, main sampleEnv sampleDump = Ok file
    ∧ ("tis620_bin" ∉ (collationsUnsupportedByName file).*1)
    ∧ collationsUnsupportedByName file = [("cp1250_czech_cs", 34)].
Proof.
  destruct (main sampleEnv sampleDump) as [file|] eqn:Hmain.
  - destruct (tis620_bin_skipped sampleEnv sampleDump file Hmain) as (Hno & _ & _).
    exists file. split; [done|]. split; [done|].
    vm_compute in Hmain. by injection Hmain as <-.
  - vm_compute in Hmain. discriminate.
Defined.

(** C6, as stated, fails: the dump holds [tis620_bin], the generator
    returns, and the map [collationsUnsupportedByName] it writes has no entry
    of that name. *)
Lemma tis620_bin_not_unsupported :
  ¬ (∀ env all file,
       main env all = Ok file →
       (∃ meta, meta ∈ all ∧ Name meta = "tis620_bin") →
       "tis620_bin" ∈ (collationsUnsupportedByName file).*1).
Proof.
  intros Hlisted.
  destruct (main sampleEnv sampleDump) as [file|] eqn:Hmain.
  - specialize (Hlisted sampleEnv sampleDump file Hmain).
    vm_compute in Hmain. injection Hmain as <-.
    assert ("tis620_bin" ∈ ["cp1250_czech_cs"]) as Hin.
    { apply Hlisted.
      exists (sampleMeta "tis620_bin" "tis620" "8bit_bin" 89 0 true).
      split; [|reflexivity]. unfold sampleDump. set_solver. }
    apply list_elem_of_singleton in Hin. discriminate.
  - vm_compute in Hmain. discriminate.
Qed.

(** * Properties of the weight engine *)

Module EngineFacts.
Import Engine.

(** ** Truncation *)

Lemma emit_from (maxLen : option nat) (bs dst : list Z) :
  fold_left (appendBounded maxLen) bs dst
  = match maxLen with
    | Some n => if (length dst <? n)%nat then dst ++ take (n - length dst) bs else dst
    | None => dst ++ bs
    end.
Proof.
  revert dst. induction bs as [|b bs IH]; intros dst; simpl.
  - destruct maxLen as [n|]; [|by rewrite app_nil_r].
    destruct (length dst <? n)%nat; by rewrite ?take_nil, ?app_nil_r.
  - rewrite IH. unfold appendBounded. destruct maxLen as [n|].
    + destruct (Nat.ltb_spec (length dst) n) as [Hlt|Hge].
      * rewrite length_app. simpl.
        replace (n - length dst)%nat with (S (n - (length dst + 1))) by lia.
        simpl. rewrite <- app_assoc. simpl.
        destruct (Nat.ltb_spec (length dst + 1) n) as [Hlt'|Hge']; [done|].
        replace (n - (length dst + 1))%nat with 0%nat by lia. by rewrite take_0.
      * destruct (Nat.ltb_spec (length dst) n); [lia | done].
    + by rewrite <- app_assoc.
Qed.

Lemma emit_unbounded (bs : list Z) : emit None bs = bs.
Proof. unfold emit. by rewrite emit_from. Qed.

Lemma emit_bounded (n : nat) (bs : list Z) : emit (Some n) bs = take n bs.
Proof.
  unfold emit. rewrite emit_from. simpl.
  destruct (Nat.ltb_spec 0 n) as [Hlt|Hge]; [by rewrite Nat.sub_0_r|].
  replace n with 0%nat by lia. by rewrite take_0.
Qed.

Lemma WeightString_unbounded (c : Collation) (src full : list Z) :
  WeightString c src None = Done full ↔ keyBytes c src = Done full.
Proof.
  unfold WeightString. destruct (keyBytes c src) as [bs|e]; [|done].
  by rewrite emit_unbounded.
Qed.

(** ** PAD SPACE *)

Lemma dropLeadingSpaces_replicate (n : nat) (cps : list Z) :
  dropLeadingSpaces (replicate n 32 ++ cps) = dropLeadingSpaces cps.
Proof. induction n as [|n IH]; simpl; done. Qed.

Lemma rev_replicate (n : nat) (x : Z) : rev (replicate n x) = replicate n x.
Proof.
  induction n as [|n IH]; simpl; [done|]. rewrite IH.
  clear IH. induction n as [|n IH]; simpl; [done|]. by rewrite IH.
Qed.

Lemma stripTrailingSpaces_app (cps : list Z) (n : nat) :
  stripTrailingSpaces (cps ++ replicate n 32) = stripTrailingSpaces cps.
Proof.
  unfold stripTrailingSpaces.
  by rewrite rev_app_distr, rev_replicate, dropLeadingSpaces_replicate.
Qed.

(** ** Contractions *)

Lemma matchFrom_spec (best : option Contraction) (ctrs : list Contraction)
    (cps : list Z) :
  (∀ b, best = Some b → applies b cps = true) →
  match matchFrom best ctrs cps with
  | Some r =>
      applies r cps = true
      ∧ (best = Some r ∨ r ∈ ctrs)
      ∧ (∀ b, best = Some b → (length (path b) ≤ length (path r))%nat)
      ∧ (∀ ctr, ctr ∈ ctrs → applies ctr cps = true →
           (length (path ctr) ≤ length (path r))%nat)
  | None => best = None ∧ ∀ ctr, ctr ∈ ctrs → applies ctr cps = false
  end.
Proof.
  revert best. induction ctrs as [|ctr ctrs IH]; intros best Hbest; simpl.
  - destruct best as [b|].
    + split; [by apply Hbest|]. split; [by left|]. split.
      * by intros ? [= ->].
      * by intros ? ?%elem_of_nil.
    + split; [done|]. by intros ? ?%elem_of_nil.
  - destruct (applies ctr cps) eqn:Happ; simpl.
    + destruct (longer best ctr) eqn:Hlong.
      * specialize (IH (Some ctr)).
        destruct (matchFrom (Some ctr) ctrs cps) as [r|].
        -- destruct IH as (Hr & Hfrom & Hge & Hmax); [by intros ? [= <-]|].
           split; [done|]. split.
           { right. destruct Hfrom as [[= <-]|?]; [by left | by right]. }
           split.
           { intros b ->. simpl in Hlong. apply Nat.ltb_lt in Hlong.
             specialize (Hge ctr eq_refl). lia. }
           intros c' [->|Hc']%elem_of_cons Hc; [by apply Hge | by apply Hmax].
        -- destruct IH as [[=] _]. by intros ? [= <-].
      * destruct best as [b|]; [|done]. simpl in Hlong. apply Nat.ltb_ge in Hlong.
        specialize (IH (Some b) Hbest).
        destruct (matchFrom (Some b) ctrs cps) as [r|].
        -- destruct IH as (Hr & Hfrom & Hge & Hmax).
           split; [done|]. split.
           { destruct Hfrom as [?|?]; [by left | right; by right]. }
           split; [done|].
           intros c' [->|Hc']%elem_of_cons Hc; [|by apply Hmax].
           specialize (Hge b eq_refl). lia.
        -- by destruct IH as [[=] _].
    + specialize (IH best Hbest).
      destruct (matchFrom best ctrs cps) as [r|].
      * destruct IH as (Hr & Hfrom & Hge & Hmax).
        split; [done|]. split.
        { destruct Hfrom as [?|?]; [by left | right; by right]. }
        split; [done|].
        intros c' [->|Hc']%elem_of_cons Hc; [congruence | by apply Hmax].
      * destruct IH as [-> Hnone]. split; [done|].
        intros c' [->|Hc']%elem_of_cons; [done | by apply Hnone].
Qed.

Lemma matchContraction_Some (ctrs : list Contraction) (cps : list Z) (r : Contraction) :
  matchContraction ctrs cps = Some r →
  r ∈ ctrs ∧ applies r cps = true
  ∧ ∀ ctr, ctr ∈ ctrs → applies ctr cps = true →
      (length (path ctr) ≤ length (path r))%nat.
Proof.
  unfold matchContraction. intros H.
  pose proof (matchFrom_spec None ctrs cps) as Hspec. rewrite H in Hspec.
  destruct Hspec as (Hr & [[=]|Hin] & _ & Hmax); done.
Qed.

Lemma matchContraction_None (ctrs : list Contraction) (cps : list Z) :
  matchContraction ctrs cps = None ↔ ∀ ctr, ctr ∈ ctrs → applies ctr cps = false.
Proof.
  unfold matchContraction.
  pose proof (matchFrom_spec None ctrs cps) as Hspec. split.
  - intros H. rewrite H in Hspec. by apply Hspec.
  - intros Hnone. destruct (matchFrom None ctrs cps) as [r|]; [|done].
    destruct Hspec as (Hr & [[=]|Hin] & _); [done|].
    by rewrite (Hnone r Hin) in Hr.
Qed.

Lemma applies_nonempty (ctr : Contraction) (cps : list Z) :
  applies ctr cps = true → (1 ≤ length (path ctr))%nat.
Proof.
  unfold applies. rewrite !andb_true_iff, negb_true_iff, bool_decide_eq_false.
  intros [[Hne _] _]. destruct (path ctr); [done | simpl; lia].
Qed.

Lemma applies_prefix (ctr : Contraction) (cps : list Z) :
  applies ctr cps = true → path ctr `prefix_of` cps.
Proof.
  unfold applies. rewrite !andb_true_iff, bool_decide_eq_true.
  intros [[_ Htake] _]. rewrite <- Htake. apply prefix_take.
Qed.

Lemma scan_skip (u : UcaData) (k : nat) (cps : list Z) :
  scan u k cps = scan u 0 (drop k cps).
Proof.
  revert k. induction cps as [|cp rest IH]; intros [|k]; simpl; by rewrite ?IH.
Qed.

(** The scan at a position, by the outcome of the match there. *)
Lemma scan_step (u : UcaData) (cp : Z) (rest : list Z) :
  scan u 0 (cp :: rest)
  = match matchContraction (contractions u) (cp :: rest) with
    | Some ctr => weights ctr :: scan u 0 (drop (length (path ctr)) (cp :: rest))
    | None => lookupVector u cp :: scan u 0 rest
    end.
Proof.
  simpl. destruct (matchContraction _ _) as [ctr|] eqn:Hm; [|done].
  apply matchContraction_Some in Hm as (_ & Happ%applies_nonempty & _).
  rewrite scan_skip. destruct (length (path ctr)) as [|n]; [lia|].
  simpl. by rewrite Nat.sub_0_r.
Qed.

(** ** Truncation, padding and contractions *)

(** C3: for every collation, input and [N] below the length of the
    untruncated weight string, the weight string cut at [N] is the first [N]
    bytes of the untruncated one. *)
Theorem WeightString_truncation_prefix (c : Collation) (s full : list Z) (N : nat) :
  WeightString c s None = Done full →
  (N < length full)%nat →
  WeightString c s (Some N) = Done (take N full)
  ∧ length (take N full) = N.
Proof.
  intros Hfull%WeightString_unbounded HN. unfold WeightString.
  rewrite Hfull, emit_bounded. split; [done|]. rewrite length_take. lia.
Qed.

(** C4: for a PAD-SPACE collation, an input and the same input followed by
    any number of space codepoints have the same weight string, at every
    maximum length. *)
Theorem pad_space_trailing_spaces (c : Collation) (a b cps : list Z) (n : nat)
    (maxLen : option nat) :
  isPadSpace c = true →
  Decode (collCharset c) a = Some cps →
  Decode (collCharset c) b = Some (cps ++ replicate n 32) →
  WeightString c a maxLen = WeightString c b maxLen.
Proof.
  unfold isPadSpace, WeightString, keyBytes. intros Hpad Ha Hb.
  destruct (variant c) as [| | | | |u|u]; try done;
    rewrite Ha, Hb; unfold ucaWeights; rewrite Hpad;
    by rewrite stripTrailingSpaces_app.
Qed.

(** C5: at a scan position where some registered contraction applies, the
    scan applies a registered contraction whose path is at least as long as
    that of every contraction applying there, emits its weights and resumes
    after its path, so that no codepoint of the path is looked up on its
    own: with rules for "c" and for "ch", the input "ch" gets the weights of
    the "ch" rule. *)
Theorem contraction_longest_first (u : UcaData) (cps : list Z) (ctr : Contraction) :
  ctr ∈ contractions u →
  applies ctr cps = true →
  ∃ best, matchContraction (contractions u) cps = Some best
    ∧ best ∈ contractions u
    ∧ applies best cps = true
    ∧ (length (path ctr) ≤ length (path best))%nat
    ∧ (∀ other, other ∈ contractions u → applies other cps = true →
         (length (path other) ≤ length (path best))%nat)
    ∧ scan u 0 cps = weights best :: scan u 0 (drop (length (path best)) cps).
Proof.
  intros Hin Happ.
  destruct (matchContraction (contractions u) cps) as [best|] eqn:Hm.
  - pose proof Hm as (Hbest & Hbapp & Hmax)%matchContraction_Some.
    exists best. do 3 (split; [done|]). split; [by apply Hmax|]. split; [done|].
    destruct cps as [|cp rest]; [|by rewrite scan_step, Hm].
    pose proof (applies_nonempty _ _ Hbapp) as Hlen.
    apply applies_prefix, prefix_nil_inv in Hbapp.
    rewrite Hbapp in Hlen. simpl in Hlen. lia.
  - rewrite matchContraction_None in Hm. by rewrite (Hm ctr Hin) in Happ.
Qed.

(** ** The same at the sample collation *)

Import EngineSample.

Lemma WeightString_truncation_prefix_witness :
  ∃ full,
    WeightString sampleCollation [97; 98; 99] None = Done full
    ∧ WeightString sampleCollation [97; 98; 99] (Some 5%nat) = Done (take 5 full).
Proof.
  eexists. split; [vm_compute; reflexivity|].
  apply (WeightString_truncation_prefix sampleCollation [97; 98; 99]).
  - vm_compute. reflexivity.
  - vm_compute. lia.
Defined.

Lemma pad_space_trailing_spaces_witness :
  WeightString sampleCollation [97; 98; 99] None
  = WeightString sampleCollation [97; 98; 99; 32; 32; 32] None.
Proof.
  apply (pad_space_trailing_spaces sampleCollation _ _ [97; 98; 99] 3 None);
    reflexivity.
Defined.

Lemma contraction_longest_first_witness :
  matchContraction (contractions sampleUca) [99; 104] = Some ruleCH
  ∧ scan sampleUca 0 [99; 104] = [weights ruleCH].
Proof.
  destruct (contraction_longest_first sampleUca [99; 104] ruleC)
    as (best & Hm & _ & _ & _ & _ & Hscan).
  - left.
  - reflexivity.
  - assert (best = ruleCH) as ->
      by (vm_compute in Hm; injection Hm as <-; reflexivity).
    split; [done|]. rewrite Hscan. reflexivity.
Defined.

(** The sample keys, as bytes. *)
Example WeightString_abc :
  WeightString sampleCollation [97; 98; 99] None
  = Done [0x1C; 0x47; 0x1C; 0x60; 0x1C; 0x7A; 0; 0x20; 0; 0x20; 0; 0x20;
          0; 0x02; 0; 0x02; 0; 0x02].
Proof. vm_compute. reflexivity. Qed.

Example WeightString_ch :
  WeightString sampleCollation [99; 104] None
  = Done [0x1D; 0x19; 0; 0x20; 0; 0x02].
Proof. vm_compute. reflexivity. Qed.

End EngineFacts.

(** * Further properties of the generator *)

(** ** [diffMaps] without conditions on the keys *)

Lemma differsAt_same (val : list Z) : differsAt val val = false.
Proof. induction val as [|x val IH]; simpl; [done|]. by rewrite Z.eqb_refl. Qed.

Lemma differing_lookup orgWeights modWeights key val :
  differing orgWeights modWeights !! key = Some val
  ↔ modWeights !! key = Some val ∧ tailoredAway orgWeights key val.
Proof.
  unfold differing. rewrite map_lookup_filter_Some. simpl. by rewrite differs_true.
Qed.

Lemma diffMaps_unfold orgWeights modWeights :
  diffMaps orgWeights modWeights
  = rbind (rmapM toPatch (map_to_list (differing orgWeights modWeights)))
          (λ diff, Ok (merge_sort byCodepoint diff)).
Proof.
  unfold diffMaps, differing.
  destruct (Nat.eqb_spec (size modWeights) 0) as [Hsz|Hsz]; [|done].
  apply map_size_empty_iff in Hsz. subst modWeights.
  by rewrite map_filter_empty, map_to_list_empty.
Qed.

(** X1: a tailoring all of whose entries are in the base table with the same
    vector gives no patch, whatever its keys look like, and
    [writeWeightPatches] then prints nothing and names no table. *)
Theorem writeWeightPatches_base_entries (env : environment) (bw : baseWeights)
    (meta : collationMetadata) (st : genState) (base : tailoringWeights) :
  (UCAVersion meta = 400 ∧ base = baseWeightsUca400 bw)
  ∨ (UCAVersion meta = 520 ∧ base = baseWeightsUca520 bw)
  ∨ (UCAVersion meta = 900 ∧ base = baseWeightsUca900 bw) →
  (∀ key val, Weights meta !! key = Some val → base !! key = Some val) →
  diffMaps base (Weights meta) = Ok []
  ∧ writeWeightPatches env bw meta st = Ok ("", st).
Proof.
  intros Hbase Hsub.
  assert (diffMaps base (Weights meta) = Ok []) as Hdiff.
  { rewrite diffMaps_unfold.
    assert (differing base (Weights meta) = ∅) as ->.
    { apply map_eq. intros key. rewrite lookup_empty.
      destruct (differing base (Weights meta) !! key) as [val|] eqn:Hk; [|done].
      apply differing_lookup in Hk as [Hk Ht]. apply differs_true in Ht.
      unfold differs in Ht. rewrite (Hsub key val Hk), Nat.eqb_refl in Ht.
      simpl in Ht. by rewrite differsAt_same in Ht. }
    by rewrite map_to_list_empty. }
  split; [done|]. unfold writeWeightPatches.
  destruct Hbase as [[-> ->] | [[-> ->] | [-> ->]]]; simpl; by rewrite Hdiff.
Qed.

(** The panic of the loop over [diffMap] is that of one of its keys. *)
Lemma rmapM_toPatch_Panic_key (kvs : list (string * list Z)) (why : failure) :
  rmapM toPatch kvs = Panic why → ∃ kv, kv ∈ kvs ∧ toPatch kv = Panic why.
Proof.
  induction kvs as [|kv kvs IH]; simpl; [done|].
  intros [H | (p & _ & [H | (ps & _ & [=])]%rbind_Panic)]%rbind_Panic.
  - exists kv. split; [left | done].
  - destruct (IH H) as (kv' & Hin & Hkv'). exists kv'. split; [by right | done].
Qed.

Lemma rmapM_Ok_or_Panic {A B} (f : A → result B) (l : list A) :
  (∃ ys, rmapM f l = Ok ys) ∨ (∃ why, rmapM f l = Panic why).
Proof. destruct (rmapM f l) as [ys|why]; [left | right]; by eexists. Qed.

(** X2: [diffMaps] returns exactly when every key whose vector differs from
    the base has a codepoint to read, that is at least two bytes followed by
    what [strconv.ParseInt] accepts; otherwise it panics.  A panic is that of
    one differing key: the run-time panic of the slice expression [key[2:]]
    comes from a differing key shorter than two bytes, and [panic(err)] from
    a differing key of two bytes or more whose tail [ParseInt] refuses. *)
Theorem diffMaps_returns_iff (orgWeights modWeights : tailoringWeights) :
  ((∃ diff, diffMaps orgWeights modWeights = Ok diff)
   ↔ ∀ key val, modWeights !! key = Some val →
       tailoredAway orgWeights key val → is_Some (parseKey key))
  ∧ ((∃ key val, modWeights !! key = Some val
        ∧ tailoredAway orgWeights key val ∧ parseKey key = None)
     ↔ ∃ why, diffMaps orgWeights modWeights = Panic why)
  ∧ (diffMaps orgWeights modWeights = Panic SliceBoundsOutOfRange →
     ∃ key val, modWeights !! key = Some val ∧ tailoredAway orgWeights key val
       ∧ (String.length key < 2)%nat)
  ∧ (diffMaps orgWeights modWeights = Panic ParseIntError →
     ∃ key val, modWeights !! key = Some val ∧ tailoredAway orgWeights key val
       ∧ (2 ≤ String.length key)%nat
       ∧ ParseInt16_32 (string_of_list_ascii (drop 2 (bytesOf key))) = None)
  ∧ (∀ why, diffMaps orgWeights modWeights = Panic why →
       why = SliceBoundsOutOfRange ∨ why = ParseIntError).
Proof.
  rewrite diffMaps_unfold.
  set (kvs := map_to_list (differing orgWeights modWeights)).
  assert (Hkvs : ∀ key val, (key, val) ∈ kvs
            ↔ modWeights !! key = Some val ∧ tailoredAway orgWeights key val).
  { intros key val. unfold kvs. by rewrite elem_of_map_to_list, differing_lookup. }
  assert (Hok : (∃ diff, rmapM toPatch kvs = Ok diff)
            ↔ ∀ key val, modWeights !! key = Some val →
                tailoredAway orgWeights key val → is_Some (parseKey key)).
  { split.
    - intros [diff Hdiff] key val Hk Ht.
      apply rmapM_Ok_Forall2 in Hdiff.
      assert ((key, val) ∈ kvs) as Hin by by apply Hkvs.
      apply list_elem_of_lookup in Hin as [i Hi].
      destruct (Forall2_lookup_l _ _ _ _ _ Hdiff Hi) as (p & _ & Hp).
      apply toPatch_Ok in Hp as [Hp _]. by eexists.
    - intros Hparse. apply rmapM_total.
      apply Forall_forall. intros [key val] [Hk Ht]%Hkvs.
      destruct (Hparse key val Hk Ht) as [cp Hcp].
      eexists. by apply toPatch_Some. }
  assert (Hwhy : ∀ why,
            rbind (rmapM toPatch kvs) (λ diff, Ok (merge_sort byCodepoint diff))
            = Panic why →
            ∃ key val, modWeights !! key = Some val ∧ tailoredAway orgWeights key val
              ∧ toPatch (key, val) = Panic why).
  { intros why [H | (diff & _ & [=])]%rbind_Panic.
    apply rmapM_toPatch_Panic_key in H as ([key val] & [Hk Ht]%Hkvs & Hto).
    by exists key, val. }
  split; [|split; [|split; [|split]]].
  - rewrite <- Hok. split.
    + intros [diff (diff0 & Hdiff & _)%rbind_Ok]. by eexists.
    + intros [diff ->]. by eexists.
  - split.
    + intros (key & val & Hk & Ht & Hnone).
      destruct (rmapM_Ok_or_Panic toPatch kvs) as [Hdiff | [why ->]]; [|by eexists].
      destruct (proj1 Hok Hdiff key val Hk Ht) as [cp Hcp]. congruence.
    + intros [why (key & val & Hk & Ht & Hto)%Hwhy].
      exists key, val. do 2 (split; [done|]).
      apply toPatch_Panic in Hto as [[_ Hlen] | (_ & _ & Hnone)]; [|done].
      unfold parseKey, sliceFrom. simpl in Hlen.
      by destruct (Nat.leb_spec 2 (String.length key)); [lia|].
  - intros (key & val & Hk & Ht & Hto)%Hwhy.
    apply toPatch_Panic in Hto as [[_ Hlen] | ([=] & _)]. by exists key, val.
  - intros (key & val & Hk & Ht & Hto)%Hwhy.
    apply toPatch_Panic in Hto as [[[=] _] | (_ & Hlen & Hnone)].
    exists key, val. do 3 (split; [done|]).
    unfold parseKey, sliceFrom in Hnone. cbn [fst] in Hlen, Hnone.
    by destruct (Nat.leb_spec 2 (String.length key)); [|lia].
  - intros why (key & val & _ & _ & Hto)%Hwhy.
    apply toPatch_Panic in Hto as [[-> _] | [-> _]]; auto.
Qed.

Lemma Forall2_toPatch_length (kvs : list (string * list Z)) diff :
  Forall2 (λ kv p, toPatch kv = Ok p) kvs diff → length diff = length kvs.
Proof. intros H. by rewrite (Forall2_length _ _ _ H). Qed.

(** X3: whenever [diffMaps] returns, with no condition on the keys, its list
    holds one patch for each key whose vector differs from the base, each
    with the whole tailored vector, in ascending (not necessarily strictly
    ascending) order of codepoint. *)
Theorem diffMaps_one_patch_per_key (orgWeights modWeights : tailoringWeights)
    (diff : list uca.WeightPatch) :
  diffMaps orgWeights modWeights = Ok diff →
  length diff = size (differing orgWeights modWeights)
  ∧ (∀ cp patch,
       {| uca.Codepoint := cp; uca.Patch := patch |} ∈ diff
       ↔ ∃ key, parseKey key = Some cp ∧ modWeights !! key = Some patch
           ∧ tailoredAway orgWeights key patch)
  ∧ StronglySorted (λ a b, uca.Codepoint a ≤ uca.Codepoint b) diff.
Proof.
  rewrite diffMaps_unfold. intros (diff0 & Hdiff & [= <-])%rbind_Ok.
  apply rmapM_Ok_Forall2 in Hdiff.
  split; [|split].
  - rewrite merge_sort_Permutation, (Forall2_toPatch_length _ _ Hdiff).
    by rewrite length_map_to_list.
  - intros cp patch. rewrite merge_sort_Permutation. split.
    + intros Hin. apply list_elem_of_lookup in Hin as [i Hi].
      destruct (Forall2_lookup_r _ _ _ _ _ Hdiff Hi) as ([key val] & Hkv & Hp).
      apply toPatch_Ok in Hp as [Hcp Hpatch]. simpl in *. subst val.
      apply list_elem_of_lookup_2, elem_of_map_to_list, differing_lookup in Hkv
        as [Hk Ht].
      by exists key.
    + intros (key & Hcp & Hk & Ht).
      assert ((key, patch) ∈ map_to_list (differing orgWeights modWeights)) as Hin.
      { by apply elem_of_map_to_list, differing_lookup. }
      apply list_elem_of_lookup in Hin as [i Hi].
      destruct (Forall2_lookup_l _ _ _ _ _ Hdiff Hi) as (p & Hp & Hto).
      apply toPatch_Ok in Hto as [Hcp' Hpatch]. simpl in *.
      assert (p = {| uca.Codepoint := cp; uca.Patch := patch |}) as <-.
      { destruct p as [cp' patch']. simpl in *. congruence. }
      by eapply list_elem_of_lookup_2.
  - apply (StronglySorted_merge_sort byCodepoint).
Qed.

(** ** The codepoint of a key *)

Lemma hexDigit_range (c : ascii) (d : Z) : hexDigit c = Some d → 0 ≤ d < 16.
Proof.
  unfold hexDigit.
  repeat match goal with
  | |- context [if ?b then _ else _] => destruct b eqn:?
  end; intros [= <-]; lia.
Qed.

Lemma parseHexFrom_nonneg (ds : list ascii) (acc un : Z) :
  0 ≤ acc → parseHexFrom acc ds = Some un → 0 ≤ un.
Proof.
  revert acc. induction ds as [|c ds IH]; simpl; intros acc Hacc.
  - by intros [= <-].
  - destruct (hexDigit c) as [d|] eqn:Hd; [|done].
    apply hexDigit_range in Hd. apply IH. lia.
Qed.

Lemma parseHex_nonneg (ds : list ascii) (un : Z) : parseHex ds = Some un → 0 ≤ un.
Proof.
  destruct ds as [|c ds]; [done|]. unfold parseHex.
  by apply parseHexFrom_nonneg.
Qed.

Lemma ParseInt16_32_range (s : string) (n : Z) :
  ParseInt16_32 s = Some n → - 2 ^ 31 ≤ n < 2 ^ 31 ∧ s ≠ "".
Proof.
  unfold ParseInt16_32. destruct s as [|c s]; [done|].
  change (bytesOf (String c s)) with (c :: bytesOf s). cbv beta iota zeta.
  intros H. split; [|done].
  assert (Hcase : ∃ ds un, parseHex ds = Some un
            ∧ ((un <? 2 ^ 31) = true ∧ n = un ∨ (un <=? 2 ^ 31) = true ∧ n = - un)).
  { destruct (Ascii.eqb c "+"); [|destruct (Ascii.eqb c "-")];
      match type of H with
      | context [parseHex ?l] =>
          destruct (parseHex l) as [un|] eqn:Hun; [|done]; exists l, un
      end;
      (split; [done|]);
      match type of H with
      | context [if ?b then _ else _] => destruct b eqn:Hb; [|done]
      end; injection H as <-; auto. }
  destruct Hcase as (ds & un & Hun%parseHex_nonneg & [[Hlt ->] | [Hle ->]]).
  - apply Z.ltb_lt in Hlt. lia.
  - apply Z.leb_le in Hle. lia.
Qed.

(** X4: a key that [diffMaps] can turn into a patch has at least three bytes,
    its codepoint fits an [int32], so that the conversion [rune(cp)] keeps
    the value, and its first two bytes play no part: any key with the same
    bytes after the second names the same codepoint. *)
Theorem parseKey_int32 (key : string) (cp : Z) :
  parseKey key = Some cp →
  - 2 ^ 31 ≤ cp < 2 ^ 31
  ∧ (3 ≤ String.length key)%nat
  ∧ ∀ key', (2 ≤ String.length key')%nat →
      drop 2 (bytesOf key') = drop 2 (bytesOf key) →
      parseKey key' = Some cp.
Proof.
  unfold parseKey, sliceFrom.
  destruct (Nat.leb_spec 2 (String.length key)) as [Hlen|]; [|done].
  intros Hparse. pose proof Hparse as [Hrange Hne]%ParseInt16_32_range.
  split; [done|]. split.
  - destruct key as [|a [|b [|c rest]]]; simpl in *; try lia. by destruct Hne.
  - intros key' Hlen' Hsame.
    destruct (Nat.leb_spec 2 (String.length key')); [|lia]. by rewrite Hsame.
Qed.

(** ** [trimWeights] *)

Lemma triples_ind (P : list Z → Prop) :
  (∀ w, (length w ≤ 3)%nat → P w) →
  (∀ a b c d rest, P (d :: rest) → P (a :: b :: c :: d :: rest)) →
  ∀ w, P w.
Proof.
  intros Hshort Hstep w.
  assert (∀ n w, (length w ≤ n)%nat → P w) as Hall; [|by apply (Hall (length w))].
  clear w. induction n as [|n IH]; intros w Hlen.
  - apply Hshort. lia.
  - destruct w as [|a [|b [|c [|d rest]]]]; try (apply Hshort; simpl; lia).
    apply Hstep, IH. simpl in *. lia.
Qed.

Lemma trimWeights_short (w : list Z) : (length w ≤ 3)%nat → trimWeights w = w.
Proof.
  destruct w as [|a [|b [|c [|d rest]]]]; simpl; try done. intros Hlen. lia.
Qed.

Lemma trimWeights_step (a b c d : Z) (rest : list Z) :
  trimWeights (a :: b :: c :: d :: rest)
  = if (a =? 0) && (b =? 0) && (c =? 0) then []
    else a :: b :: c :: trimWeights (d :: rest).
Proof. done. Qed.





(** X6: trimming twice is trimming once, so the weights that
    [writeContractions] prints are stable under the generator's own cut. *)
Theorem trimWeights_idempotent (w : list Z) :
  trimWeights (trimWeights w) = trimWeights w.
Proof.
  induction w as [w Hshort|a b c d rest IH] using triples_ind.
  - rewrite (trimWeights_short w) by done. by apply trimWeights_short.
  - rewrite trimWeights_step.
    destruct ((a =? 0) && (b =? 0) && (c =? 0)) eqn:Hz; [done|].
    destruct (trimWeights (d :: rest)) as [|d' rest'] eqn:Ht; [done|].
    rewrite trimWeights_step, Hz. by rewrite IH.
Qed.

(** ** [dedupTable] *)

(** X7: a value met for the first time gets the name built from [name] and
    [coll], which is never empty; from then on the same value, under any
    name and collation, gets that first name back with [dedup] set, and the
    map is left as it is.  No call changes the name of a value met before. *)
Theorem dedupTable_round_trip (env : environment) (name coll : string)
    (val : tableValue) (dedup : gmap string string) :
  let '(table, found, dedup') := dedupTable env name coll val dedup in
  (found = false → table = name +:+ "_" +:+ coll ∧ table ≠ "")
  ∧ (found = true → dedup !! gosyntax env val = Some table ∧ dedup' = dedup)
  ∧ dedup' !! gosyntax env val = Some table
  ∧ (∀ name' coll', dedupTable env name' coll' val dedup' = (table, true, dedup'))
  ∧ (∀ raw t, dedup !! raw = Some t → dedup' !! raw = Some t).
Proof.
  unfold dedupTable.
  destruct (dedup !! gosyntax env val) as [existing|] eqn:Hseen.
  - split; [done|]. split; [done|]. split; [done|]. split; [|done].
    intros name' coll'. by rewrite Hseen.
  - split.
    { intros _. split; [done|]. destruct name; done. }
    split; [done|]. split; [by rewrite lookup_insert_eq|]. split.
    + intros name' coll'. by rewrite lookup_insert_eq.
    + intros raw t Hraw. rewrite lookup_insert_ne; [done|]. congruence.
Qed.

(** ** Registrations refer to declared tables *)

Lemma extends_refl (st : genState) : extends st st.
Proof. done. Qed.

Lemma extends_trans (st1 st2 st3 : genState) :
  extends st1 st2 → extends st2 st3 → extends st1 st3.
Proof.
  intros (Hi1 & Hn1 & Hs1) (Hi2 & Hn2 & Hs2). split; [congruence|]. split; auto.
Qed.

Lemma extends_names (st st' : genState) (x : string) :
  extends st st' → x ∈ declaredNames st → x ∈ declaredNames st'.
Proof. intros (_ & H & _). apply H. Qed.

Lemma extends_seen (st st' : genState) :
  extends st st' → seenDeclared st → seenDeclared st'.
Proof. by intros (_ & _ & H). Qed.

(** The common core of the writers of tables: look the value up, and print
    a declaration under the name obtained unless the value was seen. *)
Lemma dedup_print_extends env name coll val printed st :
  let '(table, found, seen) := dedupTable env name coll val (seenTables st) in
  let st' := if found then setSeen seen st
             else printTable {| varName := table; contents := printed |}
                    (setSeen seen st) in
  extends st st' ∧ (seenDeclared st → table ≠ "" ∧ table ∈ declaredNames st').
Proof.
  unfold dedupTable.
  destruct (seenTables st !! gosyntax env val) as [existing|] eqn:Hseen.
  - split; [done|]. intros Hsd. by apply (Hsd _ _ Hseen).
  - assert (name +:+ "_" +:+ coll ≠ "") as Hne by (destruct name; done).
    assert (∀ x, x ∈ declaredNames st →
              x ∈ declaredNames (printTable {| varName := name +:+ "_" +:+ coll;
                                               contents := printed |}
                                   (setSeen (<[gosyntax env val:=name +:+ "_" +:+ coll]>
                                               (seenTables st)) st))) as Hmono.
    { intros x Hx. unfold declaredNames. simpl. rewrite fmap_app.
      apply elem_of_app. by left. }
    assert (name +:+ "_" +:+ coll
              ∈ declaredNames (printTable {| varName := name +:+ "_" +:+ coll;
                                             contents := printed |}
                                 (setSeen (<[gosyntax env val:=name +:+ "_" +:+ coll]>
                                             (seenTables st)) st))) as Hnew.
    { unfold declaredNames. simpl. rewrite fmap_app. apply elem_of_app. right.
      simpl. by apply list_elem_of_singleton. }
    split; [|done]. split; [done|]. split; [done|].
    intros Hsd raw t. simpl.
    destruct (decide (gosyntax env val = raw)) as [<-|Hraw].
    + rewrite lookup_insert_eq. by intros [= <-].
    + rewrite lookup_insert_ne by done. intros Ht.
      destruct (Hsd _ _ Ht) as [? ?]. split; [done | by apply Hmono].
Qed.

Lemma printDeduplicated_extends env name coll val printed st :
  extends st (printDeduplicated env name coll val printed st).2
  ∧ (seenDeclared st →
     (printDeduplicated env name coll val printed st).1 ≠ ""
     ∧ (printDeduplicated env name coll val printed st).1
         ∈ declaredNames (printDeduplicated env name coll val printed st).2).
Proof.
  pose proof (dedup_print_extends env name coll val printed st) as H.
  unfold printDeduplicated.
  destruct (dedupTable env name coll val (seenTables st)) as [[t found] seen].
  by destruct found.
Qed.

Lemma writeWeightPatches_extends env bw meta st table st' :
  writeWeightPatches env bw meta st = Ok (table, st') →
  extends st st' ∧ (seenDeclared st → table = "" ∨ table ∈ declaredNames st').
Proof.
  unfold writeWeightPatches. intros H.
  apply rbind_Ok in H as (base & _ & H). apply rbind_Ok in H as (diff & _ & H).
  destruct (0 <? length diff)%nat.
  - pose proof (dedup_print_extends env "weightTailoring" (Name meta)
                  (PatchTable diff) (PatchTable diff) st) as Hcore.
    destruct (dedupTable _ _ _ _ _) as [[t found] seen].
    destruct found; injection H as <- <-;
      (split; [apply Hcore | intros Hsd; right; by apply Hcore]).
  - injection H as <- <-. split; [done | by left].
Qed.

Lemma writeContractions_extends env meta st :
  extends st (writeContractions env meta st).2
  ∧ (seenDeclared st →
     (writeContractions env meta st).1 = ""
     ∨ (writeContractions env meta st).1
         ∈ declaredNames (writeContractions env meta st).2).
Proof.
  unfold writeContractions.
  destruct (0 <? length (Contractions meta))%nat; [|split; [done | by left]].
  pose proof (dedup_print_extends env "contractions" (Name meta)
                (ContractionTable (Contractions meta))
                (ContractionTable (map trimContraction (Contractions meta))) st)
    as Hcore.
  destruct (dedupTable _ _ _ _ _) as [[t found] seen].
  destruct found; (split; [apply Hcore | intros Hsd; right; by apply Hcore]).
Qed.

Lemma writeReorders_extends env meta st :
  extends st (writeReorders env meta st).2
  ∧ (seenDeclared st →
     (writeReorders env meta st).1 = ""
     ∨ (writeReorders env meta st).1
         ∈ declaredNames (writeReorders env meta st).2).
Proof.
  unfold writeReorders.
  destruct (0 <? length (Reorder meta))%nat; [|split; [done | by left]].
  pose proof (dedup_print_extends env "reorder" (Name meta)
                (ReorderTable (Reorder meta)) (ReorderTable (Reorder meta)) st)
    as Hcore.
  destruct (dedupTable _ _ _ _ _) as [[t found] seen].
  destruct found; (split; [apply Hcore | intros Hsd; right; by apply Hcore]).
Qed.

Lemma tableRefsOf_app (fs1 fs2 : list (string * goValue)) :
  tableRefsOf (fs1 ++ fs2) = tableRefsOf fs1 ++ tableRefsOf fs2.
Proof.
  induction fs1 as [|[k v] fs1 IH]; simpl; [done|]. by rewrite IH, app_assoc.
Qed.

Lemma refs_optionalField (names : list string) (k table : string) :
  String.eqb k "weights" || String.eqb k "unicase" = false →
  table = "" ∨ table ∈ names →
  Forall (λ t, t ∈ names) (tableRefsOf (optionalField k table)).
Proof.
  intros Hk Ht. unfold optionalField.
  destruct (String.eqb_spec table "") as [->|Hne]; simpl; [constructor|].
  rewrite Hk. simpl. constructor; [|constructor]. by destruct Ht.
Qed.

Lemma identsOf_struct (ty : string) (fs : list (string * goValue)) :
  identsOf (GoStruct ty fs) = flat_map (λ kv, identsOf kv.2) fs.
Proof.
  simpl. induction fs as [|[k v] fs IH]; [done|]. simpl. by rewrite IH.
Qed.

Lemma idents_optionalField (names : list string) (k table : string) :
  table = "" ∨ table ∈ names →
  Forall (λ t, t ∈ names) (flat_map (λ kv, identsOf kv.2) (optionalField k table)).
Proof.
  intros Ht. unfold optionalField.
  destruct (String.eqb_spec table "") as [->|Hne]; simpl; [constructor|].
  constructor; [|constructor]. by destruct Ht.
Qed.

Lemma printRegister_wellReferenced (st st0 : genState) (r : registration) :
  wellReferenced st → extends st st0 →
  Forall (λ t, t ∈ declaredNames st0) (tableRefs r) →
  wellReferenced (printRegister r st0).
Proof.
  intros [Hsd Hregs] Hext Hr. split.
  - by apply (extends_seen st st0).
  - intros r' Hr'. simpl in Hr'. change (declaredNames (printRegister r st0))
      with (declaredNames st0).
    destruct Hext as (Hinit & Hnames & _). rewrite Hinit in Hr'.
    apply elem_of_app in Hr' as [Hr'|Hr'].
    + eapply Forall_impl; [by apply Hregs|]. simpl. auto.
    + by apply list_elem_of_singleton in Hr' as ->.
Qed.

Lemma writeUcaLegacy_wellReferenced env bw meta st st' :
  wellReferenced st → writeUcaLegacy env bw meta st = Ok st' → wellReferenced st'.
Proof.
  intros Hwr H. pose proof Hwr as [Hsd _]. unfold writeUcaLegacy in H.
  apply rbind_Ok in H as ([twp st1] & Hwp & H).
  apply writeWeightPatches_extends in Hwp as [Hext1 Htwp].
  pose proof (writeContractions_extends env meta st1) as [Hext2 Htc].
  destruct (writeContractions env meta st1) as [tc st2]. simpl in *.
  apply rbind_Ok in H as (maxcp & _ & [= <-]).
  apply (printRegister_wellReferenced st); [done | by eapply extends_trans |].
  unfold tableRefs. simpl. rewrite !tableRefsOf_app, !Forall_app.
  split; [|split].
  - apply refs_optionalField; [done|].
    destruct (Htwp Hsd) as [->|?]; [by left | right; by apply (extends_names st1)].
  - apply refs_optionalField; [done|]. apply Htc. by apply (extends_seen st).
  - simpl. constructor.
Qed.

Lemma writeUca900_wellReferenced env bw meta st st' :
  wellReferenced st → writeUca900 env bw meta st = Ok st' → wellReferenced st'.
Proof.
  intros Hwr H. pose proof Hwr as [Hsd _].
  apply writeUca900_Ok in H as (_ & twp & st1 & levels & Hwp & _ & ->).
  simpl in Hwp.
  set (meta' := (selectUca900Table meta).2) in *.
  apply writeWeightPatches_extends in Hwp as [Hext1 Htwp].
  pose proof (writeContractions_extends env meta' st1) as [Hext2 Htc].
  pose proof (writeReorders_extends env meta' (writeContractions env meta' st1).2)
    as [Hext3 Htr].
  assert (seenDeclared st1) as Hsd1 by by apply (extends_seen st).
  assert (seenDeclared (writeContractions env meta' st1).2) as Hsd2
    by by apply (extends_seen st1).
  apply (printRegister_wellReferenced st); [done | |].
  { eapply extends_trans; [done|]. by eapply extends_trans. }
  unfold tableRefs. simpl. rewrite !tableRefsOf_app, !Forall_app.
  split; [|split; [|split]].
  - apply refs_optionalField; [done|].
    destruct (Htwp Hsd) as [->|?]; [by left|]. right.
    by apply (extends_names _ _ _ Hext3), (extends_names _ _ _ Hext2).
  - apply refs_optionalField; [done|].
    destruct (Htc Hsd1) as [->|?]; [by left|]. right.
    by apply (extends_names _ _ _ Hext3).
  - apply refs_optionalField; [done|]. by apply Htr.
  - destruct (UpperCaseFirst meta); simpl; repeat constructor.
Qed.

Lemma writeUnicode_wellReferenced meta st :
  wellReferenced st → wellReferenced (writeUnicode meta st).
Proof.
  intros Hwr. apply (printRegister_wellReferenced st); [done | done |].
  unfold tableRefs. simpl. destruct (Binary (Flags meta)); simpl; constructor.
Qed.

Lemma writeMultibyte_wellReferenced env meta st :
  wellReferenced st → wellReferenced (writeMultibyte env meta st).
Proof.
  intros Hwr. pose proof Hwr as [Hsd _]. unfold writeMultibyte.
  destruct (SortOrder meta) as [so|].
  - pose proof (printDeduplicated_extends env "sortorder" (Name meta)
                  (ByteTable so) (ByteTable so) st)
      as [Hext Ht].
    change (printDeduplicated env "sortorder" (Name meta) (ByteTable so) (ByteTable so) st)
      with (printByteSlice env "sortorder" (Name meta) (Some so) st) in *.
    destruct (printByteSlice env "sortorder" (Name meta) (Some so) st) as [t st1].
    simpl in *. apply (printRegister_wellReferenced st); [done | done |].
    unfold tableRefs. simpl. rewrite !tableRefsOf_app, !Forall_app.
    split; [|simpl; constructor].
    apply refs_optionalField; [done|]. right. by apply Ht.
  - apply (printRegister_wellReferenced st); [done | done |].
    unfold tableRefs. simpl. constructor.
Qed.

Ltac print_step :=
  match goal with
  | |- context [printByteSlice ?e ?n ?c ?a ?s] =>
      let Hext := fresh "Hext" in
      let Ht := fresh "Ht" in
      pose proof (printDeduplicated_extends e n c (byteSlice a) (ByteTable (default [] a)) s) as [Hext Ht];
      change (printDeduplicated e n c (byteSlice a) (ByteTable (default [] a)) s)
        with (printByteSlice e n c a s) in Hext, Ht;
      destruct (printByteSlice e n c a s) as [? ?]; simpl in Hext, Ht
  | |- context [printUnsignedSlice ?e ?n ?c ?a ?s] =>
      let Hext := fresh "Hext" in
      let Ht := fresh "Ht" in
      pose proof (printDeduplicated_extends e n c (Uint16Table a) (Uint16Table a) s) as [Hext Ht];
      change (printDeduplicated e n c (Uint16Table a) (Uint16Table a) s)
        with (printUnsignedSlice e n c a s) in Hext, Ht;
      destruct (printUnsignedSlice e n c a s) as [? ?]; simpl in Hext, Ht
  | |- context [printUnicodeMappings ?e ?n ?c ?a ?s] =>
      let Hext := fresh "Hext" in
      let Ht := fresh "Ht" in
      pose proof (printDeduplicated_extends e n c (MappingTable a) (MappingTable a) s) as [Hext Ht];
      change (printDeduplicated e n c (MappingTable a) (MappingTable a) s)
        with (printUnicodeMappings e n c a s) in Hext, Ht;
      destruct (printUnicodeMappings e n c a s) as [? ?]; simpl in Hext, Ht
  end.

(** Carry [seenDeclared] and the declared names along a chain of steps. *)
Ltac carry_along :=
  repeat match goal with
  | Ht : seenDeclared ?a → _, Hs : seenDeclared ?a |- _ =>
      specialize (Ht Hs); destruct Ht as [? ?]
  | Hext : extends ?a ?b, Hs : seenDeclared ?a |- _ =>
      lazymatch goal with
      | _ : seenDeclared b |- _ => fail
      | _ => pose proof (extends_seen a b Hext Hs)
      end
  | Hext : extends ?a ?b, Hm : ?t ∈ declaredNames ?a |- _ =>
      lazymatch goal with
      | _ : t ∈ declaredNames b |- _ => fail
      | _ => pose proof (extends_names a b t Hext Hm)
      end
  end.

Lemma write8bit_wellReferenced env meta st :
  wellReferenced st → wellReferenced (write8bit env meta st).
Proof.
  intros Hwr. pose proof Hwr as [Hsd _]. unfold write8bit.
  destruct (Print8BitData env); repeat print_step;
    destruct (SortOrder meta); repeat print_step;
    destruct (String.eqb (Charset meta) "latin1"); cbn [negb];
    try (destruct (TabToUni meta); repeat print_step;
         destruct (TabFromUni meta); repeat print_step);
    carry_along;
    (apply (printRegister_wellReferenced st);
     [done | eauto 10 using extends_trans, extends_refl |]);
    unfold tableRefs; cbn [fields tableRefsOf String.eqb Ascii.eqb Bool.eqb orb andb];
    rewrite ?identsOf_struct, ?app_nil_r; cbn [flat_map snd identsOf app];
    rewrite ?flat_map_app, ?Forall_app; cbn [flat_map snd identsOf app];
    repeat split;
    repeat (first [ apply Forall_nil_2
                  | apply idents_optionalField; auto
                  | apply Forall_cons_2; [assumption|]
                  | apply Forall_app_2 ]).
Qed.

(** ** The loop of [main], case by case *)

Lemma routeCollation_cases env bw meta ms ms' :
  routeCollation env bw meta ms = Ok ms' →
  match routeOf env meta with
  | RouteSkip => ms' = ms
  | RouteDefault =>
      ms' = {| gen := gen ms;
               unsupported := unsupported ms ++ [meta];
               unsupportedByCharset :=
                 <[Charset meta :=
                     default [] (unsupportedByCharset ms !! Charset meta)
                     ++ [Name meta]]> (unsupportedByCharset ms) |}
  | RouteLegacy =>
      ∃ st', writeUcaLegacy env bw meta (gen ms) = Ok st' ∧ ms' = withGen ms st'
  | RouteUca900 =>
      ∃ st', writeUca900 env bw meta (gen ms) = Ok st' ∧ ms' = withGen ms st'
  | Route8bit => ms' = withGen ms (write8bit env meta (gen ms))
  | RouteMultibyte => ms' = withGen ms (writeMultibyte env meta (gen ms))
  | RouteUnicode => ms' = withGen ms (writeUnicode meta (gen ms))
  end.
Proof.
  unfold routeCollation, routeOf.
  repeat match goal with
  | |- context [if ?b then _ else _] => destruct b
  end;
  first [ by intros [= <-]
        | intros (st' & Hw & [= <-])%rbind_Ok; by exists st' ].
Qed.

Lemma routeOf_reachesDefault env meta :
  isUnsupported env meta = reachesDefault env meta.
Proof.
  unfold isUnsupported, routeOf, reachesDefault.
  repeat match goal with
  | |- context [if ?b then _ else _] => destruct b
  end; done.
Qed.

Lemma routeAll_wellReferenced env bw all ms ms' :
  wellReferenced (gen ms) → routeAll env bw all ms = Ok ms' →
  wellReferenced (gen ms').
Proof.
  revert ms. induction all as [|meta all IH]; simpl; intros ms Hwr.
  - by intros [= <-].
  - intros (ms1 & Hstep & Hrest)%rbind_Ok. apply (IH ms1); [|done].
    apply routeCollation_cases in Hstep.
    destruct (routeOf env meta).
    + by subst.
    + destruct Hstep as (st' & Hw & ->). simpl.
      by eapply writeUcaLegacy_wellReferenced.
    + destruct Hstep as (st' & Hw & ->). simpl.
      by eapply writeUca900_wellReferenced.
    + subst. simpl. by apply write8bit_wellReferenced.
    + subst. simpl. by apply writeMultibyte_wellReferenced.
    + subst. simpl. by apply writeUnicode_wellReferenced.
    + by subst.
Qed.

(** X8: in a generated file, every table that a registration refers to (any
    identifier among its initialisers, but for the weight table of package
    [uca] and [unicaseInfo_default]) is declared in the file. *)
Theorem main_tables_declared (env : environment) (all : list collationMetadata)
    (file : generatedFile) (r : registration) (t : string) :
  main env all = Ok file →
  r ∈ fileInit file → t ∈ tableRefs r →
  ∃ d, d ∈ fileTables file ∧ varName d = t.
Proof.
  unfold main.
  intros (w4 & _ & (w5 & _ & (w9 & _ & (ms & Hroute & [= <-])%rbind_Ok)%rbind_Ok)%rbind_Ok)%rbind_Ok.
  simpl. intros Hr Ht.
  apply routeAll_wellReferenced in Hroute as [_ Hregs].
  - specialize (Hregs r Hr). rewrite Forall_forall in Hregs.
    specialize (Hregs t Ht). unfold declaredNames in Hregs.
    apply list_elem_of_fmap in Hregs as (d & -> & Hd). by exists d.
  - split; simpl.
    + intros raw name Hraw. cbn in Hraw. by rewrite lookup_empty in Hraw.
    + intros r' Hr'. cbn in Hr'. by apply elem_of_nil in Hr'.
Qed.

Lemma routeCollation_names env bw meta ms ms' :
  routeCollation env bw meta ms = Ok ms' →
  nameOf <$> init (gen ms')
  = (nameOf <$> init (gen ms))
    ++ (if isRegistered env meta then [Some (GoString (Name meta))] else [])
  ∧ unsupported ms'
    = unsupported ms ++ (if isUnsupported env meta then [meta] else []).
Proof.
  intros Hstep. pose proof (routeCollation_cases _ _ _ _ _ Hstep) as Hcase.
  unfold isRegistered, isUnsupported.
  assert (Hone : ∀ st', (∃ r, init st' = init (gen ms) ++ [r] ∧ registers meta r) →
            nameOf <$> init st'
            = (nameOf <$> init (gen ms)) ++ [Some (GoString (Name meta))]).
  { intros st' (r & -> & Hname & _). rewrite fmap_app. simpl.
    unfold nameOf at 2. by rewrite Hname. }
  destruct (routeOf env meta).
  - subst. by rewrite !app_nil_r.
  - destruct Hcase as (st' & Hw & ->). cbn [withGen gen unsupported]. rewrite app_nil_r. split; [|done].
    apply Hone. by eapply writeUcaLegacy_registers.
  - destruct Hcase as (st' & Hw & ->). cbn [withGen gen unsupported]. rewrite app_nil_r. split; [|done].
    apply Hone. by eapply writeUca900_registers'.
  - subst. cbn [withGen gen unsupported]. rewrite app_nil_r. split; [|done].
    apply Hone, write8bit_registers.
  - subst. cbn [withGen gen unsupported]. rewrite app_nil_r. split; [|done].
    apply Hone, writeMultibyte_registers.
  - subst. cbn [withGen gen unsupported]. rewrite app_nil_r. split; [|done].
    apply Hone, writeUnicode_registers.
  - subst. simpl. by rewrite app_nil_r.
Qed.

Lemma routeAll_names env bw all ms ms' :
  routeAll env bw all ms = Ok ms' →
  nameOf <$> init (gen ms')
  = (nameOf <$> init (gen ms))
    ++ ((λ m, Some (GoString (Name m))) <$> List.filter (isRegistered env) all)
  ∧ unsupported ms' = unsupported ms ++ List.filter (isUnsupported env) all.
Proof.
  revert ms. induction all as [|meta all IH]; simpl; intros ms.
  - intros [= <-]. by rewrite !app_nil_r.
  - intros (ms1 & Hstep & Hrest)%rbind_Ok.
    apply routeCollation_names in Hstep as [Hn1 Hu1].
    apply IH in Hrest as [Hn2 Hu2]. rewrite Hn2, Hn1, Hu2, Hu1, <- !app_assoc.
    by destruct (isRegistered env meta), (isUnsupported env meta).
Qed.

Lemma route_partition env (all : list collationMetadata) :
  (length (List.filter (isRegistered env) all)
   + length (List.filter (isUnsupported env) all)
   + length (List.filter (isSkipped env) all) = length all)%nat.
Proof.
  induction all as [|meta all IH]; simpl; [done|].
  unfold isRegistered, isUnsupported, isSkipped in *.
  destruct (routeOf env meta); simpl; lia.
Qed.

(** X9: in a generated file the registrations are, in the order of the dump,
    those of the collations that take a writing case of the [switch], each
    under its own name and once; the unsupported map lists the collations of
    the [default] case; and with the skipped ones they add up to the dump. *)
Theorem main_accounts_for_dump (env : environment) (all : list collationMetadata)
    (file : generatedFile) :
  main env all = Ok file →
  nameOf <$> fileInit file
  = (λ m, Some (GoString (Name m))) <$> List.filter (isRegistered env) all
  ∧ collationsUnsupportedByName file
    = (λ m, (Name m, Number m)) <$> List.filter (isUnsupported env) all
  ∧ (length (fileInit file) + length (collationsUnsupportedByName file)
     + length (List.filter (isSkipped env) all) = length all)%nat.
Proof.
  unfold main.
  intros (w4 & _ & (w5 & _ & (w9 & _ & (ms & Hroute & [= <-])%rbind_Ok)%rbind_Ok)%rbind_Ok)%rbind_Ok.
  apply routeAll_names in Hroute as [Hnames Huns]. cbn in Hnames, Huns. cbn.
  split; [done|]. split; [by rewrite Huns|].
  rewrite <- (route_partition env all), Huns, length_map.
  rewrite <- (length_fmap nameOf), Hnames, length_fmap. done.
Qed.

(** ** The panics of [main] *)

Lemma diffMaps_Panic orgWeights modWeights (why : failure) :
  diffMaps orgWeights modWeights = Panic why → keyPanic why.
Proof.
  rewrite diffMaps_unfold.
  intros [H | (diff & _ & [=])]%rbind_Panic.
  apply rmapM_toPatch_Panic_key in H as (kv & _ & Hto).
  apply toPatch_Panic in Hto as [[-> _] | [-> _]]; [by left | by right].
Qed.

Lemma writeWeightPatches_Panic env bw meta st (why : failure) :
  writeWeightPatches env bw meta st = Panic why →
  why = InvalidUCAVersion ∧ baseFor bw (UCAVersion meta) = None
  ∨ keyPanic why.
Proof.
  unfold writeWeightPatches, baseFor.
  intros [H | (base & _ & [H | (diff & _ & H)]%rbind_Panic)]%rbind_Panic.
  - left. destruct (UCAVersion meta =? 400); [done|].
    destruct (UCAVersion meta =? 520); [done|].
    destruct (UCAVersion meta =? 900); [done|]. by injection H as <-.
  - right. by eapply diffMaps_Panic.
  - destruct (0 <? length diff)%nat; [|done].
    destruct (dedupTable _ _ _ _ _) as [[t []] seen]; done.
Qed.

Lemma writeUcaLegacy_Panic_why env bw meta st (why : failure) :
  writeUcaLegacy env bw meta st = Panic why →
  why = InvalidUCAVersion ∨ keyPanic why.
Proof.
  unfold writeUcaLegacy.
  intros [H | ([twp st1] & _ & H)]%rbind_Panic.
  - apply writeWeightPatches_Panic in H as [[-> _] | H]; auto.
  - destruct (writeContractions env meta st1) as [tc st2].
    apply rbind_Panic in H as [H | (maxcp & _ & [=])]. left.
    destruct (UCAVersion meta =? 400); [done|].
    destruct (UCAVersion meta =? 520); [done|]. by injection H as <-.
Qed.

Lemma writeUca900_Panic_why env bw meta st (why : failure) :
  writeUca900 env bw meta st = Panic why →
  why = UnexpectedUCAVersion ∨ keyPanic why
  ∨ why = UnknownLevelsForCompare (Name meta).
Proof.
  unfold writeUca900. destruct (negb _) eqn:Hv; [intros [= <-]; by left|].
  pose proof (selectUca900Table_same meta) as (Hn & Hv' & _).
  destruct (selectUca900Table meta) as [tw meta']. simpl in *.
  intros [H | ([twp st1] & _ & H)]%rbind_Panic.
  - apply writeWeightPatches_Panic in H as [[_ Hbase] | H]; [|by right; left].
    unfold baseFor in Hbase. rewrite Hv' in Hbase.
    apply negb_false_iff in Hv. rewrite Hv in Hbase.
    destruct (UCAVersion meta =? 400); [done|].
    by destruct (UCAVersion meta =? 520).
  - destruct (writeContractions env meta' st1) as [tc st2].
    destruct (writeReorders env meta' st2) as [tr st3].
    apply rbind_Panic in H as [H | (levels & _ & [=])]. right; right.
    unfold levelsForCompare in H. rewrite Hn in H.
    repeat match type of H with
    | context [if ?b then _ else _] => destruct b
    end; by inversion H.
Qed.

Lemma routeAll_Panic_why env bw all ms (why : failure) :
  routeAll env bw all ms = Panic why → why ≠ NilDereference.
Proof.
  revert ms. induction all as [|meta all IH]; simpl; intros ms; [done|].
  intros [H | (ms1 & _ & H)]%rbind_Panic; [|by eapply IH].
  unfold routeCollation in H.
  repeat match type of H with
  | context [if ?b then _ else _] => destruct b
  end; try done;
    apply rbind_Panic in H as [H | (st' & _ & [=])];
    first [ apply writeUcaLegacy_Panic_why in H as [-> | [-> | ->]]; done
          | apply writeUca900_Panic_why in H as [-> | [[-> | ->] | ->]]; done ].
Qed.

Lemma findCollation_None (all : list collationMetadata) (name : string) :
  findCollation all name = None ↔ name ∉ Name <$> all.
Proof.
  unfold findCollation. induction all as [|meta all IH]; simpl.
  - split; [intros _; by apply not_elem_of_nil | done].
  - rewrite not_elem_of_cons.
    destruct (String.eqb_spec (Name meta) name) as [->|Hne].
    + split; [done | by intros [? _]].
    + rewrite IH. split; [by intros ? | by intros [_ ?]].
Qed.

(** X10: [main] stops on a nil pointer exactly when the dump lacks one of
    the three collations whose weights serve as base tables; no other step of
    the generator dereferences nil. *)
Theorem main_missing_base (env : environment) (all : list collationMetadata) :
  main env all = Panic NilDereference
  ↔ ∃ name, name ∈ baseCollations ∧ name ∉ Name <$> all.
Proof.
  unfold main, weightsOf, baseCollations.
  destruct (findCollation all "utf8mb4_unicode_ci") as [m4|] eqn:H4.
  2: { split; [intros _ | done]. exists "utf8mb4_unicode_ci".
       split; [set_solver | by apply findCollation_None]. }
  destruct (findCollation all "utf8mb4_unicode_520_ci") as [m5|] eqn:H5.
  2: { split; [intros _ | done]. exists "utf8mb4_unicode_520_ci".
       split; [set_solver | by apply findCollation_None]. }
  destruct (findCollation all "utf8mb4_0900_ai_ci") as [m9|] eqn:H9.
  2: { split; [intros _ | done]. exists "utf8mb4_0900_ai_ci".
       split; [set_solver | by apply findCollation_None]. }
  cbn [rbind]. split.
  - intros [H | (ms & _ & [=])]%rbind_Panic.
    by apply routeAll_Panic_why in H.
  - intros (name & Hin & Hnot). apply findCollation_None in Hnot.
    repeat (apply elem_of_cons in Hin as [-> | Hin]; [congruence|]).
    by apply elem_of_nil in Hin.
Qed.

(** ** Optional fields are printed exactly when there is data *)

Lemma field_optionalField_same (k table : string) :
  field k (optionalField k table) = None ↔ table = "".
Proof.
  unfold optionalField. destruct (String.eqb_spec table "") as [->|Hne]; simpl.
  - done.
  - rewrite String.eqb_refl. split; [done | by intros ->].
Qed.

Lemma writeWeightPatches_table env bw meta st table st' :
  seenDeclared st →
  writeWeightPatches env bw meta st = Ok (table, st') →
  ∃ base diff, baseFor bw (UCAVersion meta) = Some base
    ∧ diffMaps base (Weights meta) = Ok diff
    ∧ (table = "" ↔ diff = []).
Proof.
  intros Hsd. unfold writeWeightPatches. intros H.
  apply rbind_Ok in H as (base & Hbase & H).
  apply rbind_Ok in H as (diff & Hdiff & H).
  exists base, diff. split.
  { unfold baseFor. destruct (UCAVersion meta =? 400); [congruence|].
    destruct (UCAVersion meta =? 520); [congruence|].
    destruct (UCAVersion meta =? 900); [congruence | done]. }
  split; [done|]. destruct diff as [|p diff]; simpl in H.
  - by injection H as <- <-.
  - pose proof (dedup_print_extends env "weightTailoring" (Name meta)
                  (PatchTable (p :: diff)) (PatchTable (p :: diff)) st) as Hcore.
    destruct (dedupTable _ _ _ _ _) as [[t found] seen].
    destruct Hcore as [_ Hne]. destruct (Hne Hsd) as [Hne' _].
    destruct found; injection H as <- <-; done.
Qed.

Lemma writeContractions_table env meta st :
  seenDeclared st →
  (writeContractions env meta st).1 = "" ↔ Contractions meta = [].
Proof.
  intros Hsd. unfold writeContractions.
  destruct (Contractions meta) as [|ctr ctrs] eqn:Hc; simpl; [done|].
  pose proof (dedup_print_extends env "contractions" (Name meta)
                (ContractionTable (ctr :: ctrs))
                (ContractionTable (trimContraction ctr :: map trimContraction ctrs))
                st) as Hcore.
  destruct (dedupTable _ _ _ _ _) as [[t found] seen].
  destruct Hcore as [_ Hne]. destruct (Hne Hsd) as [Hne' _].
  destruct found; done.
Qed.

Lemma writeReorders_table env meta st :
  seenDeclared st →
  (writeReorders env meta st).1 = "" ↔ Reorder meta = [].
Proof.
  intros Hsd. unfold writeReorders.
  destruct (Reorder meta) as [|rg rgs] eqn:Hr; simpl; [done|].
  pose proof (dedup_print_extends env "reorder" (Name meta)
                (ReorderTable (rg :: rgs)) (ReorderTable (rg :: rgs)) st) as Hcore.
  destruct (dedupTable _ _ _ _ _) as [[t found] seen].
  destruct Hcore as [_ Hne]. destruct (Hne Hsd) as [Hne' _].
  destruct found; done.
Qed.

(** X11: from a state whose deduplication map names declared tables (as every
    state that [main] reaches does), the registration of a legacy UCA
    collation has a [tailoring] field exactly when its weights differ from
    the base table of its version, and a [contractions] field exactly when
    the metadata holds contractions. *)
Theorem legacy_optional_fields (env : environment) (bw : baseWeights)
    (meta : collationMetadata) (st st' : genState) :
  seenDeclared st →
  writeUcaLegacy env bw meta st = Ok st' →
  ∃ r base diff, init st' = init st ++ [r]
    ∧ baseFor bw (UCAVersion meta) = Some base
    ∧ diffMaps base (Weights meta) = Ok diff
    ∧ (field "tailoring" (fields r) = None ↔ diff = [])
    ∧ (field "contractions" (fields r) = None ↔ Contractions meta = []).
Proof.
  intros Hsd H. unfold writeUcaLegacy in H.
  apply rbind_Ok in H as ([twp st1] & Hwp & H).
  pose proof (writeWeightPatches_extends _ _ _ _ _ _ Hwp) as [Hext1 _].
  pose proof (writeWeightPatches_table _ _ _ _ _ _ Hsd Hwp)
    as (base & diff & Hbase & Hdiff & Htwp).
  pose proof (writeContractions_table env meta st1 (extends_seen _ _ Hext1 Hsd)) as Htc.
  pose proof (writeContractions_init env meta st1) as Hinit2.
  destruct (writeContractions env meta st1) as [tc st2]. simpl in *.
  apply rbind_Ok in H as (maxcp & _ & [= <-]).
  eexists. exists base, diff. split.
  { simpl. rewrite Hinit2. by destruct Hext1 as [-> _]. }
  split; [done|]. split; [done|]. simpl. split.
  - rewrite field_app. destruct (field_optionalField_same "tailoring" twp) as [H1 H2].
    destruct (field "tailoring" (optionalField "tailoring" twp)) eqn:Hf.
    + split; [done|]. intros Hd. apply Htwp in Hd. by specialize (H2 Hd).
    + rewrite field_app, field_optionalField_ne by done. simpl.
      split; [intros _; by apply Htwp, H1 | done].
  - rewrite field_app, field_optionalField_ne by done. rewrite field_app.
    destruct (field_optionalField_same "contractions" tc) as [H1 H2].
    destruct (field "contractions" (optionalField "contractions" tc)) eqn:Hf.
    + split; [done|]. intros Hd. apply Htc in Hd. by specialize (H2 Hd).
    + simpl. split; [intros _; by apply Htc, H1 | done].
Qed.

Lemma field_optional_app (k table : string) (rest : list (string * goValue)) :
  field k (optionalField k table ++ rest) = None ↔ table = "" ∧ field k rest = None.
Proof.
  rewrite field_app. pose proof (field_optionalField_same k table) as [H1 H2].
  destruct (field k (optionalField k table)) eqn:Hf.
  - split; [done|]. intros [Ht _]. by specialize (H2 Ht).
  - split; [intros Hr; split; [by apply H1 | done] | by intros [_ ?]].
Qed.

(** X12: from such a state, the registration of a UCA 9.0.0 collation has a
    [tailoring] field exactly when the weights left after the choice of the
    table differ from the base table, a [contractions] and a [reorder] field
    exactly when there are contractions and reorder ranges left, and
    [upperCaseFirst] exactly when the metadata sets it; but for the Chinese
    collation the reorder ranges left are those of the metadata. *)
Theorem uca900_optional_fields (env : environment) (bw : baseWeights)
    (meta : collationMetadata) (st st' : genState) :
  seenDeclared st →
  writeUca900 env bw meta st = Ok st' →
  ∃ r diff, init st' = init st ++ [r]
    ∧ diffMaps (baseWeightsUca900 bw) (Weights (selectUca900Table meta).2) = Ok diff
    ∧ (field "tailoring" (fields r) = None ↔ diff = [])
    ∧ (field "contractions" (fields r) = None ↔ Contractions meta = [])
    ∧ (field "reorder" (fields r) = None ↔ Reorder (selectUca900Table meta).2 = [])
    ∧ (field "upperCaseFirst" (fields r) = None ↔ UpperCaseFirst meta = false)
    ∧ (Name meta ≠ "utf8mb4_zh_0900_as_cs" →
       Reorder (selectUca900Table meta).2 = Reorder meta).
Proof.
  intros Hsd H.
  apply writeUca900_Ok in H as (Hv & twp & st1 & levels & Hwp & _ & ->).
  simpl in Hwp.
  pose proof (selectUca900Table_same meta) as (_ & Hv' & _ & Hctr & _).
  set (meta' := (selectUca900Table meta).2) in *.
  pose proof (writeWeightPatches_extends _ _ _ _ _ _ Hwp) as [Hext1 _].
  pose proof (writeWeightPatches_table _ _ _ _ _ _ Hsd Hwp)
    as (base & diff & Hbase & Hdiff & Htwp).
  unfold baseFor in Hbase. rewrite Hv', Hv in Hbase. injection Hbase as <-.
  assert (seenDeclared st1) as Hsd1 by by apply (extends_seen st).
  pose proof (writeContractions_table env meta' st1 Hsd1) as Htc.
  pose proof (writeContractions_extends env meta' st1) as [Hext2 _].
  pose proof (writeReorders_table env meta' _ (extends_seen _ _ Hext2 Hsd1)) as Htr.
  eexists. exists diff. split.
  { simpl. rewrite writeReorders_init, writeContractions_init.
    by destruct Hext1 as [-> _]. }
  split; [done|].
  cbn [fields field String.eqb Ascii.eqb Bool.eqb app].
  split; [|split; [|split; [|split]]].
  - rewrite field_optional_app, !field_app, !field_optionalField_ne by done.
    rewrite <- Htwp. destruct (UpperCaseFirst meta); simpl; tauto.
  - rewrite field_app, field_optionalField_ne by done.
    rewrite field_optional_app, !field_app, !field_optionalField_ne by done.
    rewrite <- Hctr, <- Htc. destruct (UpperCaseFirst meta); simpl; tauto.
  - rewrite !field_app, !field_optionalField_ne by done.
    rewrite <- field_app, field_optional_app.
    rewrite <- Htr. destruct (UpperCaseFirst meta); simpl; tauto.
  - rewrite !field_app, !field_optionalField_ne by done.
    destruct (UpperCaseFirst meta); done.
  - intros Hnzh. unfold meta', selectUca900Table.
    destruct (String.eqb_spec (Name meta) "utf8mb4_zh_0900_as_cs"); [done|].
    by destruct (_ || _).
Qed.

(** ** The unsupported collations by charset *)

Lemma filter_twice {A} (f g : A → bool) (l : list A) :
  List.filter g (List.filter f l) = List.filter (λ x, f x && g x) l.
Proof.
  induction l as [|x l IH]; simpl; [done|].
  destruct (f x); simpl; [|done]. destruct (g x); by rewrite IH.
Qed.

Lemma isUnsupported_route env meta :
  isUnsupported env meta = true ↔ routeOf env meta = RouteDefault.
Proof. unfold isUnsupported. by destruct (routeOf env meta). Qed.

Lemma routeAll_groups env bw all ms ms' :
  routeAll env bw all ms = Ok ms' →
  (∀ cs l, unsupportedByCharset ms !! cs = Some l → l ≠ []) →
  (∀ cs l, unsupportedByCharset ms' !! cs = Some l → l ≠ [])
  ∧ ∀ cs, default [] (unsupportedByCharset ms' !! cs)
          = default [] (unsupportedByCharset ms !! cs) ++ unsupportedOf env all cs.
Proof.
  unfold unsupportedOf.
  revert ms. induction all as [|meta all IH]; simpl; intros ms.
  - intros [= <-] Hne. split; [done|]. intros cs. by rewrite app_nil_r.
  - intros (ms1 & Hstep & Hrest)%rbind_Ok Hne.
    apply routeCollation_cases in Hstep.
    pose proof (isUnsupported_route env meta) as Hroute.
    assert ((∀ cs l, unsupportedByCharset ms1 !! cs = Some l → l ≠ [])
            ∧ ∀ cs, default [] (unsupportedByCharset ms1 !! cs)
                    = default [] (unsupportedByCharset ms !! cs)
                      ++ (if isUnsupported env meta && String.eqb (Charset meta) cs
                          then [Name meta] else [])) as [Hne1 Hstep1].
    { destruct (routeOf env meta) eqn:Hr;
        try (assert (isUnsupported env meta = false) as ->
               by (unfold isUnsupported; by rewrite Hr));
        try (destruct Hstep as (st' & _ & ->));
        try subst ms1; simpl;
        try (split; [done | intros cs; by rewrite app_nil_r]).
      assert (isUnsupported env meta = true) as -> by by apply Hroute.
      simpl. split.
      - intros cs l. destruct (decide (Charset meta = cs)) as [<-|Hcs].
        + rewrite lookup_insert_eq. intros [= <-].
          by destruct (default [] _).
        + rewrite lookup_insert_ne by done. apply Hne.
      - intros cs. destruct (String.eqb_spec (Charset meta) cs) as [<-|Hcs].
        + by rewrite lookup_insert_eq.
        + rewrite lookup_insert_ne by done. by rewrite app_nil_r. }
    destruct (IH ms1 Hrest Hne1) as [Hne' Hall]. split; [done|].
    intros cs. rewrite Hall, Hstep1, <- app_assoc. f_equal.
    by destruct (isUnsupported env meta && String.eqb (Charset meta) cs).
Qed.

(** X13: after the loop of [main], the map [unsupportedByCharset] holds, for
    each charset, the names of its unsupported collations in the order of
    the dump, and has no entry for a charset without any; the slice
    [unsupported] holds as many collations as the lists of the map
    together hold for their charsets. *)
Theorem unsupported_grouped_by_charset (env : environment) (bw : baseWeights)
    (all : list collationMetadata) (ms : mainState) :
  routeAll env bw all initialMainState = Ok ms →
  (∀ cs, default [] (unsupportedByCharset ms !! cs) = unsupportedOf env all cs)
  ∧ (∀ cs, unsupportedByCharset ms !! cs = None ↔ unsupportedOf env all cs = [])
  ∧ (∀ cs, unsupportedOf env all cs
           = Name <$> List.filter (λ m, String.eqb (Charset m) cs) (unsupported ms)).
Proof.
  intros Hroute.
  pose proof (routeAll_names _ _ _ _ _ Hroute) as [_ Huns].
  apply routeAll_groups in Hroute as [Hne Hall].
  2: { intros cs l Hl. cbn in Hl. by rewrite lookup_empty in Hl. }
  assert (∀ cs, default [] (unsupportedByCharset ms !! cs) = unsupportedOf env all cs)
    as Hgroups.
  { intros cs. rewrite Hall. cbn. by rewrite lookup_empty. }
  split; [done|]. split.
  - intros cs. rewrite <- Hgroups.
    destruct (unsupportedByCharset ms !! cs) as [l|] eqn:Hl; simpl; [|done].
    split; [done|]. intros ->. by destruct (Hne cs [] Hl).
  - intros cs. rewrite Huns. cbn. unfold unsupportedOf.
    by rewrite filter_twice.
Qed.

(** ** No table is declared twice *)

Lemma tableName_inj (k1 k2 c1 c2 : string) :
  k1 ∈ tableKinds → k2 ∈ tableKinds →
  k1 +:+ "_" +:+ c1 = k2 +:+ "_" +:+ c2 → k1 = k2 ∧ c1 = c2.
Proof.
  unfold tableKinds. intros H1 H2.
  repeat (apply elem_of_cons in H1 as [-> | H1]);
    try (by apply elem_of_nil in H1);
    repeat (apply elem_of_cons in H2 as [-> | H2]);
    try (by apply elem_of_nil in H2);
    intros H; vm_compute in H; split; congruence.
Qed.

Lemma namedApart_mono (used used' : list (string * string)) (st : genState) :
  (∀ kc, kc ∈ used → kc ∈ used') → namedApart used st → namedApart used' st.
Proof.
  intros Hsub [Hnd Hnames]. split; [done|].
  intros x (k & c & Hkc & ->)%Hnames. exists k, c. auto.
Qed.

(** A table printed under a pair of kind and collation not used before. *)
Lemma dedup_print_apart env colls used kind coll val printed st :
  usedWithin colls used → kind ∈ tableKinds → (kind, coll) ∉ used →
  namedApart used st →
  let '(table, found, seen) := dedupTable env kind coll val (seenTables st) in
  let st' := if found then setSeen seen st
             else printTable {| varName := table; contents := printed |}
                    (setSeen seen st) in
  namedApart ((kind, coll) :: used) st'.
Proof.
  intros Hused Hkind Hfresh [Hnd Hnames]. unfold dedupTable.
  destruct (seenTables st !! gosyntax env val) as [existing|].
  - apply (namedApart_mono used); [intros kc ?; by right | done].
  - unfold namedApart, declaredNames. simpl. rewrite fmap_app. simpl. split.
    + apply NoDup_app. split; [done|]. split; [|apply NoDup_singleton].
      intros x Hx ->%list_elem_of_singleton.
      destruct (Hnames _ Hx) as (k & c & Hkc & Heq).
      destruct (Hused _ _ Hkc) as [Hk _].
      apply tableName_inj in Heq as [-> ->]; done.
    + intros x [Hx | ->%list_elem_of_singleton]%elem_of_app.
      * destruct (Hnames _ Hx) as (k & c & Hkc & ->). exists k, c.
        split; [by right | done].
      * exists kind, coll. split; [by left | done].
Qed.

Lemma elem_of_kindsOf (coll : string) (kinds : list string) (k c : string) :
  (k, c) ∈ kindsOf coll kinds ↔ k ∈ kinds ∧ c = coll.
Proof.
  unfold kindsOf. rewrite list_elem_of_fmap. split.
  - by intros (k' & [= -> ->] & Hk).
  - intros [Hk ->]. by exists k.
Qed.

Lemma usedWithin_usedBy (colls : list string) : usedWithin colls (usedBy colls).
Proof.
  unfold usedWithin, usedBy. intros k c Hkc.
  apply list_elem_of_In, in_flat_map in Hkc as (coll & Hcoll & Hkc).
  apply list_elem_of_In, elem_of_kindsOf in Hkc as [Hk ->].
  split; [done | by apply list_elem_of_In].
Qed.

(** One more table of the collation [coll], of a kind not used for it yet. *)
Lemma apart_step env colls coll used kinds kind val printed st :
  usedWithin colls used → coll ∉ colls →
  (∀ k, k ∈ kind :: kinds → k ∈ tableKinds) → kind ∉ kinds →
  namedApart (kindsOf coll kinds ++ used) st →
  let '(table, found, seen) := dedupTable env kind coll val (seenTables st) in
  let st' := if found then setSeen seen st
             else printTable {| varName := table; contents := printed |}
                    (setSeen seen st) in
  namedApart (kindsOf coll (kind :: kinds) ++ used) st'.
Proof.
  intros Hused Hcoll Hkinds Hkind Hna.
  apply (dedup_print_apart env (coll :: colls) (kindsOf coll kinds ++ used));
    [| apply Hkinds; by left | | done].
  - intros k c [[Hk ->]%elem_of_kindsOf | Hkc]%elem_of_app.
    + split; [apply Hkinds; by right | by left].
    + destruct (Hused _ _ Hkc). split; [done | by right].
  - intros [[Hk _]%elem_of_kindsOf | Hkc]%elem_of_app; [done|].
    by destruct (Hused _ _ Hkc).
Qed.

Lemma apart_skip coll used kinds kind st :
  namedApart (kindsOf coll kinds ++ used) st →
  namedApart (kindsOf coll (kind :: kinds) ++ used) st.
Proof.
  apply namedApart_mono. intros kc [Hkc | Hkc]%elem_of_app; apply elem_of_app.
  - left. unfold kindsOf in *. simpl. by right.
  - by right.
Qed.

Lemma printDeduplicated_apart env colls coll used kinds kind val printed st :
  usedWithin colls used → coll ∉ colls →
  (∀ k, k ∈ kind :: kinds → k ∈ tableKinds) → kind ∉ kinds →
  namedApart (kindsOf coll kinds ++ used) st →
  namedApart (kindsOf coll (kind :: kinds) ++ used)
    (printDeduplicated env kind coll val printed st).2.
Proof.
  intros Hused Hcoll Hkinds Hkind Hna.
  pose proof (apart_step env colls coll used kinds kind val printed st
                Hused Hcoll Hkinds Hkind Hna) as H.
  unfold printDeduplicated.
  destruct (dedupTable env kind coll val (seenTables st)) as [[t found] seen].
  by destruct found.
Qed.

Lemma writeWeightPatches_apart env bw colls used kinds meta st table st' :
  usedWithin colls used → Name meta ∉ colls →
  (∀ k, k ∈ "weightTailoring" :: kinds → k ∈ tableKinds) →
  "weightTailoring" ∉ kinds →
  namedApart (kindsOf (Name meta) kinds ++ used) st →
  writeWeightPatches env bw meta st = Ok (table, st') →
  namedApart (kindsOf (Name meta) ("weightTailoring" :: kinds) ++ used) st'.
Proof.
  intros Hused Hcoll Hkinds Hkind Hna H. unfold writeWeightPatches in H.
  apply rbind_Ok in H as (base & _ & H). apply rbind_Ok in H as (diff & _ & H).
  destruct (0 <? length diff)%nat.
  - pose proof (apart_step env colls (Name meta) used kinds "weightTailoring"
                  (PatchTable diff) (PatchTable diff) st
                  Hused Hcoll Hkinds Hkind Hna) as Hstep.
    destruct (dedupTable _ _ _ _ _) as [[t found] seen].
    destruct found; by injection H as <- <-.
  - injection H as <- <-. by apply apart_skip.
Qed.

Lemma writeContractions_apart env colls used kinds meta st :
  usedWithin colls used → Name meta ∉ colls →
  (∀ k, k ∈ "contractions" :: kinds → k ∈ tableKinds) →
  "contractions" ∉ kinds →
  namedApart (kindsOf (Name meta) kinds ++ used) st →
  namedApart (kindsOf (Name meta) ("contractions" :: kinds) ++ used)
    (writeContractions env meta st).2.
Proof.
  intros Hused Hcoll Hkinds Hkind Hna. unfold writeContractions.
  destruct (0 <? length (Contractions meta))%nat; [|by apply apart_skip].
  pose proof (apart_step env colls (Name meta) used kinds "contractions"
                (ContractionTable (Contractions meta))
                (ContractionTable (map trimContraction (Contractions meta))) st
                Hused Hcoll Hkinds Hkind Hna) as Hstep.
  destruct (dedupTable _ _ _ _ _) as [[t found] seen]. by destruct found.
Qed.

Lemma writeReorders_apart env colls used kinds meta st :
  usedWithin colls used → Name meta ∉ colls →
  (∀ k, k ∈ "reorder" :: kinds → k ∈ tableKinds) →
  "reorder" ∉ kinds →
  namedApart (kindsOf (Name meta) kinds ++ used) st →
  namedApart (kindsOf (Name meta) ("reorder" :: kinds) ++ used)
    (writeReorders env meta st).2.
Proof.
  intros Hused Hcoll Hkinds Hkind Hna. unfold writeReorders.
  destruct (0 <? length (Reorder meta))%nat; [|by apply apart_skip].
  pose proof (apart_step env colls (Name meta) used kinds "reorder"
                (ReorderTable (Reorder meta)) (ReorderTable (Reorder meta)) st
                Hused Hcoll Hkinds Hkind Hna) as Hstep.
  destruct (dedupTable _ _ _ _ _) as [[t found] seen]. by destruct found.
Qed.

Ltac kinds_ok :=
  let k := fresh "k" in
  let Hk := fresh "Hk" in
  intros k Hk;
  repeat (apply elem_of_cons in Hk as [-> | Hk]);
  [unfold tableKinds; set_solver .. | by apply elem_of_nil in Hk].

Ltac kind_fresh :=
  repeat (apply not_elem_of_cons; split; [done|]); apply not_elem_of_nil.

Lemma apart_finish coll kinds used st :
  (∀ k, k ∈ kinds → k ∈ tableKinds) →
  namedApart (kindsOf coll kinds ++ used) st →
  namedApart (kindsOf coll tableKinds ++ used) st.
Proof.
  intros Hkinds. apply namedApart_mono.
  intros [k c] [[Hk ->]%elem_of_kindsOf | Hkc]%elem_of_app; apply elem_of_app.
  - left. apply elem_of_kindsOf. auto.
  - by right.
Qed.

Lemma writeUcaLegacy_apart env bw colls meta st st' :
  Name meta ∉ colls → namedApart (usedBy colls) st →
  writeUcaLegacy env bw meta st = Ok st' →
  namedApart (usedBy (Name meta :: colls)) st'.
Proof.
  intros Hcoll Hna H. pose proof (usedWithin_usedBy colls) as Hused.
  unfold writeUcaLegacy in H.
  apply rbind_Ok in H as ([twp st1] & Hwp & H).
  change (usedBy colls) with (kindsOf (Name meta) [] ++ usedBy colls) in Hna.
  pose proof (writeWeightPatches_apart env bw colls (usedBy colls) [] meta st
                twp st1 Hused Hcoll ltac:(kinds_ok) ltac:(kind_fresh) Hna Hwp)
    as Hw.
  pose proof (writeContractions_apart env colls (usedBy colls) ["weightTailoring"]
                meta st1 Hused Hcoll ltac:(kinds_ok) ltac:(kind_fresh) Hw) as Hc.
  destruct (writeContractions env meta st1) as [tc st2]. simpl in Hc.
  apply rbind_Ok in H as (maxcp & _ & [= <-]).
  exact (apart_finish (Name meta) ["contractions"; "weightTailoring"]
           (usedBy colls) st2 ltac:(kinds_ok) Hc).
Qed.

Lemma writeUca900_apart env bw colls meta st st' :
  Name meta ∉ colls → namedApart (usedBy colls) st →
  writeUca900 env bw meta st = Ok st' →
  namedApart (usedBy (Name meta :: colls)) st'.
Proof.
  intros Hcoll Hna H. pose proof (usedWithin_usedBy colls) as Hused.
  apply writeUca900_Ok in H as (_ & twp & st1 & levels & Hwp & _ & ->).
  simpl in Hwp.
  pose proof (selectUca900Table_same meta) as (Hn & _).
  set (meta' := (selectUca900Table meta).2) in *. rewrite <- Hn in *.
  change (usedBy colls) with (kindsOf (Name meta') [] ++ usedBy colls) in Hna.
  pose proof (writeWeightPatches_apart env bw colls (usedBy colls) [] meta' st
                twp st1 Hused Hcoll ltac:(kinds_ok) ltac:(kind_fresh) Hna Hwp)
    as Hw.
  pose proof (writeContractions_apart env colls (usedBy colls) ["weightTailoring"]
                meta' st1 Hused Hcoll ltac:(kinds_ok) ltac:(kind_fresh) Hw) as Hc.
  pose proof (writeReorders_apart env colls (usedBy colls)
                ["contractions"; "weightTailoring"] meta'
                (writeContractions env meta' st1).2 Hused Hcoll
                ltac:(kinds_ok) ltac:(kind_fresh) Hc) as Hr.
  exact (apart_finish (Name meta') ["reorder"; "contractions"; "weightTailoring"]
           (usedBy colls) _ ltac:(kinds_ok) Hr).
Qed.

Ltac apart_print colls Hused Hcoll :=
  match goal with
  | Hna : namedApart (kindsOf ?c ?K ++ ?used) ?s
    |- context [printByteSlice ?e ?kind ?c ?a ?s] =>
      let H := fresh "Hna" in
      pose proof (printDeduplicated_apart e colls c used K kind (byteSlice a) (ByteTable (default [] a)) s
                    Hused Hcoll ltac:(kinds_ok) ltac:(kind_fresh) Hna) as H;
      change (printDeduplicated e kind c (byteSlice a) (ByteTable (default [] a)) s)
        with (printByteSlice e kind c a s) in H;
      destruct (printByteSlice e kind c a s) as [? ?]; cbn [snd] in H; clear Hna
  | Hna : namedApart (kindsOf ?c ?K ++ ?used) ?s
    |- context [printUnsignedSlice ?e ?kind ?c ?a ?s] =>
      let H := fresh "Hna" in
      pose proof (printDeduplicated_apart e colls c used K kind (Uint16Table a) (Uint16Table a) s
                    Hused Hcoll ltac:(kinds_ok) ltac:(kind_fresh) Hna) as H;
      change (printDeduplicated e kind c (Uint16Table a) (Uint16Table a) s)
        with (printUnsignedSlice e kind c a s) in H;
      destruct (printUnsignedSlice e kind c a s) as [? ?]; cbn [snd] in H; clear Hna
  | Hna : namedApart (kindsOf ?c ?K ++ ?used) ?s
    |- context [printUnicodeMappings ?e ?kind ?c ?a ?s] =>
      let H := fresh "Hna" in
      pose proof (printDeduplicated_apart e colls c used K kind (MappingTable a) (MappingTable a) s
                    Hused Hcoll ltac:(kinds_ok) ltac:(kind_fresh) Hna) as H;
      change (printDeduplicated e kind c (MappingTable a) (MappingTable a) s)
        with (printUnicodeMappings e kind c a s) in H;
      destruct (printUnicodeMappings e kind c a s) as [? ?]; cbn [snd] in H; clear Hna
  end.

Lemma write8bit_apart env colls meta st :
  Name meta ∉ colls → namedApart (usedBy colls) st →
  namedApart (usedBy (Name meta :: colls)) (write8bit env meta st).
Proof.
  intros Hcoll Hna. pose proof (usedWithin_usedBy colls) as Hused.
  change (usedBy colls) with (kindsOf (Name meta) [] ++ usedBy colls) in Hna.
  unfold write8bit.
  destruct (Print8BitData env); repeat apart_print colls Hused Hcoll;
    destruct (SortOrder meta); repeat apart_print colls Hused Hcoll;
    destruct (String.eqb (Charset meta) "latin1"); cbn [negb];
    try (destruct (TabToUni meta); repeat apart_print colls Hused Hcoll;
         destruct (TabFromUni meta); repeat apart_print colls Hused Hcoll);
    match goal with
    | Hna : namedApart (kindsOf ?c ?K ++ ?u) ?s |- _ =>
        exact (apart_finish c K u s ltac:(kinds_ok) Hna)
    end.
Qed.

Lemma writeMultibyte_apart env colls meta st :
  Name meta ∉ colls → namedApart (usedBy colls) st →
  namedApart (usedBy (Name meta :: colls)) (writeMultibyte env meta st).
Proof.
  intros Hcoll Hna. pose proof (usedWithin_usedBy colls) as Hused.
  change (usedBy colls) with (kindsOf (Name meta) [] ++ usedBy colls) in Hna.
  unfold writeMultibyte.
  destruct (SortOrder meta); repeat apart_print colls Hused Hcoll;
    match goal with
    | Hna : namedApart (kindsOf ?c ?K ++ ?u) ?s |- _ =>
        exact (apart_finish c K u s ltac:(kinds_ok) Hna)
    end.
Qed.

Lemma usedBy_cons_mono (coll : string) (colls : list string) (st : genState) :
  namedApart (usedBy colls) st → namedApart (usedBy (coll :: colls)) st.
Proof.
  apply namedApart_mono. intros kc Hkc.
  change (usedBy (coll :: colls)) with (kindsOf coll tableKinds ++ usedBy colls).
  apply elem_of_app. by right.
Qed.

Lemma routeCollation_apart env bw colls meta ms ms' :
  Name meta ∉ colls → namedApart (usedBy colls) (gen ms) →
  routeCollation env bw meta ms = Ok ms' →
  namedApart (usedBy (Name meta :: colls)) (gen ms').
Proof.
  intros Hcoll Hna Hstep. apply routeCollation_cases in Hstep.
  destruct (routeOf env meta).
  - subst. by apply usedBy_cons_mono.
  - destruct Hstep as (st' & Hw & ->). by eapply writeUcaLegacy_apart.
  - destruct Hstep as (st' & Hw & ->). by eapply writeUca900_apart.
  - subst. by apply write8bit_apart.
  - subst. by apply writeMultibyte_apart.
  - subst. by apply usedBy_cons_mono.
  - subst. by apply usedBy_cons_mono.
Qed.

Lemma routeAll_apart env bw all colls ms ms' :
  NoDup (Name <$> all) → (∀ m, m ∈ all → Name m ∉ colls) →
  namedApart (usedBy colls) (gen ms) →
  routeAll env bw all ms = Ok ms' →
  namedApart (usedBy (rev (Name <$> all) ++ colls)) (gen ms').
Proof.
  revert colls ms. induction all as [|meta all IH]; simpl; intros colls ms Hnd Hfresh Hna.
  - by intros [= <-].
  - intros (ms1 & Hstep & Hrest)%rbind_Ok.
    apply NoDup_cons in Hnd as [Hnotin Hnd].
    rewrite <- app_assoc. simpl.
    apply (IH (Name meta :: colls) ms1); [done | | | done].
    + intros m Hm. apply not_elem_of_cons. split.
      * intros Heq. apply Hnotin. rewrite <- Heq. by apply list_elem_of_fmap_2.
      * apply Hfresh. by right.
    + eapply routeCollation_apart; [|done..]. apply Hfresh. by left.
Qed.

(** X14: when the collations of the dump have pairwise distinct names, the
    generated file declares no table twice, and every table is named after
    one of the nine kinds of table and a collation of the dump. *)
Theorem main_declares_once (env : environment) (all : list collationMetadata)
    (file : generatedFile) :
  NoDup (Name <$> all) →
  main env all = Ok file →
  NoDup (varName <$> fileTables file)
  ∧ ∀ d, d ∈ fileTables file →
      ∃ kind m, kind ∈ tableKinds ∧ m ∈ all
        ∧ varName d = kind +:+ "_" +:+ Name m.
Proof.
  intros Hnd. unfold main.
  intros (w4 & _ & (w5 & _ & (w9 & _ & (ms & Hroute & [= <-])%rbind_Ok)%rbind_Ok)%rbind_Ok)%rbind_Ok.
  apply (routeAll_apart _ _ _ []) in Hroute as [Hnodup Hnames]; [|done| |].
  - split; [done|]. cbn. intros d Hd.
    destruct (Hnames (varName d)) as (kind & coll & Hkc & Heq).
    { by apply list_elem_of_fmap_2. }
    destruct (usedWithin_usedBy _ _ _ Hkc) as [Hkind Hcoll].
    rewrite app_nil_r in Hcoll.
    apply list_elem_of_In, in_rev, list_elem_of_In in Hcoll.
    apply list_elem_of_fmap in Hcoll as (m & -> & Hm). by exists kind, m.
  - intros m _. apply not_elem_of_nil.
  - split; cbn; [constructor|]. by intros x ?%elem_of_nil.
Qed.

(** ** The further properties at the sample dumps *)

Lemma seenDeclared_emptyState : seenDeclared emptyState.
Proof. intros raw name H. cbn in H. by rewrite lookup_empty in H. Qed.

Lemma writeWeightPatches_base_entries_witness :
  writeWeightPatches sampleEnv sampleBase sampleBaseMeta emptyState
  = Ok ("", emptyState).
Proof.
  apply (writeWeightPatches_base_entries sampleEnv sampleBase sampleBaseMeta
           emptyState (baseWeightsUca900 sampleBase)).
  - right. right. split; reflexivity.
  - intros key val H. exact H.
Defined.

Lemma diffMaps_returns_iff_witness :
  diffMaps ∅ brokenMod = Panic ParseIntError
  ∧ diffMaps ∅ shortMod = Panic SliceBoundsOutOfRange
  ∧ (∃ key val, brokenMod !! key = Some val ∧ (2 ≤ String.length key)%nat
       ∧ ParseInt16_32 (string_of_list_ascii (drop 2 (bytesOf key))) = None)
  ∧ (∃ key val, shortMod !! key = Some val ∧ (String.length key < 2)%nat).
Proof.
  assert (diffMaps ∅ brokenMod = Panic ParseIntError) as Hb
    by (vm_compute; reflexivity).
  assert (diffMaps ∅ shortMod = Panic SliceBoundsOutOfRange) as Hs
    by (vm_compute; reflexivity).
  do 2 (split; [assumption|]). split.
  - destruct (diffMaps_returns_iff ∅ brokenMod) as (_ & _ & _ & Hparse & _).
    destruct (Hparse Hb) as (key & val & Hk & _ & Hlen & Hnone).
    exists key, val. split; [exact Hk | split; [exact Hlen | exact Hnone]].
  - destruct (diffMaps_returns_iff ∅ shortMod) as (_ & _ & Hslice & _).
    destruct (Hslice Hs) as (key & val & Hk & _ & Hlen).
    exists key, val. split; [exact Hk | exact Hlen].
Defined.

Lemma diffMaps_one_patch_per_key_witness :
  ∃ diff, diffMaps ∅ aliasedMod = Ok diff
    ∧ length diff = 3%nat
    ∧ uca.Codepoint <$> diff = [0x41; 0x41; 0x42].
Proof.
  destruct (diffMaps ∅ aliasedMod) as [diff|] eqn:Hdiff.
  - destruct (diffMaps_one_patch_per_key ∅ aliasedMod diff Hdiff) as (Hlen & _ & _).
    exists diff. split; [done|]. split.
    + rewrite Hlen. vm_compute. reflexivity.
    + vm_compute in Hdiff. injection Hdiff as <-. reflexivity.
  - vm_compute in Hdiff. discriminate.
Defined.

Lemma parseKey_int32_witness :
  parseKey "U+0041" = Some 0x41 ∧ parseKey "XX0041" = Some 0x41.
Proof.
  destruct (parseKey_int32 "U+0041" 0x41) as (_ & _ & Hsame); [reflexivity|].
  split; [reflexivity|]. apply Hsame; [simpl; lia | reflexivity].
Defined.

Lemma main_tables_declared_witness :
  ∃ file d, main sampleEnv tableDump = Ok file
    ∧ d ∈ fileTables file
    ∧ varName d = "contractions_utf8mb4_cs_0900_ai_ci".
Proof.
  destruct (main sampleEnv tableDump) as [file|] eqn:Hmain.
  - assert (∃ r, r ∈ fileInit file
              ∧ "contractions_utf8mb4_cs_0900_ai_ci" ∈ tableRefs r) as (r & Hr & Ht).
    { pose proof Hmain as Hrun. vm_compute in Hrun. injection Hrun as <-.
      eexists. split.
      - do 4 right. left.
      - apply list_elem_of_In. vm_compute. tauto. }
    destruct (main_tables_declared sampleEnv tableDump file r
                "contractions_utf8mb4_cs_0900_ai_ci" Hmain Hr Ht)
      as (d & Hd & Hname).
    exists file, d. split; [reflexivity|]. split; assumption.
  - vm_compute in Hmain. discriminate Hmain.
Defined.

Lemma main_accounts_for_dump_witness :
  ∃ file, main sampleEnv tableDump = Ok file
    ∧ nameOf <$> fileInit file
      = [ Some (GoString "latin1_swedish_ci");
          Some (GoString "utf8mb4_unicode_ci");
          Some (GoString "utf8mb4_unicode_520_ci");
          Some (GoString "utf8mb4_0900_ai_ci");
          Some (GoString "utf8mb4_cs_0900_ai_ci") ]
    ∧ collationsUnsupportedByName file = [("cp1250_czech_cs", 34)].
Proof.
  destruct (main sampleEnv tableDump) as [file|] eqn:Hmain.
  - destruct (main_accounts_for_dump sampleEnv tableDump file Hmain)
      as (Hnames & Huns & _).
    exists file. split; [reflexivity|]. rewrite Hnames, Huns.
    split; vm_compute; reflexivity.
  - vm_compute in Hmain. discriminate Hmain.
Defined.

Lemma legacy_optional_fields_witness :
  ∃ st' r, writeUcaLegacy sampleEnv sampleBase sampleLegacy emptyState = Ok st'
    ∧ init st' = [r]
    ∧ field "tailoring" (fields r) = None
    ∧ field "contractions" (fields r) ≠ None.
Proof.
  destruct (writeUcaLegacy sampleEnv sampleBase sampleLegacy emptyState)
    as [st'|] eqn:Hrun.
  - destruct (legacy_optional_fields sampleEnv sampleBase sampleLegacy emptyState
                st' seenDeclared_emptyState Hrun)
      as (r & base & diff & Hinit & Hbase & Hdiff & Htail & Hctr).
    exists st', r. split; [reflexivity|]. split; [exact Hinit|]. split.
    + apply Htail. injection Hbase as <-. vm_compute in Hdiff.
      injection Hdiff as <-. reflexivity.
    + intros Hnone. apply Hctr in Hnone. discriminate Hnone.
  - vm_compute in Hrun. discriminate Hrun.
Defined.

Lemma uca900_optional_fields_witness :
  ∃ st' r, writeUca900 sampleEnv sampleBase sampleCs emptyState = Ok st'
    ∧ init st' = [r]
    ∧ field "tailoring" (fields r) ≠ None
    ∧ field "contractions" (fields r) ≠ None
    ∧ field "reorder" (fields r) ≠ None
    ∧ field "upperCaseFirst" (fields r) = None.
Proof.
  destruct (writeUca900 sampleEnv sampleBase sampleCs emptyState)
    as [st'|] eqn:Hrun.
  - destruct (uca900_optional_fields sampleEnv sampleBase sampleCs emptyState
                st' seenDeclared_emptyState Hrun)
      as (r & diff & Hinit & Hdiff & Htail & Hctr & Hre & Hup & _).
    exists st', r. split; [reflexivity|]. split; [exact Hinit|].
    split; [|split; [|split]].
    + intros Hnone. apply Htail in Hnone. subst diff.
      vm_compute in Hdiff. discriminate Hdiff.
    + intros Hnone. apply Hctr in Hnone. discriminate Hnone.
    + intros Hnone. apply Hre in Hnone. vm_compute in Hnone. discriminate Hnone.
    + apply Hup. reflexivity.
  - vm_compute in Hrun. discriminate Hrun.
Defined.

Lemma unsupported_grouped_by_charset_witness :
  ∃ ms, routeAll sampleEnv sampleBase tableDump initialMainState = Ok ms
    ∧ unsupportedByCharset ms !! "cp1250" = Some ["cp1250_czech_cs"]
    ∧ unsupportedByCharset ms !! "tis620" = None.
Proof.
  destruct (routeAll sampleEnv sampleBase tableDump initialMainState)
    as [ms|] eqn:Hrun.
  - destruct (unsupported_grouped_by_charset sampleEnv sampleBase tableDump ms Hrun)
      as (Hgroups & Hnone & _).
    exists ms. split; [reflexivity|]. split.
    + specialize (Hgroups "cp1250").
      destruct (unsupportedByCharset ms !! "cp1250") as [l|] eqn:Hl.
      * simpl in Hgroups. rewrite Hgroups. vm_compute. reflexivity.
      * apply Hnone in Hl. vm_compute in Hl. discriminate Hl.
    + apply Hnone. vm_compute. reflexivity.
  - vm_compute in Hrun. discriminate Hrun.
Defined.

Lemma main_declares_once_witness :
  ∃ file, main sampleEnv tableDump = Ok file
    ∧ NoDup (varName <$> fileTables file)
    ∧ length (fileTables file) = 4%nat.
Proof.
  destruct (main sampleEnv tableDump) as [file|] eqn:Hmain.
  - destruct (main_declares_once sampleEnv tableDump file) as [Hnd _].
    + apply (bool_decide_unpack _). vm_compute. exact I.
    + exact Hmain.
    + exists file. split; [reflexivity|]. split; [exact Hnd|].
      vm_compute in Hmain. injection Hmain as <-. reflexivity.
  - vm_compute in Hmain. discriminate Hmain.
Defined.
